(** * feed-post-parser: a shallow embedding of [src/main.js]

    The worker scans issue bodies for a fenced JSON directive, resolves the
    feed named by the directive's [feed] key, and writes the directive back
    with a [posts] list.  This file embeds [parseFeed], [processIssue] and
    [run] of [src/main.js], the JavaScript primitives they call
    ([String.prototype.match] on the two regular expressions,
    [String.prototype.replace] with a string pattern, [JSON.parse],
    [JSON.stringify]), and the helpers imported from [./utils.js]. *)

From Stdlib Require Import String Ascii.
From Stdlib Require Import NArith ZArith Bool Lia Arith List Permutation.
From Stdlib Require DecimalPos DecimalFacts.
Import ListNotations.

Set Implicit Arguments.
Set Warnings "-register-all".

(** ** JavaScript strings: sequences of UTF-16 code units *)

Module Js.

Definition jsstring := list N.

Fixpoint js (s : string) : jsstring :=
  match s with
  | EmptyString => []
  | String c r => N_of_ascii c :: js r
  end.

Fixpoint eqb (a b : jsstring) : bool :=
  match a, b with
  | [], [] => true
  | x :: a', y :: b' => N.eqb x y && eqb a' b'
  | _, _ => false
  end.

(** [strip_prefix p s] is [Some r] exactly when [s = p ++ r]. *)
Fixpoint strip_prefix (p s : jsstring) : option jsstring :=
  match p with
  | [] => Some s
  | x :: p' =>
      match s with
      | [] => None
      | y :: s' => if N.eqb x y then strip_prefix p' s' else None
      end
  end.

(** The class [\s] of ECMAScript regular expressions: WhiteSpace and
    LineTerminator code points. *)
Definition is_space (c : N) : bool :=
  ((9 <=? c) && (c <=? 13) || (c =? 32) || (c =? 160) || (c =? 5760)
   || ((8192 <=? c) && (c <=? 8202)) || (c =? 8232) || (c =? 8233)
   || (c =? 8239) || (c =? 8287) || (c =? 12288) || (c =? 65279))%N.

(** Greedy [\s*]: the longest run of white space, and what follows it. *)
Fixpoint span_space (s : jsstring) : jsstring * jsstring :=
  match s with
  | [] => ([], [])
  | c :: r =>
      if is_space c
      then let '(w, t) := span_space r in (c :: w, t)
      else ([], s)
  end.

Definition backtick : N := 96.
Definition lbrace : N := 123.
Definition rbrace : N := 125.
Definition dollar : N := 36.

Definition fence_open : jsstring := js "```json".
Definition fence_close : jsstring := [backtick; backtick; backtick].

(** *** [/```json\s*\{[\s\S]*?\}\s*```/m]

    [lazy_close r] runs the lazy [[\s\S]*?] followed by [\}\s*```] on the
    text [r] that follows the opening brace: it stops at the first [}]
    that is followed by white space and the closing fence.  The result is
    the text before that brace, the white space after it, and the text
    after the closing fence. *)
Fixpoint lazy_close (r : jsstring) : option (jsstring * jsstring * jsstring) :=
  match r with
  | [] => None
  | c :: r' =>
      let later :=
        match lazy_close r' with
        | Some (inner, w, rest) => Some (c :: inner, w, rest)
        | None => None
        end in
      if N.eqb c rbrace then
        let '(w, t) := span_space r' in
        match strip_prefix fence_close t with
        | Some rest => Some ([], w, rest)
        | None => later
        end
      else later
  end.

(** The whole pattern anchored at the start of [s]: the matched text and
    the text after it. *)
Definition fence_at (s : jsstring) : option (jsstring * jsstring) :=
  match strip_prefix fence_open s with
  | None => None
  | Some r1 =>
      let '(w1, r2) := span_space r1 in
      match r2 with
      | c :: r3 =>
          if N.eqb c lbrace then
            match lazy_close r3 with
            | Some (inner, w2, rest) =>
                Some (fence_open ++ w1 ++ lbrace :: inner ++ rbrace :: w2 ++ fence_close,
                      rest)
            | None => None
            end
          else None
      | [] => None
      end
  end.

(** [body.match(/```json\s*\{[\s\S]*?\}\s*```/m)]: the leftmost position
    where the pattern matches.  The result splits the body into the text
    before the match, [match[0]], and the text after it. *)
Fixpoint fence_match (s : jsstring) : option (jsstring * jsstring * jsstring) :=
  match fence_at s with
  | Some (m, rest) => Some ([], m, rest)
  | None =>
      match s with
      | [] => None
      | c :: s' =>
          match fence_match s' with
          | Some (pre, m, rest) => Some (c :: pre, m, rest)
          | None => None
          end
      end
  end.

(** *** [/\{[\s\S]*\}/m]

    [upto_last_close t] is the prefix of [t] that ends with the last [}]
    of [t]: the greedy [[\s\S]*] followed by [\}]. *)
Fixpoint upto_last_close (t : jsstring) : option jsstring :=
  match t with
  | [] => None
  | c :: t' =>
      match upto_last_close t' with
      | Some r => Some (c :: r)
      | None => if N.eqb c rbrace then Some [c] else None
      end
  end.

(** [m.match(/\{[\s\S]*\}/m)]: from the first [{] to the last [}] after
    it.  When no [}] follows the first [{], none follows a later one. *)
Fixpoint brace_match (s : jsstring) : option jsstring :=
  match s with
  | [] => None
  | c :: s' =>
      if N.eqb c lbrace then
        match upto_last_close s' with
        | Some r => Some (c :: r)
        | None => None
        end
      else brace_match s'
  end.

(** Lines 72-73 of [processIssue]: [jsonMatch[0]], when there is one. *)
Definition jsonMatch (body : jsstring) : option jsstring :=
  match fence_match body with
  | Some (_, m, _) => brace_match m
  | None => None
  end.

(** *** [String.prototype.replace] with a string pattern

    [index_split pat s] is [indexOf]: the text before and after the first
    occurrence of [pat] in [s]. *)
Fixpoint index_split (pat s : jsstring) : option (jsstring * jsstring) :=
  match strip_prefix pat s with
  | Some rest => Some ([], rest)
  | None =>
      match s with
      | [] => None
      | c :: s' =>
          match index_split pat s' with
          | Some (b, a) => Some (c :: b, a)
          | None => None
          end
      end
  end.

(** ECMAScript GetSubstitution with no capture groups: in the replacement
    text [$$] stands for [$], [$&] for the matched text, [$`] for the text
    before the match and [$'] for the text after it; every other code unit
    (a [$] before a digit or [<] included) stands for itself. *)
Fixpoint get_substitution (matched before after template : jsstring) : jsstring :=
  match template with
  | [] => []
  | c :: r =>
      if N.eqb c dollar then
        match r with
        | d :: r' =>
            if N.eqb d dollar then dollar :: get_substitution matched before after r'
            else if N.eqb d 38 then matched ++ get_substitution matched before after r'
            else if N.eqb d 96 then before ++ get_substitution matched before after r'
            else if N.eqb d 39 then after ++ get_substitution matched before after r'
            else c :: get_substitution matched before after r
        | [] => [c]
        end
      else c :: get_substitution matched before after r
  end.

(** [s.replace(pat, template)]: only the first occurrence is replaced; a
    text without the pattern is returned as it is. *)
Definition replace (s pat template : jsstring) : jsstring :=
  match index_split pat s with
  | Some (b, a) => b ++ get_substitution pat b a template ++ a
  | None => s
  end.

End Js.

(** ** JSON values, [JSON.parse] and [JSON.stringify]

    Numbers: the model covers the number literals whose value is an
    integer of magnitude below [2^53] (the safe integers, which
    [JSON.parse] reads and [JSON.stringify] prints exactly), in whatever
    notation the literal is written ([1000], [1e3], [1000.0]); negative
    zero, which is not an integer of [Z], is left out.  The grammar of a
    text is decided for every text.  A text that is valid JSON and holds
    a number of another value (a fraction, a magnitude of [2^53] or more,
    negative zero) is outside the model: [JSON_parse] answers
    [Unmodelled] and nothing is claimed. *)

Module Json.
Import Js.

Inductive json :=
| JNull
| JBool (b : bool)
| JNum (z : Z)
| JStr (s : jsstring)
| JArr (items : list json)
| JObj (props : list (jsstring * json)).

(** *** Objects: own properties in ECMAScript's property order *)

Definition is_digit (c : N) : bool := ((48 <=? c) && (c <=? 57))%N.

Fixpoint digits_value (acc : N) (ds : jsstring) : N :=
  match ds with
  | [] => acc
  | d :: r => digits_value (10 * acc + (d - 48))%N r
  end.

(** An array index is the canonical decimal text of an integer between
    [0] and [2^32 - 2]. *)
Definition array_index (k : jsstring) : option N :=
  match k with
  | [] => None
  | d :: r =>
      if forallb is_digit k && (negb (N.eqb d 48) || match r with [] => true | _ => false end)
         && (length k <=? 10)%nat
      then let n := digits_value 0 k in
           if (n <=? 4294967294)%N then Some n else None
      else None
  end.

Fixpoint lookup (k : jsstring) (m : list (jsstring * json)) : option json :=
  match m with
  | [] => None
  | (k', v) :: r => if eqb k k' then Some v else lookup k r
  end.

Fixpoint overwrite (k : jsstring) (v : json) (m : list (jsstring * json)) :=
  match m with
  | [] => []
  | (k', v') :: r =>
      if eqb k k' then (k', v) :: r else (k', v') :: overwrite k v r
  end.

(** A new array-index key goes before the first key that is not an array
    index or is a larger one. *)
Fixpoint insert_index (i : N) (k : jsstring) (v : json) (m : list (jsstring * json)) :=
  match m with
  | [] => [(k, v)]
  | (k', v') :: r =>
      match array_index k' with
      | Some j => if (i <? j)%N then (k, v) :: m else (k', v') :: insert_index i k v r
      | None => (k, v) :: m
      end
  end.

(** [o[k] = v] on an ordinary object: an existing property keeps its
    place; a new array-index key is put in numeric order before the string
    keys; any other new key goes last. *)
Definition obj_set (k : jsstring) (v : json) (m : list (jsstring * json)) :=
  match lookup k m with
  | Some _ => overwrite k v m
  | None =>
      match array_index k with
      | Some i => insert_index i k v m
      | None => m ++ [(k, v)]
      end
  end.

(** *** [JSON.parse] *)

(** What a parser answers: a result and the text left, a syntax error,
    or nothing, its fuel being used up. *)
Inductive presult (A : Type) :=
| Ok (a : A) (rest : jsstring)
| Bad
| Unknown.
Arguments Bad {A}.
Arguments Unknown {A}.

Definition is_json_ws (c : N) : bool :=
  ((c =? 32) || (c =? 9) || (c =? 10) || (c =? 13))%N.

Fixpoint skip_ws (s : jsstring) : jsstring :=
  match s with
  | [] => []
  | c :: r => if is_json_ws c then skip_ws r else s
  end.

Definition hex_value (c : N) : option N :=
  (if (48 <=? c) && (c <=? 57) then Some (c - 48)
   else if (97 <=? c) && (c <=? 102) then Some (c - 87)
   else if (65 <=? c) && (c <=? 70) then Some (c - 55)
   else None)%N.

Definition hex4 (a b c d : N) : option N :=
  match hex_value a, hex_value b, hex_value c, hex_value d with
  | Some x, Some y, Some z, Some w => Some (4096 * x + 256 * y + 16 * z + w)%N
  | _, _, _, _ => None
  end.

Definition unescape (c : N) : option N :=
  (if c =? 34 then Some 34 else if c =? 92 then Some 92
   else if c =? 47 then Some 47 else if c =? 98 then Some 8
   else if c =? 102 then Some 12 else if c =? 110 then Some 10
   else if c =? 114 then Some 13 else if c =? 116 then Some 9
   else None)%N.

(** The characters of a string literal, after its opening quote. *)
Fixpoint parse_chars (s : jsstring) : presult jsstring :=
  match s with
  | [] => Bad
  | c :: r =>
      if N.eqb c 34 then Ok [] r
      else if N.eqb c 92 then
        match r with
        | [] => Bad
        | e :: r1 =>
            if N.eqb e 117 then
              match r1 with
              | h1 :: h2 :: h3 :: h4 :: r2 =>
                  match hex4 h1 h2 h3 h4 with
                  | Some u =>
                      match parse_chars r2 with
                      | Ok t rest => Ok (u :: t) rest
                      | Bad => Bad
                      | Unknown => Unknown
                      end
                  | None => Bad
                  end
              | _ => Bad
              end
            else
              match unescape e with
              | Some u =>
                  match parse_chars r1 with
                  | Ok t rest => Ok (u :: t) rest
                  | Bad => Bad
                  | Unknown => Unknown
                  end
              | None => Bad
              end
        end
      else if (c <? 32)%N then Bad
      else
        match parse_chars r with
        | Ok t rest => Ok (c :: t) rest
        | Bad => Bad
        | Unknown => Unknown
        end
  end.

Fixpoint span_digits (s : jsstring) : jsstring * jsstring :=
  match s with
  | [] => ([], [])
  | c :: r =>
      if is_digit c then let '(ds, t) := span_digits r in (c :: ds, t)
      else ([], s)
  end.

Definition safe_bound : N := 9007199254740992.

(** [m * 10^s], when that is an integer. *)
Definition scaled (m : N) (s : Z) : option N :=
  if (m =? 0)%N then Some 0%N
  else if (0 <=? s)%Z then Some (m * 10 ^ Z.to_N s)%N
  else
    let d := (10 ^ Z.to_N (- s))%N in
    if (m mod d =? 0)%N then Some (m / d)%N else None.

(** The value of the literal with integer digits [ds], fraction digits
    [fs] and exponent [e], when the model has it: [None] for a value that
    is not a safe integer, and for negative zero. *)
Definition number_value (neg : bool) (ds fs : jsstring) (e : Z) : option json :=
  match scaled (digits_value 0 (ds ++ fs)) (e - Z.of_nat (length fs)) with
  | Some n =>
      if (n <? safe_bound)%N && negb (neg && (n =? 0)%N)
      then Some (JNum (if neg then - Z.of_N n else Z.of_N n))
      else None
  | None => None
  end.

(** The optional fraction of a number literal: its digits and what
    follows; [None] when a point is not followed by a digit. *)
Definition parse_fraction (s : jsstring) : option (jsstring * jsstring) :=
  match s with
  | c :: r =>
      if N.eqb c 46 then
        match span_digits r with
        | ([], _) => None
        | (f :: fs, rest) => Some (f :: fs, rest)
        end
      else Some ([], s)
  | [] => Some ([], [])
  end.

(** The optional exponent of a number literal: its value and what
    follows; [None] when [e] or [E] is not followed by digits. *)
Definition parse_exponent (s : jsstring) : option (Z * jsstring) :=
  match s with
  | c :: r =>
      if N.eqb c 101 || N.eqb c 69 then
        let '(minus, r') :=
          match r with
          | g :: r'' =>
              if N.eqb g 43 then (false, r'')
              else if N.eqb g 45 then (true, r'')
              else (false, r)
          | [] => (false, r)
          end in
        match span_digits r' with
        | ([], _) => None
        | (d :: ds, rest) =>
            let n := Z.of_N (digits_value 0 (d :: ds)) in
            Some (if minus then (- n)%Z else n, rest)
        end
      else Some (0%Z, s)
  | [] => Some (0%Z, [])
  end.

(** A number literal at the head of [s]; [neg] tells whether a minus sign
    came before it.  The result is [Ok None] for a literal of the grammar
    whose value the model does not have. *)
Definition parse_number (neg : bool) (s : jsstring) : presult (option json) :=
  match span_digits s with
  | ([], _) => Bad
  | (d :: ds, rest) =>
      if N.eqb d 48 && match ds with [] => false | _ => true end
      then (* a leading zero ends the literal: what follows is a stray digit *)
        Bad
      else
        match parse_fraction rest with
        | None => Bad
        | Some (fs, rest1) =>
            match parse_exponent rest1 with
            | None => Bad
            | Some (e, rest2) => Ok (number_value neg (d :: ds) fs e) rest2
            end
        end
  end.

Definition parse_literal (word : jsstring) (v : json) (s : jsstring)
  : presult (option json) :=
  match strip_prefix word s with
  | Some rest => Ok (Some v) rest
  | None => Bad
  end.

(** [v :: l] and [o[k] = v], when every part is a value of the model. *)
Definition cons_value (v : option json) (l : option (list json)) : option (list json) :=
  match v, l with
  | Some x, Some r => Some (x :: r)
  | _, _ => None
  end.

Definition set_value (k : jsstring) (v : option json)
           (m : option (list (jsstring * json))) : option (list (jsstring * json)) :=
  match v, m with
  | Some x, Some props => Some (obj_set k x props)
  | _, _ => None
  end.

(** The parser reads a value, the elements of an array after its opening
    bracket and the members of an object after its opening brace.  [fuel]
    bounds the depth of the calls; [Unknown] is the answer of a parser
    that ran out of it.  The value is [None] when the text read is of the
    grammar and holds a number the model does not have. *)
Fixpoint parse_value (fuel : nat) (s : jsstring) {struct fuel} : presult (option json) :=
  match fuel with
  | O => Unknown
  | S f =>
      match skip_ws s with
      | [] => Bad
      | c :: r =>
          if N.eqb c 34 then
            match parse_chars r with
            | Ok t rest => Ok (Some (JStr t)) rest
            | Bad => Bad
            | Unknown => Unknown
            end
          else if N.eqb c 123 then
            match skip_ws r with
            | [] => Bad
            | c1 :: r1 =>
                if N.eqb c1 125 then Ok (Some (JObj [])) r1
                else
                  match parse_members f (Some []) (c1 :: r1) with
                  | Ok m rest => Ok (option_map JObj m) rest
                  | Bad => Bad
                  | Unknown => Unknown
                  end
            end
          else if N.eqb c 91 then
            match skip_ws r with
            | [] => Bad
            | c1 :: r1 =>
                if N.eqb c1 93 then Ok (Some (JArr [])) r1
                else
                  match parse_elements f (c1 :: r1) with
                  | Ok l rest => Ok (option_map JArr l) rest
                  | Bad => Bad
                  | Unknown => Unknown
                  end
            end
          else if N.eqb c 116 then parse_literal (js "true") (JBool true) (c :: r)
          else if N.eqb c 102 then parse_literal (js "false") (JBool false) (c :: r)
          else if N.eqb c 110 then parse_literal (js "null") JNull (c :: r)
          else if N.eqb c 45 then parse_number true r
          else parse_number false (c :: r)
      end
  end

with parse_elements (fuel : nat) (s : jsstring) {struct fuel}
  : presult (option (list json)) :=
  match fuel with
  | O => Unknown
  | S f =>
      match parse_value f s with
      | Ok v rest =>
          match skip_ws rest with
          | [] => Bad
          | c :: r =>
              if N.eqb c 44 then
                match parse_elements f r with
                | Ok l rest' => Ok (cons_value v l) rest'
                | Bad => Bad
                | Unknown => Unknown
                end
              else if N.eqb c 93 then Ok (cons_value v (Some [])) r
              else Bad
          end
      | Bad => Bad
      | Unknown => Unknown
      end
  end

with parse_members (fuel : nat) (acc : option (list (jsstring * json))) (s : jsstring)
       {struct fuel} : presult (option (list (jsstring * json))) :=
  match fuel with
  | O => Unknown
  | S f =>
      match skip_ws s with
      | [] => Bad
      | q :: r =>
          if N.eqb q 34 then
            match parse_chars r with
            | Ok k rest =>
                match skip_ws rest with
                | [] => Bad
                | c :: r1 =>
                    if N.eqb c 58 then
                      match parse_value f r1 with
                      | Ok v rest1 =>
                          match skip_ws rest1 with
                          | [] => Bad
                          | c2 :: r2 =>
                              if N.eqb c2 44 then parse_members f (set_value k v acc) r2
                              else if N.eqb c2 125 then Ok (set_value k v acc) r2
                              else Bad
                          end
                      | Bad => Bad
                      | Unknown => Unknown
                      end
                    else Bad
                end
            | Bad => Bad
            | Unknown => Unknown
            end
          else Bad
      end
  end.

Inductive parsed :=
| Parsed (v : json)
| SyntaxError
| Unmodelled.

(** [JSON.parse(text)]: one value, with nothing but white space after it.
    The fuel given is enough for every text. *)
Definition JSON_parse (text : jsstring) : parsed :=
  match parse_value (2 * length text + 2) text with
  | Ok v rest =>
      match skip_ws rest with
      | [] =>
          match v with
          | Some x => Parsed x
          | None => Unmodelled
          end
      | _ :: _ => SyntaxError
      end
  | Bad => SyntaxError
  | Unknown => Unmodelled
  end.

(** The texts [JSON.parse] does not throw on: one value of the grammar,
    with nothing but white space after it. *)
Definition valid_json (text : jsstring) : Prop :=
  exists v rest,
    parse_value (2 * length text + 2) text = Ok v rest /\ skip_ws rest = [].

(** *** [JSON.stringify(value, null, 2)] *)

Definition hex_digit (n : N) : N := (if n <? 10 then 48 + n else 87 + n)%N.

(** [\uXXXX] with lower-case digits. *)
Definition unicode_escape (c : N) : jsstring :=
  [92; 117; hex_digit (c / 4096 mod 16); hex_digit (c / 256 mod 16);
   hex_digit (c / 16 mod 16); hex_digit (c mod 16)]%N.

Definition is_high_surrogate (c : N) : bool := ((55296 <=? c) && (c <=? 56319))%N.
Definition is_low_surrogate (c : N) : bool := ((56320 <=? c) && (c <=? 57343))%N.

(** QuoteJSONString without the surrounding quotes. *)
Fixpoint quote_chars (s : jsstring) : jsstring :=
  match s with
  | [] => []
  | c :: r =>
      if N.eqb c 8 then js "\b" ++ quote_chars r
      else if N.eqb c 9 then js "\t" ++ quote_chars r
      else if N.eqb c 10 then js "\n" ++ quote_chars r
      else if N.eqb c 12 then js "\f" ++ quote_chars r
      else if N.eqb c 13 then js "\r" ++ quote_chars r
      else if N.eqb c 34 then [92; 34]%N ++ quote_chars r
      else if N.eqb c 92 then [92; 92]%N ++ quote_chars r
      else if (c <? 32)%N then unicode_escape c ++ quote_chars r
      else if is_high_surrogate c then
        match r with
        | d :: r' =>
            if is_low_surrogate d then c :: d :: quote_chars r'
            else unicode_escape c ++ quote_chars r
        | [] => unicode_escape c
        end
      else if is_low_surrogate c then unicode_escape c ++ quote_chars r
      else c :: quote_chars r
  end.

Definition quote (s : jsstring) : jsstring := 34%N :: quote_chars s ++ [34%N].

Fixpoint uint_chars (u : Decimal.uint) : jsstring :=
  match u with
  | Decimal.Nil => []
  | Decimal.D0 r => 48%N :: uint_chars r
  | Decimal.D1 r => 49%N :: uint_chars r
  | Decimal.D2 r => 50%N :: uint_chars r
  | Decimal.D3 r => 51%N :: uint_chars r
  | Decimal.D4 r => 52%N :: uint_chars r
  | Decimal.D5 r => 53%N :: uint_chars r
  | Decimal.D6 r => 54%N :: uint_chars r
  | Decimal.D7 r => 55%N :: uint_chars r
  | Decimal.D8 r => 56%N :: uint_chars r
  | Decimal.D9 r => 57%N :: uint_chars r
  end.

Definition number_to_string (z : Z) : jsstring :=
  match z with
  | Z0 => [48%N]
  | Zpos p => uint_chars (Pos.to_uint p)
  | Zneg p => 45%N :: uint_chars (Pos.to_uint p)
  end.

Fixpoint join (sep : jsstring) (parts : list jsstring) : jsstring :=
  match parts with
  | [] => []
  | [p] => p
  | p :: r => p ++ sep ++ join sep r
  end.

Definition gap : jsstring := [32; 32]%N.
Definition newline : N := 10.

(** SerializeJSONProperty at indentation [indent], with a gap of two
    spaces. *)
Fixpoint serialize (indent : jsstring) (v : json) {struct v} : jsstring :=
  match v with
  | JNull => js "null"
  | JBool true => js "true"
  | JBool false => js "false"
  | JNum z => number_to_string z
  | JStr s => quote s
  | JArr [] => js "[]"
  | JArr items =>
      let inner := indent ++ gap in
      [91; newline]%N ++ inner
        ++ join ([44; newline]%N ++ inner) (map (serialize inner) items)
        ++ [newline] ++ indent ++ [93%N]
  | JObj [] => js "{}"
  | JObj props =>
      let inner := indent ++ gap in
      [123; newline]%N ++ inner
        ++ join ([44; newline]%N ++ inner)
             (map (fun kv => quote (fst kv) ++ [58; 32]%N ++ serialize inner (snd kv)) props)
        ++ [newline] ++ indent ++ [125%N]
  end.

Definition JSON_stringify (v : json) : jsstring := serialize [] v.

End Json.

(** ** Feed documents as [cheerio.load(data, {xmlMode: true})] sees them

    The tree is the input of the model; how the markup is tokenised is not
    modelled.  A CDATA section is represented by the text it holds. *)

Module Dom.
Import Js.

Inductive node :=
| Text (data : jsstring)
| Comment (data : jsstring)
| Elem (name : jsstring) (attrs : list (jsstring * jsstring)) (children : list node).

Definition document := list node.

(** [.text()]: the text nodes below a node, in document order. *)
Fixpoint textContent (n : node) : jsstring :=
  match n with
  | Text d => d
  | Comment _ => []
  | Elem _ _ kids => concat (map textContent kids)
  end.

(** The nodes strictly below [n], in document order. *)
Fixpoint descendants (n : node) : list node :=
  match n with
  | Elem _ _ kids => flat_map (fun k => k :: descendants k) kids
  | _ => []
  end.

Definition has_name (nm : jsstring) (n : node) : bool :=
  match n with
  | Elem nm' _ _ => eqb nm nm'
  | _ => false
  end.

Fixpoint attr_lookup (a : jsstring) (attrs : list (jsstring * jsstring)) : option jsstring :=
  match attrs with
  | [] => None
  | (k, v) :: r => if eqb a k then Some v else attr_lookup a r
  end.

Definition has_attr (a v : jsstring) (n : node) : bool :=
  match n with
  | Elem _ attrs _ =>
      match attr_lookup a attrs with
      | Some v' => eqb v v'
      | None => false
      end
  | _ => false
  end.

(** [$item.find(name)] *)
Definition find (nm : jsstring) (item : node) : list node :=
  filter (has_name nm) (descendants item).

(** [$item.find('name[a="v"]')] *)
Definition find_with_attr (nm a v : jsstring) (item : node) : list node :=
  filter (fun n => has_name nm n && has_attr a v n) (descendants item).

(** [.first().text()]: the empty string on an empty selection. *)
Definition first_text (sel : list node) : jsstring :=
  match sel with
  | [] => []
  | n :: _ => textContent n
  end.

(** [.attr(a)]: the attribute of the first selected element; [None] is
    JavaScript's [undefined]. *)
Definition attr (a : jsstring) (sel : list node) : option jsstring :=
  match sel with
  | Elem _ attrs _ :: _ => attr_lookup a attrs
  | _ => None
  end.

(** A chain [a > b > c] of child combinators, read from the element up:
    [anc] lists the element's name and then its ancestors' names. *)
Fixpoint chain_ok (rev_chain anc : list jsstring) : bool :=
  match rev_chain, anc with
  | [], _ => true
  | c :: cs, a :: anc' => eqb c a && chain_ok cs anc'
  | _ :: _, [] => false
  end.

Fixpoint select_under (rev_chain anc : list jsstring) (n : node) : list node :=
  match n with
  | Elem nm _ kids =>
      (if chain_ok rev_chain (nm :: anc) then [n] else [])
        ++ flat_map (select_under rev_chain (nm :: anc)) kids
  | _ => []
  end.

(** [$('a > b > c')]: every element of the document that ends such a
    chain, in document order. *)
Definition select (chain : list jsstring) (doc : document) : list node :=
  flat_map (select_under (rev chain) []) doc.

(** [items.slice(0, n)], with [Array.prototype.slice]'s reading of a
    negative end. *)
Definition slice0 (A : Type) (n : Z) (l : list A) : list A :=
  if (n <? 0)%Z then firstn (length l - Z.to_nat (- n)) l
  else firstn (Z.to_nat n) l.

End Dom.

(** ** Effects: a trace of what the worker does to the outside world

    An [async] function of the source is a computation over the trace of
    events emitted so far; it returns a value, throws, or gives no answer.
    [NoAnswer] marks the two places where the model says nothing: a
    directive that is valid JSON and holds a number that is not a safe
    integer, and an [await] on a promise that is never settled. *)

Module Fx.
Import Js Json.

Inductive exn :=
| NetworkError      (* [axios.get] rejects: network failure, time-out, HTTP status *)
| DocumentError     (* [cheerio.load] throws *)
| DateError         (* [formatDate] throws *)
| JsonSyntaxError   (* [JSON.parse] throws *)
| TypeError         (* property access on [null]; a value with no string conversion *)
| UpdateError       (* [octokit.issues.update] rejects *)
| ListingError      (* [issueManager.getIssues] rejects *)
| SetupError        (* [github.context.repo] or [new IssueManager] throws *)
| NoAttempt.        (* [withRetry] asked for no attempt at all *)

Inductive level := info | warn | error.

Inductive context :=
| ParsingFeed (url : json)
| ProcessingIssue (number : Z).

(** The log lines of [main.js], by the line that writes them. *)
Inductive message :=
| FeedInfo (items : nat) (isRss : bool)
| Extracted (title : jsstring) (link : option jsstring) (published : jsstring)
| Processing (number : Z)
| NoBody (number : Z)
| NoJson (number : Z)
| FoundJson (number : Z) (span : jsstring)
| GotJson (number : Z) (data : json)
| GettingFeed (url : json)     (* written with the string conversion of [url] *)
| Converted (number : Z) (data : json)
| Updated (number : Z)
| Started
| Finished
| ErrorProcessingIssues
| AttemptFailed (e : exn).

Inductive event :=
| Log (l : level) (m : message)
| Handled (e : exn) (c : context)
| HttpGet (url : json)
| IssueUpdate (number : Z) (body : jsstring)
| Exit (code : Z).

Definition World := list event.

Inductive Res (A : Type) :=
| Val (a : A) (w : World)
| Exn (e : exn) (w : World)
| NoAnswer.
Arguments Exn {A}.
Arguments NoAnswer {A}.

Definition M (A : Type) := World -> Res A.

Definition ret (A : Type) (a : A) : M A := fun w => Val a w.

Definition bind (A B : Type) (c : M A) (k : A -> M B) : M B :=
  fun w =>
    match c w with
    | Val a w' => k a w'
    | Exn e w' => Exn e w'
    | NoAnswer => NoAnswer
    end.

Definition throw (A : Type) (e : exn) : M A := fun w => Exn e w.

Definition no_answer (A : Type) : M A := fun _ => NoAnswer.

(** [try { c } catch (error) { h error }] *)
Definition try_catch (A : Type) (c : M A) (h : exn -> M A) : M A :=
  fun w =>
    match c w with
    | Val a w' => Val a w'
    | Exn e w' => h e w'
    | NoAnswer => NoAnswer
    end.

Definition emit (e : event) : M unit := fun w => Val tt (w ++ [e]).

End Fx.

Notation "x <- c ;; k" := (Fx.bind c (fun x => k))
  (at level 61, c at next level, right associativity).
Notation "c ;; k" := (Fx.bind c (fun _ => k))
  (at level 61, right associativity).

(** ** The helpers imported from [./utils.js] *)

Module Utils.
Import Js Json Fx.

(** Modelled from the spec: [logger] of [utils.js], which is not in the
    sources.  It writes one log line and does nothing else. *)
Definition logger (l : level) (m : message) : M unit := emit (Log l m).

(** Modelled from the spec: [handleError] of [utils.js], which is not in
    the sources.  The error is logged with its context; nothing is thrown
    again. *)
Definition handleError (e : exn) (c : context) : M unit := emit (Handled e c).

(** Modelled from the spec: [withRetry] of [utils.js], which is not in the
    sources.  The operation is attempted up to [maxAttempts] times, one
    attempt after the other; a failed attempt is logged and, if attempts
    remain, the next one starts at once; the first attempt that does not
    throw gives the result; when every attempt failed the last error is
    thrown.  The spec has [maxAttempts >= 1]; asked for no attempt, the
    model has no error to surface and throws [NoAttempt]. *)
Fixpoint withRetry_loop (A : Type) (operation : M A) (remaining : nat) : M A :=
  fun w =>
    match operation w with
    | Val a w' => Val a w'
    | Exn e w' =>
        match remaining with
        | O => (logger error (AttemptFailed e) ;; throw A e) w'
        | S n => (logger error (AttemptFailed e) ;; withRetry_loop operation n) w'
        end
    | NoAnswer => NoAnswer
    end.

Definition withRetry (A : Type) (operation : M A) (maxAttempts : nat) : M A :=
  match maxAttempts with
  | O => throw A NoAttempt
  | S n => withRetry_loop operation n
  end.

(** Modelled from the spec: [ConcurrencyPool] of [utils.js], which is not
    in the sources.  The pool bounds the number of running tasks by
    [limit]; [queue] holds the submitted tasks that have not started,
    oldest first; a task is known by its position in submission order.
    [start_log] (starts, in order) and [settled] (the outcome each [add]
    promise was settled with) record the history. *)
Section ConcurrencyPool.

Variable T : Type.

Inductive outcome :=
| Fulfilled
| Rejected (e : exn).

Record pool := Pool {
  limit : nat;
  submitted : nat;
  queue : list (nat * T);
  running : list (nat * T);
  start_log : list nat;
  settled : list (nat * outcome)
}.

Definition new_pool (lim : nat) : pool :=
  {| limit := lim; submitted := 0; queue := []; running := [];
     start_log := []; settled := [] |}.

(** The oldest queued task starts. *)
Definition start_next (p : pool) : pool :=
  match queue p with
  | [] => p
  | t :: q =>
      {| limit := limit p; submitted := submitted p; queue := q;
         running := running p ++ [t];
         start_log := start_log p ++ [fst t]; settled := settled p |}
  end.

(** While fewer than [limit] tasks are running, queued tasks start in
    submission order; [n] bounds the number of starts. *)
Fixpoint start_ready (n : nat) (p : pool) : pool :=
  match n with
  | O => p
  | S k =>
      if (length (running p) <? limit p)%nat
      then match queue p with
           | [] => p
           | _ :: _ => start_ready k (start_next p)
           end
      else p
  end.

(** [pool.add(task)]: the task is queued, then the ready tasks start.  The
    result is the task's position in submission order, which names the
    promise [add] returns. *)
Definition add (t : T) (p : pool) : nat * pool :=
  let id := submitted p in
  let q := queue p ++ [(id, t)] in
  (id,
   start_ready (length q)
     {| limit := limit p; submitted := S id; queue := q; running := running p;
        start_log := start_log p; settled := settled p |}).

Definition is_running (id : nat) (p : pool) : bool :=
  existsb (fun t => Nat.eqb (fst t) id) (running p).

(** A running task completes with outcome [r]: its [add] promise is
    settled with [r], its slot is freed, and exactly one queued task, the
    oldest, starts.  A task that is not running cannot complete. *)
Definition complete (id : nat) (r : outcome) (p : pool) : option pool :=
  if is_running id p then
    Some (start_next
            {| limit := limit p; submitted := submitted p; queue := queue p;
               running := filter (fun t => negb (Nat.eqb (fst t) id)) (running p);
               start_log := start_log p;
               settled := settled p ++ [(id, r)] |})
  else None.

Fixpoint settled_with (id : nat) (l : list (nat * outcome)) : option outcome :=
  match l with
  | [] => None
  | (i, r) :: l' => if Nat.eqb i id then Some r else settled_with id l'
  end.

(** The state of the promise returned by the [add] call that submitted
    task [id]: [None] while it is pending. *)
Definition add_promise (id : nat) (p : pool) : option outcome :=
  settled_with id (settled p).

End ConcurrencyPool.

Arguments new_pool : clear implicits.

End Utils.

(** ** [src/main.js] *)

Module Main.
Import Js Json Dom Fx Utils.

Record post := Post {
  title : jsstring;
  link : jsstring;
  published : jsstring
}.

Record issue := Issue {
  number : Z;
  body : option jsstring
}.

Inductive fetched :=
| GetFailed                    (* [axios.get] rejects *)
| LoadFailed                   (* [cheerio.load] throws on the response *)
| Loaded (doc : document).

(** The issue tracker that lines 102-105 of [run] reach (the repository
    of [github.context.repo] and the [IssueManager] built for it), by the
    answers it gives. *)
Record tracker := {
  update_answer : Z -> jsstring -> bool;   (* [false]: [octokit.issues.update] rejects *)
  listing : option (list issue)            (* [None]: [issueManager.getIssues] rejects *)
}.

(** What surrounds the worker: the action's inputs (lines 7-9), the
    date formatter of [utils.js], and the answers of the network and of
    the issue tracker.  [axios_get n url] answers the GET of [url] made
    when [n] GETs are already in the trace, so that the same URL may fail
    now and answer later.  [setup] is what lines 102-105 of [run] give:
    [None] when they throw, as the getter [github.context.repo] does
    without a repository in the context, and as the constructor of
    [IssueManager] may. *)
Record Env := {
  RETRY_TIMES : nat;
  POSTS_COUNT : Z;
  DATE_FORMAT : jsstring;
  formatDate : jsstring -> jsstring -> option jsstring;   (* [None]: it throws *)
  axios_get : nat -> json -> fetched;
  setup : option tracker                                   (* [None]: lines 102-105 throw *)
}.

(** [issueManager.octokit.issues.update] and [issueManager.getIssues],
    which exist once the setup has given the issue manager. *)
Definition issues_update (env : Env) (n : Z) (text : jsstring) : bool :=
  match setup env with
  | Some t => update_answer t n text
  | None => false
  end.

Definition getIssues (env : Env) : option (list issue) :=
  match setup env with
  | Some t => listing t
  | None => None
  end.

Definition CONCURRENCY_LIMIT : nat := 10.

Definition is_get (e : event) : bool :=
  match e with
  | HttpGet _ => true
  | _ => false
  end.

Definition gets (w : World) : nat := length (filter is_get w).

(** Lines 14-15: the GET and the load of the response. *)
Definition fetch (env : Env) (feedUrl : json) : M document :=
  fun w =>
    match axios_get env (gets w) feedUrl with
    | GetFailed => Exn NetworkError (w ++ [HttpGet feedUrl])
    | LoadFailed => Exn DocumentError (w ++ [HttpGet feedUrl])
    | Loaded doc => Val doc (w ++ [HttpGet feedUrl])
    end.

(** JavaScript's ToBoolean on a string and on a string-or-[undefined]. *)
Definition nonempty (s : jsstring) : bool :=
  match s with
  | [] => false
  | _ :: _ => true
  end.

Definition truthy_link (l : option jsstring) : bool :=
  match l with
  | Some s => nonempty s
  | None => false
  end.

(** Lines 32-40. *)
Definition item_link (isRss : bool) (el : node) : option jsstring :=
  if isRss then Some (first_text (find (js "link") el))
  else
    let l := attr (js "href") (find_with_attr (js "link") (js "rel") (js "alternate") el) in
    if truthy_link l then l else attr (js "href") (find (js "link") el).

(** Lines 42-47. *)
Definition item_date (isRss : bool) (el : node) : jsstring :=
  if isRss then first_text (find (js "pubDate") el)
  else first_text (find (js "published") el).

Definition format_published (env : Env) (publishedDateStr : jsstring) : M jsstring :=
  if nonempty publishedDateStr then
    match formatDate env publishedDateStr (DATE_FORMAT env) with
    | Some s => ret s
    | None => throw jsstring DateError
    end
  else ret [].

(** Lines 29-54: the callback of [each], threading [posts]. *)
Definition each_item (env : Env) (isRss : bool) (el : node) (posts : list post)
  : M (list post) :=
  let title := first_text (find (js "title") el) in
  let link := item_link isRss el in
  formattedPublished <- format_published env (item_date isRss el) ;;
  logger info (Extracted title link formattedPublished) ;;
  match link with
  | Some l =>
      if nonempty title && nonempty l
      then ret (posts ++ [Post title l formattedPublished])
      else ret posts
  | None => ret posts
  end.

Fixpoint each (env : Env) (isRss : bool) (items : list node) (posts : list post)
  : M (list post) :=
  match items with
  | [] => ret posts
  | el :: rest =>
      posts' <- each_item env isRss el posts ;;
      each env isRss rest posts'
  end.

Definition atom_entries (doc : document) : list node :=
  select [js "feed"; js "entry"] doc.

Definition rss_items (doc : document) : list node :=
  select [js "rss"; js "channel"; js "item"] doc.

(** Lines 16-57: the body of the [try] once the document is loaded. *)
Definition normalize (env : Env) (doc : document) : M (list post) :=
  let entries := atom_entries doc in
  let '(isRss, items) :=
    match entries with
    | [] => let its := rss_items doc in ((0 <? length its)%nat, its)
    | _ :: _ => (false, entries)
    end in
  logger info (FeedInfo (length items) isRss) ;;
  each env isRss (slice0 (POSTS_COUNT env) items) [].

(** Lines 12-62. *)
Definition parseFeed (env : Env) (feedUrl : json) : M (list post) :=
  try_catch
    (doc <- fetch env feedUrl ;;
     normalize env doc)
    (fun error =>
       handleError error (ParsingFeed feedUrl) ;;
       ret []).

Definition post_json (p : post) : json :=
  JObj [(js "title", JStr (title p)); (js "link", JStr (link p));
        (js "published", JStr (published p))].

Definition posts_json (posts : list post) : json := JArr (map post_json posts).

(** [jsonData.feed]: [None] is [undefined]; reading a property of [null]
    throws. *)
Definition get_feed (jsonData : json) : M (option json) :=
  match jsonData with
  | JObj props => ret (lookup (js "feed") props)
  | JNull => throw (option json) TypeError
  | _ => ret None
  end.

(** JavaScript's ToBoolean. *)
Definition truthy (v : option json) : bool :=
  match v with
  | None => false
  | Some JNull => false
  | Some (JBool b) => b
  | Some (JNum z) => negb (Z.eqb z 0)
  | Some (JStr s) => nonempty s
  | Some (JArr _) => true
  | Some (JObj _) => true
  end.

(** JavaScript's ToString on a value that [JSON.parse] gave, which is what
    the template literal of line 87 does with [feedUrl]: [None] when it
    throws a [TypeError].  An array is its elements joined with commas,
    [null] elements as the empty string.  An object without a [toString]
    property of its own is [[object Object]]; with one (never callable in
    a parsed value) neither [toString] nor [valueOf] gives a primitive
    and the conversion throws. *)
Fixpoint to_string (v : json) : option jsstring :=
  match v with
  | JNull => Some (js "null")
  | JBool true => Some (js "true")
  | JBool false => Some (js "false")
  | JNum z => Some (number_to_string z)
  | JStr s => Some s
  | JArr l =>
      match (fix all (l : list json) : option (list jsstring) :=
               match l with
               | [] => Some []
               | x :: r =>
                   match (match x with
                          | JNull => Some []
                          | _ => to_string x
                          end), all r with
                   | Some s, Some ss => Some (s :: ss)
                   | _, _ => None
                   end
               end) l with
      | Some parts => Some (join [44%N] parts)
      | None => None
      end
  | JObj props =>
      match lookup (js "toString") props with
      | Some _ => None
      | None => Some (js "[object Object]")
      end
  end.

(** [jsonData.posts = posts] *)
Definition set_posts (jsonData : json) (posts : list post) : json :=
  match jsonData with
  | JObj props => JObj (obj_set (js "posts") (posts_json posts) props)
  | other => other
  end.

(** Line 80.  Where the model has no value for the text (valid JSON with a
    number that is not a safe integer) it gives no answer. *)
Definition parse_directive (span : jsstring) : M json :=
  match JSON_parse span with
  | Parsed v => ret v
  | SyntaxError => throw json JsonSyntaxError
  | Unmodelled => no_answer json
  end.

Record result := Result {
  data : json;
  newBody : jsstring
}.

(** Lines 64-99. *)
Definition processIssue (env : Env) (i : issue) : M (option result) :=
  try_catch
    (logger info (Processing (number i)) ;;
     match body i with
     | None | Some [] =>
         logger warn (NoBody (number i)) ;;
         ret None
     | Some text =>
         match jsonMatch text with
         | None =>
             logger warn (NoJson (number i)) ;;
             ret None
         | Some span =>
             logger info (FoundJson (number i) span) ;;
             jsonData <- parse_directive span ;;
             logger info (GotJson (number i) jsonData) ;;
             feedUrl <- get_feed jsonData ;;
             jsonData' <-
               (if truthy feedUrl then
                  match feedUrl with
                  | Some url =>
                      match to_string url with
                      | Some _ =>
                          logger info (GettingFeed url) ;;
                          posts <- withRetry (parseFeed env url) (RETRY_TIMES env) ;;
                          ret (set_posts jsonData posts)
                      | None => throw json TypeError
                      end
                  | None => ret jsonData
                  end
                else ret jsonData) ;;
             logger info (Converted (number i) jsonData') ;;
             let newBody := replace text span (JSON_stringify jsonData') in
             ret (Some (Result jsonData' newBody))
         end
     end)
    (fun error =>
       handleError error (ProcessingIssue (number i)) ;;
       ret None).

(** Lines 118-123. *)
Definition update (env : Env) (n : Z) (text : jsstring) : M unit :=
  emit (IssueUpdate n text) ;;
  if issues_update env n text then ret tt else throw unit UpdateError.

(** Lines 114-126: the task submitted for one issue. *)
Definition task (env : Env) (i : issue) : M unit :=
  r <- processIssue env i ;;
  match r with
  | Some res =>
      update env (number i) (newBody res) ;;
      logger info (Updated (number i))
  | None => ret tt
  end.

(** A running task runs to its end and the pool is told its outcome. *)
Definition run_task (id : nat) (t : M unit) (p : pool (M unit)) : M (pool (M unit)) :=
  fun w =>
    match t w with
    | Val _ w' =>
        match complete id Fulfilled p with
        | Some p' => Val p' w'
        | None => NoAnswer
        end
    | Exn e w' =>
        match complete id (Rejected e) p with
        | Some p' => Val p' w'
        | None => NoAnswer
        end
    | NoAnswer => NoAnswer
    end.

(** [await] on the promise of task [id]: the running tasks complete,
    oldest first, until that promise is settled.  When nothing runs and
    the promise is pending it never settles. *)
Fixpoint await_add (fuel : nat) (id : nat) (p : pool (M unit))
  : M (pool (M unit) * outcome) :=
  match add_promise id p with
  | Some r => ret (p, r)
  | None =>
      match fuel with
      | O => no_answer _
      | S k =>
          match running p with
          | [] => no_answer _
          | (i, t) :: _ =>
              p' <- run_task i t p ;;
              await_add k id p'
          end
      end
  end.

(** Lines 113-127: [for (const issue of allIssues) await pool.add(...)]. *)
Fixpoint submit_all (env : Env) (issues : list issue) (p : pool (M unit)) : M unit :=
  match issues with
  | [] => ret tt
  | i :: rest =>
      let '(id, p1) := add (task env i) p in
      pr <- await_add (length (running p1) + length (queue p1)) id p1 ;;
      match snd pr with
      | Fulfilled => submit_all env rest (fst pr)
      | Rejected e => throw unit e
      end
  end.

(** Lines 101-135.  Lines 102-105 stand before the [try]: what they
    throw, [run] throws. *)
Definition run (env : Env) : M unit :=
  match setup env with
  | None => throw unit SetupError
  | Some _ =>
      try_catch
        (logger info Started ;;
         allIssues <-
           match getIssues env with
           | Some l => ret l
           | None => throw (list issue) ListingError
           end ;;
         submit_all env allIssues (new_pool (M unit) CONCURRENCY_LIMIT) ;;
         logger info Finished)
        (fun _ =>
           logger error ErrorProcessingIssues ;;
           emit (Exit 1))
  end.

End Main.

(** ** Histories of the pool and of the worker

    The definitions below are what the statements are written with: the
    events a pool goes through, a scheduler that lets running tasks
    complete, and the worker's loop written without the pool. *)

Module History.
Import Js Json Dom Fx Utils Main.

Section PoolHistory.

Variable T : Type.

Inductive pool_event :=
| Submit (t : T)
| Complete (id : nat) (r : outcome).

Definition step (p : pool T) (ev : pool_event) : option (pool T) :=
  match ev with
  | Submit t => Some (snd (add t p))
  | Complete id r => complete id r p
  end.

Fixpoint steps (p : pool T) (evs : list pool_event) : option (pool T) :=
  match evs with
  | [] => Some p
  | ev :: rest =>
      match step p ev with
      | Some p' => steps p' rest
      | None => None
      end
  end.

Definition ids (l : list (nat * T)) : list nat := map fst l.

Definition pending (p : pool T) : nat := length (running p) + length (queue p).

(** A scheduler says which running task completes next (by its place
    among the running ones) and with which outcome.  [drain] lets [n]
    tasks complete that way. *)
Fixpoint drain (sched : pool T -> nat * outcome) (n : nat) (p : pool T) : pool T :=
  match n with
  | O => p
  | S k =>
      match running p with
      | [] => p
      | first :: _ =>
          let '(ix, r) := sched p in
          match complete (fst (nth ix (running p) first)) r p with
          | Some p' => drain sched k p'
          | None => p
          end
      end
  end.

Definition is_submit (ev : pool_event) : bool :=
  match ev with
  | Submit _ => true
  | Complete _ _ => false
  end.

Definition submissions (evs : list pool_event) : nat := length (filter is_submit evs).

(** An idle pool after one more task was submitted, ran alone and
    completed with outcome [r]. *)
Definition done_pool (p : pool T) (r : outcome) : pool T :=
  {| limit := limit p; submitted := S (submitted p); queue := []; running := [];
     start_log := start_log p ++ [submitted p];
     settled := settled p ++ [(submitted p, r)] |}.

(** The bookkeeping of a pool without the outcomes of its tasks. *)
Definition schedule (p : pool T) : nat * nat * list nat * list nat * list nat :=
  (limit p, submitted p, ids (queue p), ids (running p), start_log p).

(** What the pool's history always satisfies: tasks start in submission
    order, the queue holds the submitted tasks that have not started, and
    a started task is either running or settled. *)
Record pool_struct (p : pool T) : Prop := {
  st_fifo : start_log p = seq 0 (length (start_log p));
  st_queue : ids (queue p) = seq (length (start_log p)) (length (queue p));
  st_submitted : submitted p = length (start_log p) + length (queue p);
  st_started : Permutation (ids (running p) ++ map fst (settled p)) (start_log p)
}.

Record pool_inv (p : pool T) : Prop := {
  inv_struct : pool_struct p;
  inv_bound : length (running p) <= limit p;
  inv_full : queue p <> [] -> limit p <= length (running p)
}.

End PoolHistory.

(** [counts_one calls op]: the measure [calls] of the trace goes up by
    one each time [op] is invoked, however the invocation ends. *)
Definition counts_one (A : Type) (calls : World -> nat) (op : M A) : Prop :=
  forall w,
    match op w with
    | Val _ w' => calls w' = S (calls w)
    | Exn _ w' => calls w' = S (calls w)
    | NoAnswer => True
    end.

Definition failure_logged (e : exn) (w : World) : World :=
  w ++ [Log error (AttemptFailed e)].

(** [failed_attempts op n w e w']: from [w], [n] invocations of [op] in a
    row, each one starting in the trace the one before left (with its
    failure logged), all throw; the last one throws [e] and leaves [w']. *)
Inductive failed_attempts (A : Type) (op : M A) : nat -> World -> exn -> World -> Prop :=
| failed_last w e w' :
    op w = Exn e w' ->
    failed_attempts op 1 w e (failure_logged e w')
| failed_more n w e w' e' w'' :
    op w = Exn e w' ->
    failed_attempts op (S n) (failure_logged e w') e' w'' ->
    failed_attempts op (S (S n)) w e' w''.

(** The loop of [run] without the pool: one task after the other. *)
Fixpoint process_all (env : Env) (issues : list issue) : M unit :=
  match issues with
  | [] => ret tt
  | i :: rest => task env i ;; process_all env rest
  end.

(** [jsonData.feed] as a value: [None] is [undefined]. *)
Definition feed_of (jsonData : json) : option json :=
  match jsonData with
  | JObj props => lookup (js "feed") props
  | _ => None
  end.

(** [jsonData.posts] as a value. *)
Definition posts_of (jsonData : json) : option json :=
  match jsonData with
  | JObj props => lookup (js "posts") props
  | _ => None
  end.

(** What the callback of [each] adds to [posts] for one item when the date
    formatter returns. *)
Definition date_text (env : Env) (s : jsstring) : jsstring :=
  if nonempty s then
    match formatDate env s (DATE_FORMAT env) with
    | Some r => r
    | None => []
    end
  else [].

Definition item_post (env : Env) (isRss : bool) (el : node) : list post :=
  let t := first_text (find (js "title") el) in
  match item_link isRss el with
  | Some l =>
      if nonempty t && nonempty l
      then [Post t l (date_text env (item_date isRss el))]
      else []
  | None => []
  end.

Definition kept_posts (env : Env) (isRss : bool) (items : list node) : list post :=
  flat_map (item_post env isRss) items.

Definition is_update (e : event) : bool :=
  match e with
  | IssueUpdate _ _ => true
  | _ => false
  end.

Definition updates (w : World) : list event := filter is_update w.

(** The records the model answers for: the captured span, if there is
    one, is not a valid JSON text with a number the model does not have. *)
Definition covered (i : issue) : Prop :=
  forall text span,
    body i = Some text -> jsonMatch text = Some span ->
    JSON_parse span <> Unmodelled.

(** The records the model does not answer for. *)
Definition unmodelled (i : issue) : Prop :=
  exists text span,
    body i = Some text /\ jsonMatch text = Some span
    /\ JSON_parse span = Unmodelled.


End History.

(** ** Concrete records, feeds and environments *)

Module Examples.
Import Js Json Dom Fx Utils Main History.

(** Text written with an apostrophe for each double quote and a tilde for
    each line feed. *)
Definition jsq (s : string) : jsstring :=
  map (fun c => if N.eqb c 39 then 34%N else if N.eqb c 126 then 10%N else c) (js s).

Definition mk_env (get : nat -> json -> fetched) (upd : Z -> jsstring -> bool)
           (issues : option (list issue)) : Env :=
  {| RETRY_TIMES := 3; POSTS_COUNT := 2; DATE_FORMAT := js "YYYY-MM-DD HH:mm:ss";
     formatDate := fun s _ => Some s;
     axios_get := get;
     setup := Some {| update_answer := upd; listing := issues |} |}.

Definition text_elem (nm : string) (t : string) : node := Elem (js nm) [] [Text (js t)].

Definition atom_entry (t : string) (href : string) : node :=
  Elem (js "entry") []
    [text_elem "title" t;
     Elem (js "link") [(js "rel", js "alternate"); (js "href", js href)] []].

Definition atom_doc (entries : list node) : document := [Elem (js "feed") [] entries].

(** A directive with no [feed] key. *)
Definition plain_body : jsstring := jsq "```json {'a': 'b'} ```".
Definition plain_issue (n : Z) : issue := Issue n (Some plain_body).

(** A directive naming a feed. *)
Definition feed_url : json := JStr (js "http://example.org/atom.xml").
Definition feed_body : jsstring := jsq "```json {'feed': 'http://example.org/atom.xml'} ```".
Definition feed_issue : issue := Issue 7 (Some feed_body).

(** The tracker accepts every update and no feed can be fetched. *)
Definition quiet_env : Env :=
  mk_env (fun _ _ => GetFailed) (fun _ _ => true) (Some [plain_issue 1]).

(** The tracker rejects the update of issue 1. *)
Definition rejecting_env : Env :=
  mk_env (fun _ _ => GetFailed) (fun n _ => negb (Z.eqb n 1))
    (Some [plain_issue 1; plain_issue 2]).

(** The first GET fails; every later one answers with a feed of one
    entry. *)
Definition one_entry_doc : document := atom_doc [atom_entry "Hello" "http://example.org/1"].
Definition flaky_env : Env :=
  mk_env (fun n _ => match n with O => GetFailed | S _ => Loaded one_entry_doc end)
    (fun _ _ => true) (Some [feed_issue]).

(** The directive's text occurs in the body before the fenced block. *)
Definition quoted_body : jsstring := jsq "{'a': 'b'} ```json {'a': 'b'} ```".
Definition quoted_issue : issue := Issue 3 (Some quoted_body).

(** A feed whose entry has two dollar signs in its title. *)
Definition dollar_doc : document :=
  atom_doc [atom_entry "Earn $$ fast" "http://example.org/1"].
Definition dollar_env : Env :=
  mk_env (fun _ _ => Loaded dollar_doc) (fun _ _ => true) (Some [feed_issue]).

(** An Atom feed whose only entry has a title and no link. *)
Definition linkless_doc : document :=
  atom_doc [Elem (js "entry") [] [text_elem "title" "Hello"]].

(** An Atom feed of three complete entries. *)
Definition three_entry_doc : document :=
  atom_doc [atom_entry "One" "http://example.org/1";
            atom_entry "Two" "http://example.org/2";
            atom_entry "Three" "http://example.org/3"].

(** A GET that fails twice and then answers; a GET that always fails. *)
Definition third_time_env : Env :=
  mk_env (fun n _ => match n with
                     | 0 | 1 => GetFailed
                     | _ => Loaded one_entry_doc
                     end)
    (fun _ _ => true) (Some []).

(** An Rss feed of three items; the second has no link. *)
Definition rss_item (t : string) (l : string) (d : string) : node :=
  Elem (js "item") []
    [text_elem "title" t; text_elem "link" l; text_elem "pubDate" d].

Definition rss_doc : document :=
  [Elem (js "rss") []
     [Elem (js "channel") []
        [text_elem "title" "Blog";
         rss_item "One" "http://example.org/1" "Mon, 01 Jan 2024";
         Elem (js "item") [] [text_elem "title" "Two"];
         rss_item "Three" "http://example.org/3" "Wed, 03 Jan 2024"]]].

(** A document of neither dialect. *)
Definition html_doc : document :=
  [Elem (js "html") [] [Elem (js "body") [] [text_elem "p" "Not a feed"]]].

(** An Atom feed whose second entry has a date. *)
Definition dated_doc : document :=
  atom_doc [atom_entry "One" "http://example.org/1";
            Elem (js "entry") []
              [text_elem "title" "Two";
               Elem (js "link") [(js "href", js "http://example.org/2")] [];
               text_elem "published" "not a date"]].

Definition rss_env : Env :=
  mk_env (fun _ _ => Loaded rss_doc) (fun _ _ => true) (Some [feed_issue]).

Definition html_env : Env :=
  mk_env (fun _ _ => Loaded html_doc) (fun _ _ => true) (Some [feed_issue]).

(** A date formatter that throws on every date. *)
Definition throwing_env : Env :=
  {| RETRY_TIMES := 3; POSTS_COUNT := 2; DATE_FORMAT := js "YYYY-MM-DD HH:mm:ss";
     formatDate := fun _ _ => None;
     axios_get := fun _ _ => Loaded dated_doc;
     setup := Some {| update_answer := fun _ _ => true; listing := Some [feed_issue] |} |}.

(** [posts_count] set to -1. *)
Definition negative_env : Env :=
  {| RETRY_TIMES := 3; POSTS_COUNT := -1; DATE_FORMAT := js "YYYY-MM-DD HH:mm:ss";
     formatDate := fun s _ => Some s;
     axios_get := fun _ _ => Loaded three_entry_doc;
     setup := Some {| update_answer := fun _ _ => true; listing := Some [feed_issue] |} |}.

(** A directive whose [feed] value has no string conversion. *)
Definition unprintable_body : jsstring := jsq "```json {'feed': {'toString': 1}} ```".
Definition unprintable_issue : issue := Issue 8 (Some unprintable_body).

(** No repository in the context: lines 102-105 throw. *)
Definition no_setup_env : Env :=
  {| RETRY_TIMES := 3; POSTS_COUNT := 2; DATE_FORMAT := js "YYYY-MM-DD HH:mm:ss";
     formatDate := fun s _ => Some s;
     axios_get := fun _ _ => Loaded rss_doc;
     setup := None |}.

(** An entry whose first link is not the alternate one. *)
Definition two_link_entry : node :=
  Elem (js "entry") []
    [text_elem "title" "One";
     Elem (js "link") [(js "rel", js "self"); (js "href", js "http://example.org/self")] [];
     Elem (js "link") [(js "rel", js "alternate"); (js "href", js "http://example.org/1")] []].

End Examples.

(** ** What the statements about feeds and runs are written with *)

Module Behaviour.
Import Js Json Dom Fx Utils Main History.

(** A record with a title and a link. *)
Definition complete_post (p : post) : Prop := title p <> [] /\ link p <> [].

(** [p] has the title and the link that lines 30-40 read from [el]. *)
Definition from_item (isRss : bool) (el : node) (p : post) : Prop :=
  title p = first_text (find (js "title") el)
  /\ item_link isRss el = Some (link p).

(** The date formatter throws on the date of [el] (line 49 calls it only
    on a non-empty date). *)
Definition date_throws (env : Env) (isRss : bool) (el : node) : bool :=
  nonempty (item_date isRss el)
  && match formatDate env (item_date isRss el) (DATE_FORMAT env) with
     | Some _ => false
     | None => true
     end.

(** The events [parseFeed] can add to the trace. *)
Definition feed_event (e : event) : bool :=
  match e with
  | Log info (FeedInfo _ _) => true
  | Log info (Extracted _ _ _) => true
  | HttpGet _ => true
  | Handled _ (ParsingFeed _) => true
  | _ => false
  end.

(** The events that mark the course of a run: the start of a record's
    processing, its update, and the start and the end of the run.  Every
    other event is [inner]. *)
Definition is_mark (e : event) : bool :=
  match e with
  | Log info (Processing _) => true
  | IssueUpdate _ _ => true
  | Log info (Updated _) => true
  | Log info Started => true
  | Log info Finished => true
  | Log error ErrorProcessingIssues => true
  | Exit _ => true
  | _ => false
  end.

Definition inner (e : event) : bool := negb (is_mark e).

(** The records whose processing started, and the records an update was
    sent for, in the order of the trace. *)
Definition processed (w : World) : list Z :=
  flat_map (fun e => match e with
                     | Log info (Processing n) => [n]
                     | _ => []
                     end) w.

Definition updated (w : World) : list Z :=
  flat_map (fun e => match e with
                     | IssueUpdate n _ => [n]
                     | _ => []
                     end) w.

Definition exits (w : World) : list Z :=
  flat_map (fun e => match e with
                     | Exit c => [c]
                     | _ => []
                     end) w.

(** [subseq l l']: [l] is [l'] with some elements left out. *)
Inductive subseq (A : Type) : list A -> list A -> Prop :=
| subseq_nil : subseq [] []
| subseq_skip x l l' : subseq l l' -> subseq l (x :: l')
| subseq_keep x l l' : subseq l l' -> subseq (x :: l) (x :: l').

(** Keys in the order an ECMAScript object keeps them: each key once,
    the array indices first, in ascending order. *)
Fixpoint keys_ok (ks : list jsstring) : Prop :=
  match ks with
  | [] => True
  | k :: r =>
      ~ In k r
      /\ match array_index k with
         | Some i =>
             Forall (fun k' => match array_index k' with
                               | Some j => (i <= j)%N
                               | None => True
                               end) r
         | None => Forall (fun k' => array_index k' = None) r
         end
      /\ keys_ok r
  end.

(** The values [JSON.parse] can give in the model: numbers are safe
    integers and objects hold their keys in ECMAScript's order. *)
Fixpoint json_ok (v : json) : Prop :=
  match v with
  | JNum z => (Z.abs z < 9007199254740992)%Z
  | JArr l =>
      (fix all (l : list json) : Prop :=
         match l with
         | [] => True
         | x :: r => json_ok x /\ all r
         end) l
  | JObj m =>
      keys_ok (map fst m)
      /\ (fix all (m : list (jsstring * json)) : Prop :=
            match m with
            | [] => True
            | kv :: r => json_ok (snd kv) /\ all r
            end) m
  | _ => True
  end.

(** The same two conditions, decided. *)
Fixpoint keys_okb (ks : list jsstring) : bool :=
  match ks with
  | [] => true
  | k :: r =>
      negb (existsb (eqb k) r)
      && match array_index k with
         | Some i =>
             forallb (fun k' => match array_index k' with
                                | Some j => (i <=? j)%N
                                | None => true
                                end) r
         | None =>
             forallb (fun k' => match array_index k' with
                                | Some _ => false
                                | None => true
                                end) r
         end
      && keys_okb r
  end.

Fixpoint json_okb (v : json) : bool :=
  match v with
  | JNum z => (Z.abs z <? 9007199254740992)%Z
  | JArr l =>
      (fix all (l : list json) : bool :=
         match l with
         | [] => true
         | x :: r => json_okb x && all r
         end) l
  | JObj m =>
      keys_okb (map fst m)
      && (fix all (m : list (jsstring * json)) : bool :=
            match m with
            | [] => true
            | kv :: r => json_okb (snd kv) && all r
            end) m
  | _ => true
  end.

(** What follows a serialized value: nothing, a comma or a line feed. *)
Definition ends_token (rest : jsstring) : Prop :=
  match rest with
  | [] => True
  | c :: _ => c = 44%N \/ c = 10%N
  end.

(** An indentation: spaces only. *)
Definition is_indent (ind : jsstring) : Prop :=
  forallb (fun c => N.eqb c 32) ind = true.

(** Fuel that is enough for [parse_value] to read a value back. *)
Fixpoint need (v : json) : nat :=
  match v with
  | JArr l =>
      S ((fix sum (l : list json) : nat :=
            match l with
            | [] => 0
            | x :: r => S (need x) + sum r
            end) l)
  | JObj m =>
      S ((fix sum (m : list (jsstring * json)) : nat :=
            match m with
            | [] => 0
            | kv :: r => S (need (snd kv)) + sum r
            end) m)
  | _ => 1
  end.

(** [v], serialized at any indentation and followed by the end of a
    token, is read back by [parse_value] as [v]. *)
Definition reads_back (v : json) : Prop :=
  forall (ind rest ws : jsstring) (fuel : nat),
    is_indent ind -> ends_token rest -> forallb is_json_ws ws = true ->
    need v <= fuel ->
    parse_value fuel (ws ++ serialize ind v ++ rest) = Ok (Some v) rest.

(** Lines 18-25: the dialect flag and the items of a document. *)
Definition dialect (doc : document) : bool * list node :=
  match atom_entries doc with
  | [] => let its := rss_items doc in ((0 <? length its)%nat, its)
  | _ :: _ => (false, atom_entries doc)
  end.

(** The items lines 28-55 go through. *)
Definition taken (env : Env) (doc : document) : list node :=
  slice0 (POSTS_COUNT env) (snd (dialect doc)).

End Behaviour.

(** * Properties *)

Unset Implicit Arguments.

Import Js Json Dom Fx Utils Main History Examples.

(** ** The two regular expressions *)

Lemma strip_prefix_app (p s r : jsstring) :
  strip_prefix p s = Some r -> s = p ++ r.
Proof.
  revert s. induction p as [|x p IH]; intros s; simpl.
  - intros H. now injection H as ->.
  - destruct s as [|y s]; [discriminate|].
    destruct (N.eqb_spec x y) as [->|]; [|discriminate].
    intros H. now rewrite (IH _ H).
Qed.

Lemma span_space_app (s w t : jsstring) :
  span_space s = (w, t) -> s = w ++ t /\ forallb is_space w = true.
Proof.
  revert w t. induction s as [|c s IH]; intros w t; simpl.
  - intros H. injection H as <- <-. now split.
  - destruct (is_space c) eqn:Ec.
    + destruct (span_space s) as [w' t'] eqn:Es. intros H. injection H as <- <-.
      destruct (IH _ _ eq_refl) as [-> Hw]. simpl. now rewrite Ec.
    + intros H. injection H as <- <-. now split.
Qed.

Lemma lazy_close_app (r inner w rest : jsstring) :
  lazy_close r = Some (inner, w, rest) ->
  r = inner ++ rbrace :: w ++ fence_close ++ rest.
Proof.
  revert inner w rest. induction r as [|c r IH]; intros inner w rest;
    cbn [lazy_close]; [discriminate|].
  assert (Hlater :
    match lazy_close r with
    | Some (inner0, w0, rest0) => Some (c :: inner0, w0, rest0)
    | None => None
    end = Some (inner, w, rest) ->
    c :: r = inner ++ rbrace :: w ++ fence_close ++ rest).
  { destruct (lazy_close r) as [[[i0 w0] r0]|]; [|discriminate].
    intros H. injection H as <- <- <-. simpl. f_equal. now apply IH. }
  destruct (N.eqb_spec c rbrace) as [->|Hne]; [|exact Hlater].
  destruct (span_space r) as [w' t'] eqn:Es.
  destruct (strip_prefix fence_close t') as [rest'|] eqn:Ep; [|exact Hlater].
  intros H. injection H as <- <- <-. simpl. f_equal.
  apply span_space_app in Es. destruct Es as [-> _].
  now rewrite (strip_prefix_app _ _ _ Ep).
Qed.

Lemma fence_at_app (s m rest : jsstring) :
  fence_at s = Some (m, rest) ->
  s = m ++ rest
  /\ exists w1 inner w2,
       m = fence_open ++ w1 ++ lbrace :: inner ++ rbrace :: w2 ++ fence_close
       /\ forallb is_space w1 = true.
Proof.
  unfold fence_at.
  destruct (strip_prefix fence_open s) as [r1|] eqn:E1; [|discriminate].
  destruct (span_space r1) as [w1 r2] eqn:E2.
  destruct r2 as [|c r3]; [discriminate|].
  destruct (N.eqb_spec c lbrace) as [->|]; [|discriminate].
  destruct (lazy_close r3) as [[[inner w2] rest']|] eqn:E3; [|discriminate].
  intros H. injection H as <- <-.
  apply strip_prefix_app in E1. apply span_space_app in E2. destruct E2 as [E2 Hw].
  apply lazy_close_app in E3. subst. split.
  - unfold fence_close. simpl.
    repeat (rewrite <- app_assoc || rewrite <- app_comm_cons). reflexivity.
  - now exists w1, inner, w2.
Qed.

(** The first pattern cuts the body in three: what comes before the
    match, the match, and what comes after. *)
Lemma fence_match_app (s pre m post : jsstring) :
  fence_match s = Some (pre, m, post) ->
  s = pre ++ m ++ post
  /\ exists w1 inner w2,
       m = fence_open ++ w1 ++ lbrace :: inner ++ rbrace :: w2 ++ fence_close
       /\ forallb is_space w1 = true.
Proof.
  revert pre m post. induction s as [|c s IH]; intros pre m post.
  - simpl. discriminate.
  - cbn [fence_match].
    destruct (fence_at (c :: s)) as [[m' rest']|] eqn:Ea.
    + intros H. injection H as <- <- <-.
      change ([] ++ m' ++ rest') with (m' ++ rest'). now apply fence_at_app.
    + destruct (fence_match s) as [[[pre' m'] post']|]; [|discriminate].
      intros H. injection H as <- <- <-.
      destruct (IH pre' m' post' eq_refl) as [-> Hm]. now split.
Qed.

Lemma upto_last_close_some (a b : jsstring) :
  upto_last_close (a ++ rbrace :: b) <> None.
Proof.
  induction a as [|c a IH]; simpl.
  - destruct (upto_last_close b); discriminate.
  - destruct (upto_last_close (a ++ rbrace :: b)); [discriminate|contradiction].
Qed.

Lemma brace_match_skip_space (w s : jsstring) :
  forallb is_space w = true -> brace_match (w ++ s) = brace_match s.
Proof.
  induction w as [|c w IH]; simpl; [reflexivity|].
  intros H. apply andb_prop in H. destruct H as [Hc Hw].
  destruct (N.eqb_spec c lbrace) as [->|_]; [discriminate Hc|]. now apply IH.
Qed.

(** The second pattern always matches inside a match of the first one:
    [jsonMatch] is [null] exactly when the first pattern finds nothing. *)
Lemma jsonMatch_none (text : jsstring) :
  jsonMatch text = None <-> fence_match text = None.
Proof.
  unfold jsonMatch. split.
  - destruct (fence_match text) as [[[pre m] post]|] eqn:Ef; [|reflexivity].
    destruct (fence_match_app _ _ _ _ Ef) as [_ (w1 & inner & w2 & -> & Hw)].
    change (fence_open ++ w1 ++ lbrace :: inner ++ rbrace :: w2 ++ fence_close)
      with (96 :: 96 :: 96 :: 106 :: 115 :: 111 :: 110
              :: (w1 ++ lbrace :: inner ++ rbrace :: w2 ++ fence_close))%N.
    cbn [brace_match]. change (N.eqb 96 lbrace) with false.
    change (N.eqb 106 lbrace) with false. change (N.eqb 115 lbrace) with false.
    change (N.eqb 111 lbrace) with false. change (N.eqb 110 lbrace) with false.
    cbn iota. rewrite (brace_match_skip_space _ _ Hw). cbn [brace_match].
    change (N.eqb lbrace lbrace) with true. cbn iota.
    pose proof (upto_last_close_some inner (w2 ++ fence_close)) as Hs.
    destruct (upto_last_close (inner ++ rbrace :: w2 ++ fence_close));
      [discriminate|contradiction].
  - now intros ->.
Qed.

(** [indexOf]: the pattern stands between the two parts. *)
Lemma index_split_app (pat s b a : jsstring) :
  index_split pat s = Some (b, a) -> s = b ++ pat ++ a.
Proof.
  revert b. induction s as [|c s IH]; intros b; cbn [index_split].
  - destruct (strip_prefix pat []) eqn:E; [|discriminate].
    intros H. injection H as <- <-. cbn [app]. now apply strip_prefix_app.
  - destruct (strip_prefix pat (c :: s)) eqn:E.
    + intros H. injection H as <- <-. cbn [app]. now apply strip_prefix_app.
    + destruct (index_split pat s) as [[b' a']|]; [|discriminate].
      intros H. injection H as <- <-. simpl. f_equal. now apply IH.
Qed.

(** [replace] rewrites the first occurrence of the pattern and leaves the
    text before and after that occurrence as it is. *)
Lemma replace_first_occurrence (s pat template b a : jsstring) :
  index_split pat s = Some (b, a) ->
  s = b ++ pat ++ a
  /\ replace s pat template = b ++ get_substitution pat b a template ++ a.
Proof.
  intros H. split; [now apply index_split_app|].
  unfold replace. now rewrite H.
Qed.

(** ** The pool's bookkeeping *)

Section PoolFacts.

Variable T : Type.
Implicit Types (p : pool T) (t : nat * T).

Lemma filter_other_length (id : nat) (l : list (nat * T)) :
  NoDup (ids l) -> In id (ids l) ->
  S (length (filter (fun t => negb (Nat.eqb (fst t) id)) l)) = length l.
Proof.
  induction l as [|[i x] l IH]; simpl; intros Hnd Hin; [contradiction|].
  inversion Hnd as [|? ? Hni Hnd']; subst.
  destruct (Nat.eqb_spec i id) as [->|Hne]; simpl.
  - f_equal. clear IH Hin Hnd Hnd'.
    induction l as [|[j y] l IH]; simpl in *; [reflexivity|].
    destruct (Nat.eqb_spec j id) as [->|Hj]; simpl.
    + exfalso. apply Hni. now left.
    + f_equal. apply IH. intro H. apply Hni. now right.
  - destruct Hin as [Heq|Hin]; [congruence|].
    f_equal. now apply IH.
Qed.

Lemma filter_other_perm (id : nat) (l : list (nat * T)) :
  NoDup (ids l) -> In id (ids l) ->
  Permutation (ids l)
    (id :: ids (filter (fun t => negb (Nat.eqb (fst t) id)) l)).
Proof.
  induction l as [|[i x] l IH]; simpl; intros Hnd Hin; [contradiction|].
  inversion Hnd as [|? ? Hni Hnd']; subst.
  destruct (Nat.eqb_spec i id) as [->|Hne]; simpl.
  - constructor.
    assert (Hsame : filter (fun t => negb (Nat.eqb (fst t) id)) l = l).
    { clear IH Hin Hnd Hnd'.
      induction l as [|[j y] l IH]; simpl in *; [reflexivity|].
      destruct (Nat.eqb_spec j id) as [->|Hj]; simpl.
      - exfalso. apply Hni. now left.
      - f_equal. apply IH. intro H. apply Hni. now right. }
    rewrite Hsame. apply Permutation_refl.
  - destruct Hin as [Heq|Hin]; [congruence|].
    eapply perm_trans.
    + apply perm_skip. now apply IH.
    + apply perm_swap.
Qed.

Lemma is_running_In (id : nat) p : is_running id p = true <-> In id (ids (running p)).
Proof.
  unfold is_running, ids. rewrite existsb_exists. split.
  - intros [t [Hin Heq]]. apply Nat.eqb_eq in Heq. subst. now apply in_map.
  - intros Hin. apply in_map_iff in Hin. destruct Hin as [t [Heq Hin]].
    exists t. split; [assumption|]. now apply Nat.eqb_eq.
Qed.

Lemma new_pool_inv (lim : nat) : pool_inv (new_pool T lim).
Proof.
  split; [split|..]; simpl; try reflexivity; try lia; try congruence; constructor.
Qed.

Lemma started_NoDup p : pool_struct p -> NoDup (ids (running p) ++ map fst (settled p)).
Proof.
  intros I. eapply Permutation_NoDup.
  - apply Permutation_sym, (st_started I).
  - rewrite (st_fifo I). apply seq_NoDup.
Qed.

Lemma running_NoDup p : pool_struct p -> NoDup (ids (running p)).
Proof.
  intros I. apply started_NoDup in I. now apply NoDup_app_remove_r in I.
Qed.

Lemma start_next_struct p : pool_struct p -> pool_struct (start_next p).
Proof.
  intros [Hf Hq Hs Hp]. unfold start_next.
  destruct (queue p) as [|t q] eqn:Eq; [now split; rewrite ?Eq|].
  simpl in Hq. injection Hq as Ht Hq'.
  split; simpl.
  - rewrite length_app, Nat.add_1_r, seq_S. simpl. now rewrite <- Hf, Ht.
  - rewrite length_app, Nat.add_1_r. exact Hq'.
  - rewrite length_app. simpl in *. lia.
  - unfold ids in *. rewrite map_app. simpl.
    rewrite <- app_assoc. simpl.
    eapply perm_trans; [apply Permutation_sym, Permutation_middle|].
    eapply perm_trans; [|apply Permutation_cons_append].
    now apply perm_skip.
Qed.

Lemma start_next_limit p : limit (start_next p) = limit p.
Proof. unfold start_next. now destruct (queue p). Qed.

Lemma start_ready_limit n p : limit (start_ready n p) = limit p.
Proof.
  revert p. induction n as [|n IH]; intros p; simpl; [reflexivity|].
  destruct (length (running p) <? limit p); [|reflexivity].
  destruct (queue p) eqn:Eq; [reflexivity|].
  rewrite IH. apply start_next_limit.
Qed.

Lemma start_ready_struct n p : pool_struct p -> pool_struct (start_ready n p).
Proof.
  revert p. induction n as [|n IH]; intros p I; simpl; [exact I|].
  destruct (length (running p) <? limit p); [|exact I].
  destruct (queue p) eqn:Eq; [exact I|].
  apply IH. now apply start_next_struct.
Qed.

Lemma start_ready_bound n p :
  length (running p) <= limit p ->
  length (running (start_ready n p)) <= limit p.
Proof.
  revert p. induction n as [|n IH]; intros p Hb; simpl; [exact Hb|].
  destruct (Nat.ltb_spec (length (running p)) (limit p)) as [Hlt|Hge]; [|exact Hb].
  destruct (queue p) as [|t q] eqn:Eq; [exact Hb|].
  rewrite <- (start_next_limit p). apply IH.
  rewrite start_next_limit. unfold start_next. rewrite Eq. simpl.
  rewrite length_app. simpl. lia.
Qed.

Lemma start_ready_full n p :
  length (queue p) <= n ->
  queue (start_ready n p) <> [] ->
  limit p <= length (running (start_ready n p)).
Proof.
  revert p. induction n as [|n IH]; intros p Hn; simpl.
  - destruct (queue p); [congruence|simpl in Hn; lia].
  - destruct (Nat.ltb_spec (length (running p)) (limit p)) as [Hlt|Hge].
    + destruct (queue p) as [|t q] eqn:Eq; [congruence|].
      intros Hne. rewrite <- (start_next_limit p). apply IH; [|exact Hne].
      unfold start_next. rewrite Eq. simpl. simpl in Hn. lia.
    + intros _. exact Hge.
Qed.

Lemma add_inv (t : T) p : pool_inv p -> pool_inv (snd (add t p)).
Proof.
  intros [[Hf Hq Hs Hp] Hb Hfull]. unfold add. simpl.
  set (p0 := {| limit := limit p; submitted := S (submitted p);
                queue := queue p ++ [(submitted p, t)]; running := running p;
                start_log := start_log p; settled := settled p |}).
  assert (I0 : pool_struct p0).
  { split; simpl; try assumption.
    - unfold ids in *. rewrite map_app, length_app, Nat.add_1_r, seq_S, <- Hq.
      simpl. now rewrite Hs.
    - rewrite length_app. simpl. lia. }
  split.
  - now apply start_ready_struct.
  - rewrite start_ready_limit. now apply (start_ready_bound _ p0).
  - rewrite start_ready_limit. apply (start_ready_full _ p0). reflexivity.
Qed.

Lemma complete_inv (id : nat) (r : outcome) p p' :
  pool_inv p -> complete id r p = Some p' -> pool_inv p'.
Proof.
  intros [I Hb Hfull] Hc. unfold complete in Hc.
  destruct (is_running id p) eqn:Hrun; [|discriminate].
  injection Hc as <-.
  apply is_running_In in Hrun.
  pose proof (running_NoDup _ I) as Hnd.
  pose proof (filter_other_length id (running p) Hnd Hrun) as Hlen.
  set (p1 := {| limit := limit p; submitted := submitted p; queue := queue p;
                running := filter (fun t => negb (Nat.eqb (fst t) id)) (running p);
                start_log := start_log p; settled := settled p ++ [(id, r)] |}).
  assert (I1 : pool_struct p1).
  { destruct I as [Hf Hq Hs Hp]. split; simpl; try assumption.
    rewrite map_app. simpl.
    eapply perm_trans; [|exact Hp].
    rewrite app_assoc.
    eapply perm_trans; [apply Permutation_sym, Permutation_cons_append|].
    rewrite app_comm_cons. apply Permutation_app_tail.
    apply Permutation_sym. now apply filter_other_perm. }
  split.
  - now apply start_next_struct.
  - rewrite start_next_limit. unfold start_next.
    destruct (queue p1) as [|t q] eqn:Eq; simpl.
    + lia.
    + rewrite length_app. simpl. lia.
  - rewrite start_next_limit. unfold start_next.
    destruct (queue p1) as [|t q] eqn:Eq; simpl.
    + intros H. exfalso. apply H. exact Eq.
    + intros _. rewrite length_app. simpl.
      assert (Hq : queue p <> []) by (change (queue p) with (queue p1); congruence).
      specialize (Hfull Hq). lia.
Qed.

Lemma step_inv (ev : pool_event T) p p' :
  pool_inv p -> step p ev = Some p' -> pool_inv p'.
Proof.
  destruct ev as [t|id r]; simpl; intros I H.
  - injection H as <-. now apply add_inv.
  - eapply complete_inv; eassumption.
Qed.

Lemma steps_inv (evs : list (pool_event T)) p p' :
  pool_inv p -> steps p evs = Some p' -> pool_inv p'.
Proof.
  revert p. induction evs as [|ev evs IH]; simpl; intros p I H.
  - injection H as <-. exact I.
  - destruct (step p ev) as [p1|] eqn:Hs; [|discriminate].
    eapply IH; [|exact H]. eapply step_inv; eassumption.
Qed.

Lemma settled_with_app (id : nat) (l l' : list (nat * outcome)) :
  settled_with id (l ++ l') =
  match settled_with id l with
  | Some x => Some x
  | None => settled_with id l'
  end.
Proof.
  induction l as [|[i r] l IH]; simpl; [reflexivity|].
  destruct (Nat.eqb i id); [reflexivity|exact IH].
Qed.

Lemma settled_with_None (id : nat) (l : list (nat * outcome)) :
  settled_with id l = None <-> ~ In id (map fst l).
Proof.
  induction l as [|[i r] l IH]; simpl; [tauto|].
  destruct (Nat.eqb_spec i id) as [->|Hne].
  - split; [discriminate|]. intros H. exfalso. apply H. now left.
  - rewrite IH. split; intros H; [intros [E|E]; [congruence|tauto]|tauto].
Qed.

Lemma complete_limit (id : nat) (r : outcome) p p' :
  complete id r p = Some p' -> limit p' = limit p /\ submitted p' = submitted p.
Proof.
  unfold complete. destruct (is_running id p); [|discriminate].
  intros H. injection H as <-. unfold start_next. simpl.
  destruct (queue p); simpl; auto.
Qed.

Lemma steps_limit (evs : list (pool_event T)) p p' :
  steps p evs = Some p' -> limit p' = limit p.
Proof.
  revert p. induction evs as [|ev evs IH]; simpl; intros p H.
  - now injection H as <-.
  - destruct (step p ev) as [p1|] eqn:Hs; [|discriminate].
    rewrite (IH _ H). destruct ev as [t|id r]; simpl in Hs.
    + injection Hs as <-. unfold add. simpl. now rewrite start_ready_limit.
    + now apply complete_limit in Hs.
Qed.

(** One completion starts exactly one queued task, the oldest. *)
Lemma complete_starts_one (id : nat) (r : outcome) p p' :
  complete id r p = Some p' ->
  match queue p with
  | [] => start_log p' = start_log p /\ queue p' = []
  | t :: q => start_log p' = start_log p ++ [fst t] /\ queue p' = q
  end.
Proof.
  unfold complete. destruct (is_running id p); [|discriminate].
  intros H. injection H as <-. unfold start_next. simpl.
  destruct (queue p); simpl; auto.
Qed.

Lemma start_ready_settled (n : nat) p : settled (start_ready n p) = settled p.
Proof.
  revert p. induction n as [|n IH]; intros p; simpl; [reflexivity|].
  destruct (length (running p) <? limit p); [|reflexivity].
  destruct (queue p) eqn:Eq; [reflexivity|].
  rewrite IH. unfold start_next. now rewrite Eq.
Qed.

Lemma add_settled (t : T) p : settled (snd (add t p)) = settled p.
Proof. unfold add. simpl. now rewrite start_ready_settled. Qed.

Lemma complete_settled (id : nat) (r : outcome) p p' :
  complete id r p = Some p' -> settled p' = settled p ++ [(id, r)].
Proof.
  unfold complete. destruct (is_running id p); [|discriminate].
  intros H. injection H as <-. unfold start_next. simpl.
  destruct (queue p); reflexivity.
Qed.

(** A promise is settled by the completion of its own task only. *)
Lemma settled_by_complete (evs : list (pool_event T)) p p' (id : nat) (r : outcome) :
  steps p evs = Some p' ->
  add_promise id p' = Some r ->
  add_promise id p = Some r \/ In (Complete T id r) evs.
Proof.
  revert p. induction evs as [|ev evs IH]; simpl; intros p H Hs.
  - injection H as <-. now left.
  - destruct (step p ev) as [p1|] eqn:Hst; [|discriminate].
    destruct (IH _ H Hs) as [H1|H1]; [|now right; right].
    destruct ev as [t|i o]; unfold step in Hst.
    + assert (E : p1 = snd (add t p)) by congruence. subst p1. left. unfold add_promise in *. now rewrite add_settled in H1.
    + unfold add_promise in *. rewrite (complete_settled _ _ _ _ Hst) in H1.
      rewrite settled_with_app in H1.
      destruct (settled_with id (settled p)) as [x|] eqn:E; [now left|].
      simpl in H1. destruct (Nat.eqb_spec i id) as [->|Hne]; [|discriminate].
      injection H1 as ->. right. now left.
Qed.

Lemma NoDup_app_apart (l l' : list nat) (a : nat) :
  NoDup (l ++ l') -> In a l -> ~ In a l'.
Proof.
  induction l as [|x l IH]; simpl; intros Hnd Hin Hin'; [contradiction|].
  inversion Hnd as [|? ? Hni Hnd']; subst.
  destruct Hin as [->|Hin].
  - apply Hni. apply in_or_app. now right.
  - now apply IH.
Qed.

Lemma pending_unsettled p (id : nat) :
  pool_inv p -> In id (ids (running p) ++ ids (queue p)) -> add_promise id p = None.
Proof.
  intros [I _ _] Hin. unfold add_promise. apply settled_with_None.
  intros Hs. apply in_app_or in Hin. destruct Hin as [Hr|Hq].
  - pose proof (started_NoDup _ I) as Hnd.
    now apply (NoDup_app_apart _ _ id Hnd Hr).
  - assert (Hsl : In id (start_log p)).
    { eapply Permutation_in; [apply (st_started I)|]. apply in_or_app. now right. }
    rewrite (st_fifo I) in Hsl. apply in_seq in Hsl.
    rewrite (st_queue I) in Hq. apply in_seq in Hq. lia.
Qed.

Lemma complete_settles (id : nat) (r : outcome) p p' :
  pool_inv p -> complete id r p = Some p' -> add_promise id p' = Some r.
Proof.
  intros I Hc. unfold add_promise. rewrite (complete_settled _ _ _ _ Hc).
  rewrite settled_with_app.
  assert (Hrun : In id (ids (running p))).
  { unfold complete in Hc. destruct (is_running id p) eqn:E; [|discriminate].
    now apply is_running_In. }
  pose proof (pending_unsettled p id I (in_or_app _ _ _ (or_introl Hrun))) as Hn.
  unfold add_promise in Hn. rewrite Hn. simpl. now rewrite Nat.eqb_refl.
Qed.

Lemma complete_others (id j : nat) (r : outcome) p p' :
  complete id r p = Some p' -> j <> id -> add_promise j p' = add_promise j p.
Proof.
  intros Hc Hne. unfold add_promise. rewrite (complete_settled _ _ _ _ Hc).
  rewrite settled_with_app. destruct (settled_with j (settled p)); [reflexivity|].
  simpl. destruct (Nat.eqb_spec id j); [congruence|reflexivity].
Qed.

Lemma complete_pending (id : nat) (r : outcome) p p' :
  pool_inv p -> complete id r p = Some p' -> S (pending p') = pending p.
Proof.
  intros [I Hb Hfull] Hc. unfold complete in Hc.
  destruct (is_running id p) eqn:Hrun; [|discriminate].
  injection Hc as <-. apply is_running_In in Hrun.
  pose proof (filter_other_length id (running p) (running_NoDup _ I) Hrun) as Hlen.
  unfold pending, start_next. simpl.
  destruct (queue p) as [|t q]; simpl.
  - lia.
  - rewrite length_app. simpl. lia.
Qed.

Lemma drain_all (sched : pool T -> nat * outcome) (n : nat) p :
  pool_inv p -> 1 <= limit p -> pending p <= n ->
  pool_inv (drain sched n p) /\ running (drain sched n p) = []
  /\ queue (drain sched n p) = [] /\ submitted (drain sched n p) = submitted p.
Proof.
  revert p. induction n as [|n IH]; intros p I Hl Hn; simpl.
  - unfold pending in Hn. 
    destruct (running p), (queue p); simpl in Hn; try lia. auto.
  - destruct (running p) as [|first rest] eqn:Er.
    + destruct (queue p) as [|t q] eqn:Eq; [auto|].
      pose proof (inv_full I) as Hf. rewrite Eq, Er in Hf. simpl in Hf.
      assert (limit p <= 0) by (apply Hf; discriminate). lia.
    + destruct (sched p) as [ix r].
      set (id := fst (nth ix (first :: rest) first)).
      assert (Hin : In id (ids (running p))).
      { rewrite Er. unfold ids, id. apply in_map.
        destruct (Nat.lt_ge_cases ix (length (first :: rest))) as [Hlt|Hge].
        - now apply nth_In.
        - rewrite nth_overflow by exact Hge. now left. }
      destruct (complete id r p) as [p'|] eqn:Hc.
      * pose proof (complete_inv _ _ _ _ I Hc) as I'.
        pose proof (complete_pending _ _ _ _ I Hc) as Hp.
        destruct (complete_limit _ _ _ _ Hc) as [Hlim Hsub].
        destruct (IH p' I') as (Ia & Hr & Hq & Hs); [lia|lia|].
        rewrite Hs. auto.
      * exfalso. unfold complete in Hc.
        apply is_running_In in Hin. rewrite Hin in Hc. discriminate.
Qed.

Lemma idle_all_settled p (id : nat) :
  pool_inv p -> running p = [] -> queue p = [] -> id < submitted p ->
  add_promise id p <> None.
Proof.
  intros [I _ _] Hr Hq Hlt Hn. unfold add_promise in Hn.
  apply settled_with_None in Hn. apply Hn.
  pose proof (st_started I) as Hp. rewrite Hr in Hp. simpl in Hp.
  eapply Permutation_in; [apply Permutation_sym, Hp|].
  rewrite (st_fifo I). apply in_seq.
  pose proof (st_submitted I) as Hs. rewrite Hq in Hs. simpl in Hs. lia.
Qed.

Lemma start_ready_submitted (n : nat) p : submitted (start_ready n p) = submitted p.
Proof.
  revert p. induction n as [|n IH]; intros p; simpl; [reflexivity|].
  destruct (length (running p) <? limit p); [|reflexivity].
  destruct (queue p) eqn:Eq; [reflexivity|].
  rewrite IH. unfold start_next. now rewrite Eq.
Qed.

Lemma steps_submitted (evs : list (pool_event T)) p p' :
  steps p evs = Some p' -> submitted p' = submitted p + submissions evs.
Proof.
  revert p. induction evs as [|ev evs IH]; simpl; intros p H.
  - injection H as <-. unfold submissions. simpl. lia.
  - destruct (step p ev) as [p1|] eqn:Hs; [|discriminate].
    rewrite (IH _ H). destruct ev as [t|id r]; unfold step in Hs.
    + assert (E : p1 = snd (add t p)) by congruence. subst p1.
      unfold add, submissions. simpl. rewrite start_ready_submitted. simpl. lia.
    + apply complete_limit in Hs. destruct Hs as [_ ->]. reflexivity.
Qed.

(** C6.  Whatever sequence of submissions and completions a pool of bound
    [lim] has gone through (tasks may be submitted without waiting for
    earlier ones): at most [lim] tasks are running; the tasks started so
    far are the first ones submitted, in submission order, and the queue
    holds the next ones in order; a task waits only when [lim] tasks are
    running; a completion starts exactly the oldest queued task; the
    promise of an [add] is settled only by the completion of its own task
    and is pending while that task is queued or running; and, for
    [lim >= 1], whichever running task completes next and however it
    ends, after as many completions as there are unfinished tasks every
    submitted task has completed and every [add] is settled. *)
Theorem pool_bounded_fifo_complete (lim : nat) (evs : list (pool_event T)) p :
  steps (new_pool T lim) evs = Some p ->
  length (running p) <= lim
  /\ submitted p = submissions evs
  /\ start_log p = seq 0 (length (start_log p))
  /\ ids (queue p) = seq (length (start_log p)) (length (queue p))
  /\ (queue p <> [] -> length (running p) = lim)
  /\ (forall id r p', complete id r p = Some p' ->
        match queue p with
        | [] => start_log p' = start_log p /\ queue p' = []
        | t :: q => start_log p' = start_log p ++ [fst t] /\ queue p' = q
        end)
  /\ (forall id r, add_promise id p = Some r -> In (Complete T id r) evs)
  /\ (forall id, In id (ids (running p) ++ ids (queue p)) -> add_promise id p = None)
  /\ (1 <= lim ->
      forall sched : pool T -> nat * outcome,
        running (drain sched (pending p) p) = []
        /\ queue (drain sched (pending p) p) = []
        /\ forall id, id < submissions evs ->
             add_promise id (drain sched (pending p) p) <> None).
Proof.
  intros H.
  pose proof (steps_inv _ _ _ (new_pool_inv lim) H) as I.
  pose proof (steps_limit _ _ _ H) as Hlim. simpl in Hlim.
  pose proof (steps_submitted _ _ _ H) as Hsub. simpl in Hsub.
  pose proof I as [St Hb Hf].
  repeat split.
  - lia.
  - exact Hsub.
  - exact (st_fifo St).
  - exact (st_queue St).
  - intros Hq. specialize (Hf Hq). lia.
  - intros id r p' Hc. exact (complete_starts_one _ _ _ _ Hc).
  - intros id r Hs. destruct (settled_by_complete _ _ _ _ _ H Hs) as [Hs'|Hin].
    + discriminate Hs'.
    + exact Hin.
  - intros id Hin. now apply pending_unsettled.
  - apply (drain_all sched (pending p) p I); [lia|apply Nat.le_refl].
  - apply (drain_all sched (pending p) p I); [lia|apply Nat.le_refl].
  - intros id Hlt.
    destruct (drain_all sched (pending p) p I) as (I' & Hr & Hq & Hs);
      [lia|apply Nat.le_refl|].
    apply idle_all_settled; try assumption. rewrite Hs. lia.
Qed.

End PoolFacts.

(** ** The worker's loop: with one task in flight, the pool is a loop *)

Section Sequential.

Implicit Types (p : pool (M unit)) (w : World).

Lemma add_idle (t : M unit) p :
  running p = [] -> queue p = [] -> 1 <= limit p ->
  add t p =
  (submitted p,
   {| limit := limit p; submitted := S (submitted p); queue := [];
      running := [(submitted p, t)]; start_log := start_log p ++ [submitted p];
      settled := settled p |}).
Proof.
  intros Hr Hq Hl. unfold add. rewrite Hq. simpl. rewrite Hr. simpl.
  destruct (limit p) as [|l] eqn:El; [lia|]. simpl.
  unfold start_next. simpl. reflexivity.
Qed.

Lemma done_pool_idle p (r : outcome) :
  pool_inv p -> running p = [] -> queue p = [] -> 1 <= limit p ->
  pool_inv (done_pool p r) /\ running (done_pool p r) = []
  /\ queue (done_pool p r) = [] /\ limit (done_pool p r) = limit p.
Proof.
  intros I Hr Hq Hl. split; [|repeat split; reflexivity].
  assert (Hc : complete (submitted p) r (snd (add (fun w => NoAnswer) p))
               = Some (done_pool p r)).
  { rewrite add_idle by assumption. unfold complete, is_running. simpl.
    rewrite Nat.eqb_refl. reflexivity. }
  eapply complete_inv; [|exact Hc]. now apply add_inv.
Qed.

Lemma await_add_idle (t : M unit) p w :
  pool_inv p -> running p = [] -> queue p = [] -> 1 <= limit p ->
  await_add (length (running (snd (add t p))) + length (queue (snd (add t p))))
    (fst (add t p)) (snd (add t p)) w
  = match t w with
    | Val _ w' => Val (done_pool p Fulfilled, Fulfilled) w'
    | Exn e w' => Val (done_pool p (Rejected e), Rejected e) w'
    | NoAnswer => NoAnswer
    end.
Proof.
  intros I Hr Hq Hl.
  assert (Hnone : settled_with (submitted p) (settled p) = None).
  { pose proof (pending_unsettled _ (snd (add t p)) (submitted p) (add_inv _ t p I)) as H.
    rewrite add_idle in H by assumption. unfold add_promise in H. simpl in H.
    apply H. now left. }
  rewrite add_idle by assumption. simpl.
  unfold add_promise at 1. simpl. rewrite Hnone.
  unfold bind, run_task. destruct (t w) as [[] w'|e w'|]; [| |reflexivity].
  - unfold complete, is_running. simpl. rewrite Nat.eqb_refl. simpl.
    unfold add_promise. simpl. rewrite settled_with_app, Hnone. simpl.
    rewrite Nat.eqb_refl. reflexivity.
  - unfold complete, is_running. simpl. rewrite Nat.eqb_refl. simpl.
    unfold add_promise. simpl. rewrite settled_with_app, Hnone. simpl.
    rewrite Nat.eqb_refl. reflexivity.
Qed.

(** With each [add] awaited before the next, the pool of [run] never holds
    more than one task: the loop processes the issues one after the
    other, and a task that throws ends it. *)
Lemma submit_all_sequential (env : Env) (issues : list issue) p w :
  pool_inv p -> running p = [] -> queue p = [] -> 1 <= limit p ->
  submit_all env issues p w = process_all env issues w.
Proof.
  revert p w. induction issues as [|i rest IH]; intros p w I Hr Hq Hl;
    cbn [submit_all process_all].
  - reflexivity.
  - pose proof (await_add_idle (task env i) p w I Hr Hq Hl) as Ha.
    destruct (add (task env i) p) as [id p1] eqn:Eadd. simpl in Ha.
    unfold bind. rewrite Ha.
    destruct (task env i w) as [[] w'|e w'|]; simpl; try reflexivity.
    destruct (done_pool_idle p Fulfilled I Hr Hq Hl) as (I' & Hr' & Hq' & Hl').
    apply IH; assumption.
Qed.

Lemma getIssues_setup (env : Env) (l : list issue) :
  getIssues env = Some l -> setup env <> None.
Proof. unfold getIssues. destruct (setup env); [discriminate|discriminate]. Qed.

Lemma run_sequential (env : Env) w :
  setup env <> None ->
  run env w =
  try_catch
    (logger info Started ;;
     allIssues <-
       match getIssues env with
       | Some l => ret l
       | None => throw (list issue) ListingError
       end ;;
     process_all env allIssues ;;
     logger info Finished)
    (fun _ => logger error ErrorProcessingIssues ;; emit (Exit 1)) w.
Proof.
  intros Hs. unfold run. destruct (setup env) as [t|] eqn:Es; [|contradiction].
  unfold try_catch, bind, logger, emit. simpl.
  destruct (getIssues env) as [l|]; simpl; [|reflexivity].
  rewrite submit_all_sequential.
  - reflexivity.
  - apply new_pool_inv.
  - reflexivity.
  - reflexivity.
  - unfold CONCURRENCY_LIMIT. simpl. lia.
Qed.

End Sequential.

(** ** [withRetry] *)

Section Retry.

Variable A : Type.
Variable calls : World -> nat.
Hypothesis calls_log : forall w e, calls (failure_logged e w) = calls w.

Lemma withRetry_loop_fails (op : M A) (n : nat) :
  counts_one calls op ->
  (forall w0, exists e w1, op w0 = Exn e w1) ->
  forall w, exists e w',
    failed_attempts op (S n) w e w'
    /\ withRetry_loop op n w = Exn e w'
    /\ calls w' = calls w + S n.
Proof.
  intros Hc Hfail. induction n as [|n IH]; intros w.
  - destruct (Hfail w) as (e & w1 & He). exists e, (failure_logged e w1).
    pose proof (Hc w) as Hw. rewrite He in Hw.
    repeat split.
    + now constructor.
    + simpl. now rewrite He.
    + rewrite calls_log. lia.
  - destruct (Hfail w) as (e & w1 & He).
    destruct (IH (failure_logged e w1)) as (e' & w' & Hf & Hr & Hn).
    pose proof (Hc w) as Hw. rewrite He in Hw.
    exists e', w'. repeat split.
    + econstructor; eassumption.
    + simpl. rewrite He. exact Hr.
    + rewrite Hn, calls_log. lia.
Qed.

(** C3.  [withRetry] runs its attempts one after the other, each starting
    in the state the one before left.  With an operation that counts its
    own invocations: if it throws twice and then returns [v], three
    attempts return [v] after exactly three invocations; if it always
    throws, [K >= 1] attempts end with the error of the last attempt
    after exactly [K] invocations. *)
Theorem withRetry_attempts (op : M A) :
  counts_one calls op ->
  (forall w e1 w1 e2 w2 v w3,
      op w = Exn e1 w1 ->
      op (failure_logged e1 w1) = Exn e2 w2 ->
      op (failure_logged e2 w2) = Val v w3 ->
      withRetry op 3 w = Val v w3 /\ calls w3 = calls w + 3)
  /\ (forall K w,
        1 <= K ->
        (forall w0, exists e w1, op w0 = Exn e w1) ->
        exists e w',
          failed_attempts op K w e w'
          /\ withRetry op K w = Exn e w'
          /\ calls w' = calls w + K).
Proof.
  intros Hc. split.
  - intros w e1 w1 e2 w2 v w3 H1 H2 H3. split.
    + simpl. rewrite H1. unfold bind, logger, emit. simpl.
      fold (failure_logged e1 w1). rewrite H2.
      fold (failure_logged e2 w2). now rewrite H3.
    + pose proof (Hc w) as C1. rewrite H1 in C1.
      pose proof (Hc (failure_logged e1 w1)) as C2. rewrite H2 in C2.
      pose proof (Hc (failure_logged e2 w2)) as C3. rewrite H3 in C3.
      rewrite calls_log in C2, C3. lia.
  - intros K w HK Hfail. destruct K as [|n]; [lia|].
    apply withRetry_loop_fails; assumption.
Qed.

End Retry.

(** ** [parseFeed] *)

Lemma gets_app (w w' : World) : gets (w ++ w') = gets w + gets w'.
Proof. unfold gets. now rewrite filter_app, length_app. Qed.

Lemma gets_log (w : World) (e : exn) : gets (failure_logged e w) = gets w.
Proof.
  unfold failure_logged. rewrite gets_app.
  change (gets [Log error (AttemptFailed e)]) with 0. lia.
Qed.

Lemma fetch_counts (env : Env) (url : json) : counts_one gets (fetch env url).
Proof.
  intros w. unfold fetch.
  destruct (axios_get env (gets w) url); rewrite gets_app;
    change (gets [HttpGet url]) with 1; lia.
Qed.

Lemma each_item_answers (env : Env) (isRss : bool) (el : node) (posts : list post)
      (w : World) :
  each_item env isRss el posts w <> NoAnswer.
Proof.
  unfold each_item, bind, format_published, logger, emit, ret, throw.
  destruct (nonempty (item_date isRss el)); [destruct (formatDate env _ _)|];
    try discriminate;
    (destruct (item_link isRss el) as [l|];
     [destruct (nonempty _ && nonempty l)|]; discriminate).
Qed.

Lemma each_answers (env : Env) (isRss : bool) (items : list node) :
  forall (posts : list post) (w : World), each env isRss items posts w <> NoAnswer.
Proof.
  induction items as [|el rest IH]; intros posts w; simpl; [discriminate|].
  unfold bind. pose proof (each_item_answers env isRss el posts w) as H.
  destruct (each_item env isRss el posts w) as [posts' w'|e w'|];
    [apply IH|discriminate|contradiction].
Qed.

Lemma normalize_answers (env : Env) (doc : document) (w : World) :
  normalize env doc w <> NoAnswer.
Proof.
  unfold normalize.
  destruct (atom_entries doc); unfold bind, logger, emit; apply each_answers.
Qed.

Lemma parseFeed_answers (env : Env) (url : json) (w : World) :
  (exists posts w', parseFeed env url w = Val posts w')
  /\ match axios_get env (gets w) url with
     | GetFailed =>
         parseFeed env url w
         = Val [] (w ++ [HttpGet url; Handled NetworkError (ParsingFeed url)])
     | LoadFailed =>
         parseFeed env url w
         = Val [] (w ++ [HttpGet url; Handled DocumentError (ParsingFeed url)])
     | Loaded doc =>
         match normalize env doc (w ++ [HttpGet url]) with
         | Val posts w' => parseFeed env url w = Val posts w'
         | Exn e w' =>
             parseFeed env url w = Val [] (w' ++ [Handled e (ParsingFeed url)])
         | NoAnswer => False
         end
     end
  /\ forall n, withRetry (parseFeed env url) (S n) w = parseFeed env url w.
Proof.
  assert (Hcases :
    match axios_get env (gets w) url with
    | GetFailed =>
        parseFeed env url w
        = Val [] (w ++ [HttpGet url; Handled NetworkError (ParsingFeed url)])
    | LoadFailed =>
        parseFeed env url w
        = Val [] (w ++ [HttpGet url; Handled DocumentError (ParsingFeed url)])
    | Loaded doc =>
        match normalize env doc (w ++ [HttpGet url]) with
        | Val posts w' => parseFeed env url w = Val posts w'
        | Exn e w' =>
            parseFeed env url w = Val [] (w' ++ [Handled e (ParsingFeed url)])
        | NoAnswer => False
        end
    end).
  { unfold parseFeed, try_catch, bind, fetch, handleError, emit, ret.
    destruct (axios_get env (gets w) url) as [| |doc].
    - now rewrite <- app_assoc.
    - now rewrite <- app_assoc.
    - pose proof (normalize_answers env doc (w ++ [HttpGet url])) as Hn.
      destruct (normalize env doc (w ++ [HttpGet url])); [reflexivity|reflexivity|].
      now apply Hn. }
  assert (Hval : exists posts w', parseFeed env url w = Val posts w').
  { destruct (axios_get env (gets w) url) as [| |doc]; eauto.
    destruct (normalize env doc (w ++ [HttpGet url])); eauto. contradiction. }
  split; [exact Hval|]. split; [exact Hcases|].
  intros n. destruct Hval as (posts & w' & Hp).
  unfold withRetry. destruct n; simpl; now rewrite Hp.
Qed.

(** C10.  [parseFeed] always returns: whatever the GET, the load of the
    response and the extraction do, a failure is caught, reported through
    [handleError], and gives the empty list.  So the operation [withRetry]
    wraps at the call site succeeds at its first attempt, and [withRetry]
    is [parseFeed] run once. *)
Theorem parseFeed_total (env : Env) (url : json) (w : World) :
  (exists posts w', parseFeed env url w = Val posts w')
  /\ match axios_get env (gets w) url with
     | GetFailed =>
         parseFeed env url w
         = Val [] (w ++ [HttpGet url; Handled NetworkError (ParsingFeed url)])
     | LoadFailed =>
         parseFeed env url w
         = Val [] (w ++ [HttpGet url; Handled DocumentError (ParsingFeed url)])
     | Loaded doc =>
         match normalize env doc (w ++ [HttpGet url]) with
         | Val posts w' => parseFeed env url w = Val posts w'
         | Exn e w' =>
             parseFeed env url w = Val [] (w' ++ [Handled e (ParsingFeed url)])
         | NoAnswer => False
         end
     end
  /\ forall n, withRetry (parseFeed env url) (S n) w = parseFeed env url w.
Proof. exact (parseFeed_answers env url w). Qed.

(** ** [processIssue] *)

Lemma updates_app (w w' : World) : updates (w ++ w') = updates w ++ updates w'.
Proof. unfold updates. apply filter_app. Qed.

Lemma brace_match_head (s span : jsstring) :
  brace_match s = Some span -> exists r, span = lbrace :: r.
Proof.
  induction s as [|c s IH]; simpl; [discriminate|].
  destruct (N.eqb_spec c lbrace) as [->|Hne].
  - destruct (upto_last_close s) as [r|]; [|discriminate].
    intros H. injection H as <-. now exists r.
  - exact IH.
Qed.

Lemma jsonMatch_head (text span : jsstring) :
  jsonMatch text = Some span -> exists r, span = lbrace :: r.
Proof.
  unfold jsonMatch. destruct (fence_match text) as [[[pre m] post]|]; [|discriminate].
  apply brace_match_head.
Qed.

(** A text that starts with an opening brace parses to an object or not
    at all. *)
Lemma JSON_parse_object (r : jsstring) (v : json) :
  JSON_parse (lbrace :: r) = Parsed v -> exists props, v = JObj props.
Proof.
  unfold JSON_parse.
  replace (2 * length (lbrace :: r) + 2) with (S (2 * length r + 3)) by (simpl; lia).
  cbn [parse_value skip_ws is_json_ws]. change (is_json_ws lbrace) with false.
  cbn iota. change (N.eqb lbrace 34) with false. change (N.eqb lbrace 123) with true.
  cbn iota.
  destruct (skip_ws r) as [|c1 r1]; [discriminate|].
  destruct (N.eqb c1 125).
  - destruct (skip_ws r1); [|discriminate]. intros H. injection H as <-. now exists [].
  - destruct (parse_members _ _ _) as [[m|] rest| |]; try discriminate;
      cbn [option_map]; (destruct (skip_ws rest); [|discriminate]);
      [|discriminate].
    intros H. injection H as <-. now exists m.
Qed.

Lemma jsonMatch_nil : jsonMatch [] = None.
Proof. reflexivity. Qed.

(** ** The fuel of the parser *)

Lemma skip_ws_length (s : jsstring) : length (skip_ws s) <= length s.
Proof.
  induction s as [|c s IH]; [apply Nat.le_refl|].
  cbn [skip_ws]. destruct (is_json_ws c); cbn [length]; lia.
Qed.

Lemma skip_ws_cons (s : jsstring) (c : N) (r : jsstring) :
  skip_ws s = c :: r -> length r < length s.
Proof.
  intros H. pose proof (skip_ws_length s) as Hl. rewrite H in Hl.
  cbn [length] in Hl. lia.
Qed.

Lemma parse_chars_shorter (n : nat) :
  forall s, length s <= n ->
    match parse_chars s with
    | Ok _ rest => length rest < length s
    | Bad => True
    | Unknown => False
    end.
Proof.
  induction n as [|n IH]; intros s Hs.
  - destruct s; [exact I|cbn [length] in Hs; lia].
  - destruct s as [|c r]; [exact I|]. cbn [length] in Hs. cbn [parse_chars].
    destruct (N.eqb c 34); [cbn [length]; lia|].
    destruct (N.eqb c 92).
    + destruct r as [|e r1]; [exact I|]. cbn [length] in Hs.
      destruct (N.eqb e 117).
      * destruct r1 as [|h1 [|h2 [|h3 [|h4 r2]]]]; try exact I.
        destruct (hex4 h1 h2 h3 h4); [|exact I].
        cbn [length] in Hs. specialize (IH r2 ltac:(lia)).
        destruct (parse_chars r2); try exact IH. cbn [length]. lia.
      * destruct (unescape e); [|exact I].
        specialize (IH r1 ltac:(lia)).
        destruct (parse_chars r1); try exact IH. cbn [length]. lia.
    + destruct (c <? 32)%N; [exact I|].
      specialize (IH r ltac:(lia)).
      destruct (parse_chars r); try exact IH. cbn [length]. lia.
Qed.

Lemma span_digits_length (s : jsstring) :
  length s = length (fst (span_digits s)) + length (snd (span_digits s)).
Proof.
  induction s as [|c s IH]; [reflexivity|]. cbn [span_digits].
  destruct (is_digit c); [|reflexivity].
  destruct (span_digits s) as [ds t]. cbn [fst snd length] in *. lia.
Qed.

Lemma parse_fraction_length (s fs rest : jsstring) :
  parse_fraction s = Some (fs, rest) -> length rest <= length s.
Proof.
  unfold parse_fraction. destruct s as [|c r].
  - intros H. injection H as _ <-. apply Nat.le_refl.
  - destruct (N.eqb c 46).
    + pose proof (span_digits_length r) as Hl.
      destruct (span_digits r) as [[|f fs'] t]; [discriminate|].
      intros H. injection H as _ <-. cbn [fst snd length] in *. lia.
    + intros H. injection H as _ <-. apply Nat.le_refl.
Qed.

Lemma parse_exponent_length (s : jsstring) (e : Z) (rest : jsstring) :
  parse_exponent s = Some (e, rest) -> length rest <= length s.
Proof.
  unfold parse_exponent. destruct s as [|c r].
  - intros H. injection H as _ <-. apply Nat.le_refl.
  - destruct (N.eqb c 101 || N.eqb c 69).
    + destruct r as [|g r''].
      * cbn [span_digits]. discriminate.
      * destruct (N.eqb g 43); [|destruct (N.eqb g 45)];
          match goal with
          | |- match span_digits ?x with _ => _ end = _ -> _ =>
              pose proof (span_digits_length x) as E;
              destruct (span_digits x) as [[|d ds] t]; [discriminate|];
              intros H; injection H as _ <-; cbn [fst snd length] in *; lia
          end.
    + intros H. injection H as _ <-. apply Nat.le_refl.
Qed.

Lemma parse_number_shorter (neg : bool) (s : jsstring) :
  match parse_number neg s with
  | Ok _ rest => length rest < length s
  | Bad => True
  | Unknown => False
  end.
Proof.
  unfold parse_number. pose proof (span_digits_length s) as E.
  destruct (span_digits s) as [[|d ds] t]; [exact I|].
  destruct (N.eqb d 48 && match ds with [] => false | _ => true end); [exact I|].
  destruct (parse_fraction t) as [[fs t1]|] eqn:Ef; [|exact I].
  destruct (parse_exponent t1) as [[e t2]|] eqn:Ee; [|exact I].
  apply parse_fraction_length in Ef. apply parse_exponent_length in Ee.
  cbn [fst snd length] in E. lia.
Qed.

Lemma strip_prefix_length (p s rest : jsstring) :
  strip_prefix p s = Some rest -> length s = length p + length rest.
Proof.
  revert s. induction p as [|a p IH]; intros s; cbn [strip_prefix].
  - intros H. now injection H as <-.
  - destruct s as [|b s]; [discriminate|].
    destruct (N.eqb a b); [|discriminate].
    intros H. apply IH in H. cbn [length]. lia.
Qed.

Lemma parse_literal_shorter (word : jsstring) (v : json) (s : jsstring) :
  word <> [] ->
  match parse_literal word v s with
  | Ok _ rest => length rest < length s
  | Bad => True
  | Unknown => False
  end.
Proof.
  intros Hw. unfold parse_literal.
  destruct (strip_prefix word s) as [rest|] eqn:E; [|exact I].
  apply strip_prefix_length in E. destruct word; [contradiction|].
  cbn [length] in E. lia.
Qed.

(** A result leaves less text than it was given; and with fuel for twice
    the length of the text the parser does not run out of it. *)
Lemma parse_fuel (f : nat) :
  (forall s,
      match parse_value f s with
      | Ok _ rest => length rest < length s
      | Bad => True
      | Unknown => f < 2 * length s + 1
      end)
  /\ (forall s,
         match parse_elements f s with
         | Ok _ rest => length rest < length s
         | Bad => True
         | Unknown => f < 2 * length s + 2
         end)
  /\ (forall acc s,
         match parse_members f acc s with
         | Ok _ rest => length rest < length s
         | Bad => True
         | Unknown => f < 2 * length s + 2
         end).
Proof.
  induction f as [|f (IHv & IHe & IHm)].
  { repeat split; intros; cbn; lia. }
  split; [|split].
  - intros s. cbn [parse_value].
    destruct (skip_ws s) as [|c r] eqn:Es; [exact I|].
    apply skip_ws_cons in Es.
    destruct (N.eqb c 34).
    { pose proof (parse_chars_shorter (length r) r (Nat.le_refl _)) as H.
      destruct (parse_chars r); [lia|exact I|contradiction]. }
    destruct (N.eqb c 123).
    { destruct (skip_ws r) as [|c1 r1] eqn:E1; [exact I|].
      pose proof (skip_ws_length r) as Hl. rewrite E1 in Hl.
      destruct (N.eqb c1 125); [cbn [length] in Hl; lia|].
      specialize (IHm (Some []) (c1 :: r1)).
      destruct (parse_members f (Some []) (c1 :: r1)); [lia|exact I|lia]. }
    destruct (N.eqb c 91).
    { destruct (skip_ws r) as [|c1 r1] eqn:E1; [exact I|].
      pose proof (skip_ws_length r) as Hl. rewrite E1 in Hl.
      destruct (N.eqb c1 93); [cbn [length] in Hl; lia|].
      specialize (IHe (c1 :: r1)).
      destruct (parse_elements f (c1 :: r1)); [lia|exact I|lia]. }
    assert (Hlit : forall word v,
               word <> [] ->
               match parse_literal word v (c :: r) with
               | Ok _ rest => length rest < length s
               | Bad => True
               | Unknown => S f < 2 * length s + 1
               end).
    { intros word v Hw. pose proof (parse_literal_shorter word v (c :: r) Hw) as H.
      destruct (parse_literal word v (c :: r)); [cbn [length] in H; lia|exact I|contradiction]. }
    destruct (N.eqb c 116); [apply Hlit; discriminate|].
    destruct (N.eqb c 102); [apply Hlit; discriminate|].
    destruct (N.eqb c 110); [apply Hlit; discriminate|].
    destruct (N.eqb c 45).
    + pose proof (parse_number_shorter true r) as H.
      destruct (parse_number true r); [lia|exact I|contradiction].
    + pose proof (parse_number_shorter false (c :: r)) as H.
      destruct (parse_number false (c :: r)); [cbn [length] in H; lia|exact I|contradiction].
  - intros s. cbn [parse_elements].
    specialize (IHv s).
    destruct (parse_value f s) as [v t| |]; [|exact I|lia].
    destruct (skip_ws t) as [|c r] eqn:Et; [exact I|].
    apply skip_ws_cons in Et.
    destruct (N.eqb c 44).
    + specialize (IHe r).
      destruct (parse_elements f r); [lia|exact I|lia].
    + destruct (N.eqb c 93); [lia|exact I].
  - intros acc s. cbn [parse_members].
    destruct (skip_ws s) as [|q r] eqn:Es; [exact I|].
    apply skip_ws_cons in Es.
    destruct (N.eqb q 34); [|exact I].
    pose proof (parse_chars_shorter (length r) r (Nat.le_refl _)) as Hc.
    destruct (parse_chars r) as [k t| |]; [|exact I|contradiction].
    destruct (skip_ws t) as [|c r1] eqn:Et; [exact I|].
    apply skip_ws_cons in Et.
    destruct (N.eqb c 58); [|exact I].
    specialize (IHv r1).
    destruct (parse_value f r1) as [v t1| |]; [|exact I|lia].
    destruct (skip_ws t1) as [|c2 r2] eqn:Et1; [exact I|].
    apply skip_ws_cons in Et1.
    destruct (N.eqb c2 44).
    + specialize (IHm (set_value k v acc) r2).
      destruct (parse_members f (set_value k v acc) r2); [lia|exact I|lia].
    + destruct (N.eqb c2 125); [lia|exact I].
Qed.

(** [JSON_parse] decides the grammar of every text: it answers
    [SyntaxError] exactly for the texts that are not valid JSON, and
    [Unmodelled] only for a valid text in which a number is not one of
    the model. *)
Lemma JSON_parse_syntax (text : jsstring) :
  JSON_parse text = SyntaxError <-> ~ valid_json text.
Proof.
  unfold JSON_parse, valid_json.
  pose proof (proj1 (parse_fuel (2 * length text + 2)) text) as H.
  destruct (parse_value (2 * length text + 2) text) as [v rest| |]; [| |lia].
  - destruct (skip_ws rest) as [|c r] eqn:E.
    + split.
      * destruct v; discriminate.
      * intros Hn. exfalso. apply Hn. now exists v, rest.
    + split; [|reflexivity].
      intros _ (v' & rest' & Hp & Hs). injection Hp as <- <-. congruence.
  - split; [|reflexivity]. intros _ (v' & rest' & Hp & _). discriminate.
Qed.

Lemma JSON_parse_unmodelled (text : jsstring) :
  JSON_parse text = Unmodelled ->
  exists rest,
    parse_value (2 * length text + 2) text = Ok None rest /\ skip_ws rest = [].
Proof.
  unfold JSON_parse.
  pose proof (proj1 (parse_fuel (2 * length text + 2)) text) as H.
  destruct (parse_value (2 * length text + 2) text) as [[v|] rest| |];
    try discriminate; [| |lia];
    (destruct (skip_ws rest) eqn:E; [|discriminate]); [discriminate|].
  intros _. now exists rest.
Qed.

Section ProcessIssue.
Variable env : Env.
Implicit Types (w : World) (text span : jsstring) (n : Z).

Ltac run_issue :=
  cbv [processIssue try_catch bind logger handleError emit ret throw no_answer
       parse_directive get_feed body number].

Lemma processIssue_no_body n w :
  processIssue env (Issue n None) w
  = Val None (w ++ [Log info (Processing n); Log warn (NoBody n)])
  /\ processIssue env (Issue n (Some [])) w
     = Val None (w ++ [Log info (Processing n); Log warn (NoBody n)]).
Proof. split; run_issue; now rewrite <- app_assoc. Qed.

Lemma processIssue_no_match n text w :
  text <> [] -> jsonMatch text = None ->
  processIssue env (Issue n (Some text)) w
  = Val None (w ++ [Log info (Processing n); Log warn (NoJson n)]).
Proof.
  intros Hne Hm. run_issue. destruct text as [|c r]; [contradiction|].
  rewrite Hm. now rewrite <- app_assoc.
Qed.

Lemma processIssue_syntax_error n text span w :
  jsonMatch text = Some span -> JSON_parse span = SyntaxError ->
  processIssue env (Issue n (Some text)) w
  = Val None (w ++ [Log info (Processing n); Log info (FoundJson n span);
                    Handled JsonSyntaxError (ProcessingIssue n)]).
Proof.
  intros Hm Hp. run_issue. destruct text as [|c r]; [discriminate Hm|].
  rewrite Hm, Hp. run_issue. now rewrite <- !app_assoc.
Qed.

Lemma processIssue_unmodelled n text span w :
  jsonMatch text = Some span -> JSON_parse span = Unmodelled ->
  processIssue env (Issue n (Some text)) w = NoAnswer.
Proof.
  intros Hm Hp. run_issue. destruct text as [|c r]; [discriminate Hm|].
  rewrite Hm, Hp. now run_issue.
Qed.

Lemma processIssue_no_feed n text span v w :
  jsonMatch text = Some span -> JSON_parse span = Parsed v ->
  truthy (feed_of v) = false ->
  processIssue env (Issue n (Some text)) w
  = Val (Some (Result v (replace text span (JSON_stringify v))))
        (w ++ [Log info (Processing n); Log info (FoundJson n span);
               Log info (GotJson n v); Log info (Converted n v)]).
Proof.
  intros Hm Hp Hf.
  destruct (jsonMatch_head _ _ Hm) as [r ->].
  destruct (JSON_parse_object _ _ Hp) as [props ->].
  run_issue. destruct text as [|c t]; [discriminate Hm|].
  rewrite Hm, Hp. run_issue. unfold feed_of in Hf. rewrite Hf. now rewrite <- !app_assoc.
Qed.

Lemma processIssue_no_string n text span v url w :
  jsonMatch text = Some span -> JSON_parse span = Parsed v ->
  feed_of v = Some url -> truthy (Some url) = true ->
  to_string url = None ->
  processIssue env (Issue n (Some text)) w
  = Val None
      (w ++ [Log info (Processing n); Log info (FoundJson n span);
             Log info (GotJson n v);
             Handled TypeError (ProcessingIssue n)]).
Proof.
  intros Hm Hp Hf Ht Hs.
  destruct (jsonMatch_head _ _ Hm) as [r ->].
  destruct (JSON_parse_object _ _ Hp) as [props ->].
  run_issue. destruct text as [|c t]; [discriminate Hm|].
  rewrite Hm, Hp. run_issue. unfold feed_of in Hf. rewrite Hf, Ht, Hs.
  now rewrite <- !app_assoc.
Qed.

Lemma processIssue_feed n text span v url posts w w2 :
  jsonMatch text = Some span -> JSON_parse span = Parsed v ->
  feed_of v = Some url -> truthy (Some url) = true ->
  to_string url <> None ->
  1 <= RETRY_TIMES env ->
  parseFeed env url
    (w ++ [Log info (Processing n); Log info (FoundJson n span);
           Log info (GotJson n v); Log info (GettingFeed url)])
  = Val posts w2 ->
  processIssue env (Issue n (Some text)) w
  = Val (Some (Result (set_posts v posts)
                 (replace text span (JSON_stringify (set_posts v posts)))))
        (w2 ++ [Log info (Converted n (set_posts v posts))]).
Proof.
  intros Hm Hp Hf Ht Hs Hr Hpf.
  destruct (jsonMatch_head _ _ Hm) as [r ->].
  destruct (JSON_parse_object _ _ Hp) as [props ->].
  destruct (RETRY_TIMES env) as [|k] eqn:Ek; [lia|].
  destruct (to_string url) as [s|] eqn:Es; [clear Hs|contradiction].
  run_issue. destruct text as [|c t]; [discriminate Hm|].
  rewrite Hm, Hp. run_issue. unfold feed_of in Hf. rewrite Hf, Ht, Es, Ek.
  destruct (parseFeed_answers env url
              (((((w ++ [Log info (Processing n)]) ++ [Log info (FoundJson n (lbrace :: r))])
                  ++ [Log info (GotJson n (JObj props))]) ++ [Log info (GettingFeed url)])))
    as (_ & _ & Hw).
  rewrite Hw. rewrite <- !app_assoc. simpl. rewrite Hpf. reflexivity.
Qed.

Lemma each_item_gets (isRss : bool) (el : node) (posts : list post) w :
  match each_item env isRss el posts w with
  | Val _ w' => gets w' = gets w
  | Exn _ w' => gets w' = gets w
  | NoAnswer => True
  end.
Proof.
  unfold each_item, bind, format_published, logger, emit, ret, throw.
  destruct (nonempty (item_date isRss el)); [destruct (formatDate env _ _)|];
    try reflexivity;
    (destruct (item_link isRss el) as [l|];
     [destruct (nonempty _ && nonempty l)|];
     rewrite gets_app; unfold gets; simpl; lia).
Qed.

Lemma each_gets (isRss : bool) (items : list node) :
  forall (posts : list post) w,
    match each env isRss items posts w with
    | Val _ w' => gets w' = gets w
    | Exn _ w' => gets w' = gets w
    | NoAnswer => True
    end.
Proof.
  induction items as [|el rest IH]; intros posts w; simpl; [reflexivity|].
  unfold bind. pose proof (each_item_gets isRss el posts w) as H.
  destruct (each_item env isRss el posts w) as [posts' w'|e w'|]; auto.
  specialize (IH posts' w'). destruct (each env isRss rest posts' w'); auto; lia.
Qed.

Lemma normalize_gets (doc : document) w :
  match normalize env doc w with
  | Val _ w' => gets w' = gets w
  | Exn _ w' => gets w' = gets w
  | NoAnswer => True
  end.
Proof.
  unfold normalize.
  destruct (atom_entries doc); unfold bind, logger, emit;
    match goal with
    | |- context [each env ?b ?its ?ps ?w0] =>
        pose proof (each_gets b its ps w0) as H;
        destruct (each env b its ps w0); auto;
        rewrite H, gets_app; unfold gets; simpl; lia
    end.
Qed.

(** Each call of [parseFeed] makes exactly one GET. *)
Lemma parseFeed_one_get (url : json) (posts : list post) w w' :
  parseFeed env url w = Val posts w' -> gets w' = S (gets w).
Proof.
  destruct (parseFeed_answers env url w) as (_ & Hc & _).
  destruct (axios_get env (gets w) url) as [| |doc].
  - rewrite Hc. intros H. injection H as _ <-. rewrite gets_app. unfold gets. simpl. lia.
  - rewrite Hc. intros H. injection H as _ <-. rewrite gets_app. unfold gets. simpl. lia.
  - pose proof (normalize_gets doc (w ++ [HttpGet url])) as Hg.
    destruct (normalize env doc (w ++ [HttpGet url])) as [ps w1|e w1|]; [| |contradiction].
    + rewrite Hc. intros H. injection H as _ <-. rewrite Hg, gets_app. unfold gets. simpl. lia.
    + rewrite Hc. intros H. injection H as _ <-.
      rewrite gets_app, Hg, gets_app. unfold gets. simpl. lia.
Qed.

Lemma task_skip (i : issue) w w' :
  processIssue env i w = Val None w' -> task env i w = Val tt w'.
Proof. intros H. unfold task, bind. now rewrite H. Qed.


Lemma submit_all_skip (i : issue) (rest : list issue) w w' :
  task env i w = Val tt w' ->
  submit_all env (i :: rest) (new_pool (M unit) CONCURRENCY_LIMIT) w
  = submit_all env rest (new_pool (M unit) CONCURRENCY_LIMIT) w'.
Proof.
  intros H.
  rewrite !submit_all_sequential;
    try apply new_pool_inv; try reflexivity; try (unfold CONCURRENCY_LIMIT; simpl; lia).
  simpl. unfold bind. now rewrite H.
Qed.

(** C8.  A body with no fenced JSON block, and a body whose captured span
    is not valid JSON, both make [processIssue] return [null]: the task
    makes no update; the first case is logged as a warning, the parse
    failure is reported through [handleError]; and the loop of [run] goes
    on with the remaining records. *)
Theorem skipped_records (n : Z) (text : jsstring) (rest : list issue) w :
  (jsonMatch text = None ->
   exists w',
     processIssue env (Issue n (Some text)) w = Val None w'
     /\ task env (Issue n (Some text)) w = Val tt w'
     /\ updates w' = updates w
     /\ (In (Log warn (NoBody n)) w' \/ In (Log warn (NoJson n)) w')
     /\ submit_all env (Issue n (Some text) :: rest)
          (new_pool (M unit) CONCURRENCY_LIMIT) w
        = submit_all env rest (new_pool (M unit) CONCURRENCY_LIMIT) w')
  /\ (forall span,
        jsonMatch text = Some span -> ~ valid_json span ->
        exists w',
          processIssue env (Issue n (Some text)) w = Val None w'
          /\ task env (Issue n (Some text)) w = Val tt w'
          /\ updates w' = updates w
          /\ In (Handled JsonSyntaxError (ProcessingIssue n)) w'
          /\ submit_all env (Issue n (Some text) :: rest)
               (new_pool (M unit) CONCURRENCY_LIMIT) w
             = submit_all env rest (new_pool (M unit) CONCURRENCY_LIMIT) w').
Proof.
  split.
  - intros Hm.
    assert (H : exists w',
               processIssue env (Issue n (Some text)) w = Val None w'
               /\ updates w' = updates w
               /\ (In (Log warn (NoBody n)) w' \/ In (Log warn (NoJson n)) w')).
    { destruct text as [|c r].
      - eexists. split; [apply processIssue_no_body|]. split.
        + rewrite updates_app. simpl. apply app_nil_r.
        + left. apply in_or_app. right. simpl. auto.
      - eexists. split; [apply processIssue_no_match; [discriminate|exact Hm]|]. split.
        + rewrite updates_app. simpl. apply app_nil_r.
        + right. apply in_or_app. right. simpl. auto. }
    destruct H as (w' & Hp & Hu & Hl). exists w'.
    pose proof (task_skip _ _ _ Hp) as Ht.
    repeat split; try assumption. now apply submit_all_skip.
  - intros span Hm Hs. apply JSON_parse_syntax in Hs.
    pose proof (processIssue_syntax_error n text span w Hm Hs) as Hp.
    pose proof (task_skip _ _ _ Hp) as Ht.
    eexists. split; [exact Hp|]. split; [exact Ht|]. split; [|split].
    + rewrite updates_app. simpl. apply app_nil_r.
    + apply in_or_app. right. simpl. auto.
    + now apply submit_all_skip.
Qed.


End ProcessIssue.

(** ** [normalize]: what a feed document yields *)

Section Normalize.

Variable env : Env.
Hypothesis formatDate_returns : forall s, formatDate env s (DATE_FORMAT env) <> None.

Lemma each_item_kept (isRss : bool) (el : node) (posts : list post) (w : World) :
  exists w', each_item env isRss el posts w = Val (posts ++ item_post env isRss el) w'.
Proof.
  unfold each_item, item_post, date_text, format_published, bind, logger, emit, ret, throw.
  destruct (nonempty (item_date isRss el)).
  - pose proof (formatDate_returns (item_date isRss el)) as Hf.
    destruct (formatDate env (item_date isRss el) (DATE_FORMAT env)) as [d|];
      [|contradiction].
    destruct (item_link isRss el) as [l|];
      [destruct (nonempty _ && nonempty l)|]; rewrite ?app_nil_r; eauto.
  - destruct (item_link isRss el) as [l|];
      [destruct (nonempty _ && nonempty l)|]; rewrite ?app_nil_r; eauto.
Qed.

Lemma each_kept (isRss : bool) (items : list node) :
  forall (posts : list post) (w : World),
  exists w', each env isRss items posts w = Val (posts ++ kept_posts env isRss items) w'.
Proof.
  induction items as [|el rest IH]; intros posts w; simpl.
  - rewrite app_nil_r. unfold ret. eauto.
  - destruct (each_item_kept isRss el posts w) as [w1 H1].
    unfold bind. rewrite H1.
    destruct (IH (posts ++ item_post env isRss el) w1) as [w2 H2].
    rewrite H2, <- app_assoc. eauto.
Qed.

Lemma item_post_length (isRss : bool) (el : node) :
  length (item_post env isRss el) <= 1
  /\ (item_post env isRss el <> [] -> length (item_post env isRss el) = 1).
Proof.
  unfold item_post. destruct (item_link isRss el) as [l|]; simpl.
  - destruct (nonempty _ && nonempty l); simpl; split; auto; congruence.
  - split; auto; congruence.
Qed.

Lemma kept_length (isRss : bool) (items : list node) :
  length (kept_posts env isRss items) <= length items.
Proof.
  induction items as [|el rest IH]; simpl; [lia|].
  rewrite length_app. pose proof (item_post_length isRss el) as [H _]. lia.
Qed.

Lemma kept_all (isRss : bool) (items : list node) :
  Forall (fun el => item_post env isRss el <> []) items ->
  length (kept_posts env isRss items) = length items.
Proof.
  induction 1 as [|el rest Hel _ IH]; simpl; [reflexivity|].
  rewrite length_app. pose proof (item_post_length isRss el) as [_ H].
  rewrite (H Hel), IH. reflexivity.
Qed.

Lemma nonempty_true (s : jsstring) : nonempty s = true -> s <> [].
Proof. destruct s; [discriminate|discriminate]. Qed.

Lemma kept_complete (isRss : bool) (items : list node) :
  Forall (fun p => title p <> [] /\ link p <> []) (kept_posts env isRss items).
Proof.
  induction items as [|el rest IH]; simpl; [constructor|].
  apply Forall_app. split; [|exact IH].
  unfold item_post. destruct (item_link isRss el) as [l|]; [|constructor].
  destruct (nonempty (first_text (find (js "title") el)) && nonempty l) eqn:E;
    [|constructor].
  apply andb_prop in E. destruct E as [Ht Hl].
  constructor; [|constructor]. simpl. split; now apply nonempty_true.
Qed.

(** C7, as the code has it.  For an Atom document with [N] entries, a
    bound [M >= 0] and a date formatter that returns, [normalize] gives
    the records of those of the first [min N M] entries whose title and
    link are both non-empty, in document order: at most [min N M]
    records, exactly that many when each of these entries has both, each
    record with a non-empty title and a non-empty link. *)
Theorem normalize_atom (doc : document) (w : World) :
  (0 <= POSTS_COUNT env)%Z ->
  (atom_entries doc <> [] \/ rss_items doc = []) ->
  exists w',
    normalize env doc w
    = Val (kept_posts env false
             (firstn (Z.to_nat (POSTS_COUNT env)) (atom_entries doc))) w'
    /\ length (kept_posts env false
                 (firstn (Z.to_nat (POSTS_COUNT env)) (atom_entries doc)))
       <= Nat.min (length (atom_entries doc)) (Z.to_nat (POSTS_COUNT env))
    /\ Forall (fun p => title p <> [] /\ link p <> [])
         (kept_posts env false
            (firstn (Z.to_nat (POSTS_COUNT env)) (atom_entries doc)))
    /\ (Forall (fun el => item_post env false el <> [])
          (firstn (Z.to_nat (POSTS_COUNT env)) (atom_entries doc)) ->
        length (kept_posts env false
                  (firstn (Z.to_nat (POSTS_COUNT env)) (atom_entries doc)))
        = Nat.min (length (atom_entries doc)) (Z.to_nat (POSTS_COUNT env))).
Proof.
  intros HM Hdoc.
  set (taken := firstn (Z.to_nat (POSTS_COUNT env)) (atom_entries doc)).
  assert (Hlen : length taken
                 = Nat.min (length (atom_entries doc)) (Z.to_nat (POSTS_COUNT env))).
  { unfold taken. rewrite length_firstn. apply Nat.min_comm. }
  assert (Hrun : exists w', normalize env doc w = Val (kept_posts env false taken) w').
  { unfold normalize, slice0.
    destruct (Z.ltb_spec (POSTS_COUNT env) 0) as [Hneg|_]; [lia|].
    destruct (atom_entries doc) as [|e0 es] eqn:Ea.
    - destruct Hdoc as [Hne|Hrss]; [congruence|]. rewrite Hrss.
      change (0 <? length (@nil node)) with false.
      unfold bind, logger, emit.
      destruct (each_kept false (firstn (Z.to_nat (POSTS_COUNT env)) []) []
                  (w ++ [Log info (FeedInfo (length (@nil node)) false)])) as [w' Hw].
      exists w'. rewrite Hw. reflexivity.
    - unfold bind, logger, emit.
      destruct (each_kept false (firstn (Z.to_nat (POSTS_COUNT env)) (e0 :: es)) []
                  (w ++ [Log info (FeedInfo (length (e0 :: es)) false)])) as [w' Hw].
      exists w'. rewrite Hw. reflexivity. }
  destruct Hrun as [w' Hw]. exists w'. split; [exact Hw|]. split; [|split].
  - rewrite <- Hlen. apply kept_length.
  - apply kept_complete.
  - intros Hall. rewrite <- Hlen. now apply kept_all.
Qed.

End Normalize.

(** ** A task that throws *)

Lemma process_all_stops (env : Env) (done : list issue) (i : issue) (rest : list issue)
      (e : exn) :
  forall w w1 w2,
    process_all env done w = Val tt w1 ->
    task env i w1 = Exn e w2 ->
    process_all env (done ++ i :: rest) w = Exn e w2.
Proof.
  induction done as [|d done IH]; intros w w1 w2 Hd Ht; simpl in *.
  - unfold ret in Hd. injection Hd as <-. unfold bind. now rewrite Ht.
  - unfold bind in *. destruct (task env d w) as [[] w'|e' w'|]; try discriminate.
    eapply IH; eassumption.
Qed.

Lemma complete_schedule (T : Type) (id : nat) (r r' : outcome) (p : pool T) :
  option_map (@schedule T) (complete id r p)
  = option_map (@schedule T) (complete id r' p).
Proof.
  unfold complete. destruct (is_running id p); [|reflexivity].
  unfold start_next, schedule. simpl. destruct (queue p); reflexivity.
Qed.

(** C2, as the code has it.  In the pool, a task that throws is a
    completion like any other: the bookkeeping is what it would be had the
    task returned, the error settles the promise of that task's [add] and
    no other promise, and the tasks still queued or running go on to
    complete.  In [run], the caller that awaits that [add] is the
    submission loop itself, inside a [try] block: when a task throws
    there, the loop ends, the records not yet submitted are not
    processed, the error is logged and the process exits with code 1. *)
Theorem task_failure_scope :
  (forall (T : Type) (lim : nat) (evs : list (pool_event T)) (p p' : pool T)
          (id : nat) (e : exn),
      steps (new_pool T lim) evs = Some p ->
      complete id (Rejected e) p = Some p' ->
      option_map (@schedule T) (complete id Fulfilled p) = Some (schedule p')
      /\ add_promise id p' = Some (Rejected e)
      /\ (forall j, j <> id -> add_promise j p' = add_promise j p)
      /\ (1 <= lim ->
          forall sched : pool T -> nat * outcome,
            running (drain sched (pending p') p') = []
            /\ queue (drain sched (pending p') p') = []
            /\ forall j, j < submitted p' ->
                 add_promise j (drain sched (pending p') p') <> None))
  /\ (forall (env : Env) (done : list issue) (i : issue) (rest : list issue)
             (w w1 w2 : World) (e : exn),
         getIssues env = Some (done ++ i :: rest) ->
         submit_all env done (new_pool (M unit) CONCURRENCY_LIMIT)
           (w ++ [Log info Started]) = Val tt w1 ->
         task env i w1 = Exn e w2 ->
         run env w = Val tt (w2 ++ [Log error ErrorProcessingIssues; Exit 1])).
Proof.
  split.
  - intros T lim evs p p' id e Hs Hc.
    pose proof (steps_inv T _ _ _ (new_pool_inv T lim) Hs) as I.
    pose proof (complete_inv T _ _ _ _ I Hc) as I'.
    pose proof (steps_limit T _ _ _ Hs) as Hlim. simpl in Hlim.
    destruct (complete_limit T _ _ _ _ Hc) as [Hl' _].
    split; [|split; [|split]].
    + rewrite (complete_schedule T id Fulfilled (Rejected e) p), Hc. reflexivity.
    + exact (complete_settles T _ _ _ _ I Hc).
    + intros j Hj. exact (complete_others T _ _ _ _ _ Hc Hj).
    + intros Hlim1 sched.
      destruct (drain_all T sched (pending p') p' I') as (I2 & Hr & Hq & Hsub);
        [lia|apply Nat.le_refl|].
      split; [exact Hr|]. split; [exact Hq|].
      intros j Hj. apply idle_all_settled; try assumption. rewrite Hsub. exact Hj.
  - intros env done i rest w w1 w2 e Hg Hd Ht.
    rewrite (run_sequential env w (getIssues_setup env _ Hg)).
    rewrite submit_all_sequential in Hd;
      [|apply new_pool_inv|reflexivity|reflexivity|unfold CONCURRENCY_LIMIT; simpl; lia].
    unfold try_catch, bind, logger, emit, ret, throw. rewrite Hg.
    rewrite (process_all_stops env done i rest e _ _ _ Hd Ht).
    now rewrite <- app_assoc.
Qed.

(** ** The worker on concrete records *)

(** Number literals: one value in three notations; a fraction, a
    magnitude of [2^53] and negative zero, which the model does not have;
    and a text that is not of the grammar behind a fraction. *)
Lemma JSON_parse_numbers :
  JSON_parse (jsq "{'a': 1000}") = Parsed (JObj [(js "a", JNum 1000)])
  /\ JSON_parse (jsq "{'a': 1e3}") = Parsed (JObj [(js "a", JNum 1000)])
  /\ JSON_parse (jsq "{'a': 1000.0}") = Parsed (JObj [(js "a", JNum 1000)])
  /\ JSON_parse (jsq "{'a': -25e-1, 'b': 0}") = Unmodelled
  /\ JSON_parse (jsq "{'a': 9007199254740992}") = Unmodelled
  /\ JSON_parse (jsq "{'a': -0}") = Unmodelled
  /\ JSON_parse (jsq "{'a': 1.5, }") = SyntaxError
  /\ JSON_parse (jsq "{'a': 1.}") = SyntaxError
  /\ JSON_parse (jsq "{'a': 01}") = SyntaxError.
Proof. repeat split; vm_compute; reflexivity. Qed.

(** A truthy [feed] that has no string conversion: line 87 throws inside
    the [try], nothing is fetched and the task updates nothing. *)
Lemma unprintable_feed_skipped :
  task rss_env unprintable_issue []
  = Val tt
      [Log info (Processing 8);
       Log info (FoundJson 8 (jsq "{'feed': {'toString': 1}}"));
       Log info (GotJson 8
                   (JObj [(js "feed", JObj [(js "toString", JNum 1)])]));
       Handled TypeError (ProcessingIssue 8)].
Proof. vm_compute. reflexivity. Qed.

(** Without a repository in the context [run] throws before its [try]. *)
Lemma run_without_setup : run no_setup_env [] = Exn SetupError [].
Proof. reflexivity. Qed.


(** C2, counterexample.  The tracker rejects the update of issue 1: the
    run ends there with exit code 1, and issue 2 is never processed. *)
Lemma run_stops_at_failed_update :
  getIssues rejecting_env = Some [plain_issue 1; plain_issue 2]
  /\ run rejecting_env []
     = Val tt
         [Log info Started;
          Log info (Processing 1);
          Log info (FoundJson 1 (jsq "{'a': 'b'}"));
          Log info (GotJson 1 (JObj [(js "a", JStr (js "b"))]));
          Log info (Converted 1 (JObj [(js "a", JStr (js "b"))]));
          IssueUpdate 1 (jsq "```json {~  'a': 'b'~} ```");
          Log error ErrorProcessingIssues;
          Exit 1].
Proof. split; vm_compute; reflexivity. Qed.

(** C4, on a failing input.  The first GET fails and a second one would
    answer, with three attempts configured: [withRetry] makes one GET,
    the record gets an empty [posts] list, and nothing is retried. *)
Lemma network_error_not_retried :
  RETRY_TIMES flaky_env = 3
  /\ axios_get flaky_env 0 feed_url = GetFailed
  /\ axios_get flaky_env 1 feed_url = Loaded one_entry_doc
  /\ withRetry (parseFeed flaky_env feed_url) (RETRY_TIMES flaky_env) []
     = Val [] [HttpGet feed_url; Handled NetworkError (ParsingFeed feed_url)]
  /\ exists r w,
       processIssue flaky_env feed_issue [] = Val (Some r) w
       /\ gets w = 1
       /\ posts_of (data r) = Some (JArr []).
Proof.
  repeat split; try (vm_compute; reflexivity).
  eexists. eexists. repeat split; vm_compute; reflexivity.
Qed.

(** C5, on a failing input.  The text of the directive also stands in the
    body before the fenced block: [replace] rewrites that first copy, so
    the text before the fence changes and the captured span does not. *)
Lemma replace_hits_earlier_copy :
  fence_match quoted_body
  = Some (jsq "{'a': 'b'} ", jsq "```json {'a': 'b'} ```", [])
  /\ jsonMatch quoted_body = Some (jsq "{'a': 'b'}")
  /\ exists w,
       processIssue quiet_env quoted_issue []
       = Val (Some (Result (JObj [(js "a", JStr (js "b"))])
                      (jsq "{~  'a': 'b'~} ```json {'a': 'b'} ```"))) w.
Proof.
  repeat split; try (vm_compute; reflexivity).
  eexists. vm_compute. reflexivity.
Qed.

(** C9, on a failing input.  The resolved post has two dollar signs in its
    title; [replace] reads them as the pattern for one dollar sign, so
    the directive parsed back from the new body has another title. *)
Lemma roundtrip_changes_dollar_title :
  exists r w,
    processIssue dollar_env feed_issue [] = Val (Some r) w
    /\ posts_of (data r)
       = Some (posts_json [Post (js "Earn $$ fast") (js "http://example.org/1") []])
    /\ exists span v,
         jsonMatch (newBody r) = Some span
         /\ JSON_parse span = Parsed v
         /\ posts_of v
            = Some (posts_json [Post (js "Earn $ fast") (js "http://example.org/1") []]).
Proof.
  eexists. eexists. split; [vm_compute; reflexivity|].
  split; [vm_compute; reflexivity|].
  eexists. eexists. split; [vm_compute; reflexivity|].
  split; vm_compute; reflexivity.
Qed.

(** C7, counterexample.  An Atom document with one entry, which has a
    title and no link, and a bound of two: [normalize] returns no record,
    not [min 1 2]. *)
Lemma linkless_entry_dropped :
  length (atom_entries linkless_doc) = 1
  /\ POSTS_COUNT quiet_env = 2%Z
  /\ normalize quiet_env linkless_doc []
     = Val [] [Log info (FeedInfo 1 false);
               Log info (Extracted (js "Hello") None [])].
Proof. repeat split; vm_compute; reflexivity. Qed.

(** ** The theorems at concrete inputs *)


(** A GET that fails twice and then answers, tried three times; a GET
    that always fails, tried twice. *)
Lemma withRetry_attempts_witness :
  (withRetry (fetch third_time_env feed_url) 3 []
   = Val one_entry_doc
       [HttpGet feed_url; Log error (AttemptFailed NetworkError);
        HttpGet feed_url; Log error (AttemptFailed NetworkError);
        HttpGet feed_url]
   /\ gets [HttpGet feed_url; Log error (AttemptFailed NetworkError);
            HttpGet feed_url; Log error (AttemptFailed NetworkError);
            HttpGet feed_url] = gets [] + 3)
  /\ exists e w',
       failed_attempts (fetch quiet_env feed_url) 2 [] e w'
       /\ withRetry (fetch quiet_env feed_url) 2 [] = Exn e w'
       /\ gets w' = gets [] + 2.
Proof.
  split.
  - apply (proj1 (withRetry_attempts document gets gets_log
                    (fetch third_time_env feed_url)
                    (fetch_counts third_time_env feed_url))
             [] NetworkError [HttpGet feed_url]
             NetworkError
             [HttpGet feed_url; Log error (AttemptFailed NetworkError); HttpGet feed_url]
             one_entry_doc
             [HttpGet feed_url; Log error (AttemptFailed NetworkError);
              HttpGet feed_url; Log error (AttemptFailed NetworkError);
              HttpGet feed_url]); reflexivity.
  - apply (proj2 (withRetry_attempts document gets gets_log
                    (fetch quiet_env feed_url)
                    (fetch_counts quiet_env feed_url)) 2 []).
    + lia.
    + intros w0. exists NetworkError, (w0 ++ [HttpGet feed_url]). reflexivity.
Defined.

(** A pool of bound 2 after five tasks were submitted at once. *)
Lemma pool_bounded_fifo_complete_witness :
  exists p,
    steps (new_pool unit 2) [Submit tt; Submit tt; Submit tt; Submit tt; Submit tt]
    = Some p
    /\ ids (running p) = [0; 1]
    /\ ids (queue p) = [2; 3; 4]
    /\ length (running p) <= 2
    /\ forall sched : pool unit -> nat * outcome,
         running (drain sched (pending p) p) = []
         /\ queue (drain sched (pending p) p) = []
         /\ forall id, id < 5 -> add_promise id (drain sched (pending p) p) <> None.
Proof.
  eexists. split; [vm_compute; reflexivity|].
  split; [reflexivity|]. split; [reflexivity|].
  pose proof (pool_bounded_fifo_complete unit 2
                [Submit tt; Submit tt; Submit tt; Submit tt; Submit tt] _ eq_refl)
    as (Hb & _ & _ & _ & _ & _ & _ & _ & Hlive).
  split; [exact Hb|]. intros sched. apply Hlive. lia.
Defined.

(** Three complete entries and a bound of two. *)
Lemma normalize_atom_witness :
  exists w',
    normalize quiet_env three_entry_doc []
    = Val [Post (js "One") (js "http://example.org/1") [];
           Post (js "Two") (js "http://example.org/2") []] w'.
Proof.
  assert (Hf : forall s, formatDate quiet_env s (DATE_FORMAT quiet_env) <> None)
    by (intros s; discriminate).
  assert (HM : (0 <= POSTS_COUNT quiet_env)%Z) by (simpl; lia).
  assert (Hd : atom_entries three_entry_doc <> [] \/ rss_items three_entry_doc = [])
    by (left; vm_compute; discriminate).
  destruct (normalize_atom quiet_env Hf three_entry_doc [] HM Hd) as (w' & H & _).
  exists w'. exact H.
Defined.

(** A body without a fenced block, and one whose block is not JSON: a
    value is missing after a comma, behind a number with a fraction. *)
Lemma skipped_records_witness :
  (exists w', processIssue quiet_env (Issue 5 (Some (js "no directive here"))) []
              = Val None w')
  /\ ~ valid_json (jsq "{'a': 1.5, }")
  /\ (exists w',
        processIssue quiet_env (Issue 6 (Some (jsq "```json {'a': 1.5, } ```"))) []
        = Val None w'
        /\ In (Handled JsonSyntaxError (ProcessingIssue 6)) w').
Proof.
  assert (Hn : ~ valid_json (jsq "{'a': 1.5, }")).
  { apply JSON_parse_syntax. vm_compute. reflexivity. }
  split; [|split; [exact Hn|]].
  - destruct (proj1 (skipped_records quiet_env 5 (js "no directive here") [] [])
                eq_refl) as (w' & H & _).
    exists w'. exact H.
  - destruct (proj2 (skipped_records quiet_env 6 (jsq "```json {'a': 1.5, } ```") [] [])
                (jsq "{'a': 1.5, }") eq_refl Hn) as (w' & H & _ & _ & Hin & _).
    exists w'. split; [exact H|exact Hin].
Defined.

(** A pool of bound 1 whose first task throws while a second one waits;
    the run in which the tracker rejects the update of issue 1. *)
Lemma task_failure_scope_witness :
  (exists p p',
      steps (new_pool unit 1) [Submit tt; Submit tt] = Some p
      /\ complete 0 (Rejected UpdateError) p = Some p'
      /\ add_promise 0 p' = Some (Rejected UpdateError)
      /\ add_promise 1 p' = None
      /\ ids (running p') = [1])
  /\ run rejecting_env []
     = Val tt
         ([Log info Started;
           Log info (Processing 1);
           Log info (FoundJson 1 (jsq "{'a': 'b'}"));
           Log info (GotJson 1 (JObj [(js "a", JStr (js "b"))]));
           Log info (Converted 1 (JObj [(js "a", JStr (js "b"))]));
           IssueUpdate 1 (jsq "```json {~  'a': 'b'~} ```")]
          ++ [Log error ErrorProcessingIssues; Exit 1]).
Proof.
  split.
  - eexists. eexists. split; [vm_compute; reflexivity|].
    split; [vm_compute; reflexivity|].
    split; [|split; reflexivity].
    refine (proj1 (proj2 (proj1 task_failure_scope unit 1 [Submit tt; Submit tt]
                            _ _ 0 UpdateError eq_refl eq_refl))).
  - apply (proj2 task_failure_scope rejecting_env [] (plain_issue 1) [plain_issue 2]
             [] [Log info Started] _ UpdateError); vm_compute; reflexivity.
Defined.

(** * Further properties of [src/main.js] *)

Import Behaviour.

(** ** Feeds: both dialects, every outcome *)

Section Feeds.

Variable env : Env.

Lemma each_item_run (isRss : bool) (el : node) (posts : list post) (w : World) :
  each_item env isRss el posts w
  = if date_throws env isRss el then Exn DateError w
    else Val (posts ++ item_post env isRss el)
           (w ++ [Log info (Extracted (first_text (find (js "title") el))
                              (item_link isRss el)
                              (date_text env (item_date isRss el)))]).
Proof.
  unfold each_item, date_throws, item_post, date_text, format_published, bind,
    logger, emit, ret, throw.
  destruct (nonempty (item_date isRss el)); simpl.
  - destruct (formatDate env (item_date isRss el) (DATE_FORMAT env)) as [d|];
      [|reflexivity].
    destruct (item_link isRss el) as [l|];
      [destruct (nonempty _ && nonempty l)|]; now rewrite ?app_nil_r.
  - destruct (item_link isRss el) as [l|];
      [destruct (nonempty _ && nonempty l)|]; now rewrite ?app_nil_r.
Qed.

Lemma item_post_from (isRss : bool) (el : node) :
  Forall (fun p => complete_post p /\ from_item isRss el p) (item_post env isRss el).
Proof.
  unfold item_post, complete_post, from_item.
  destruct (item_link isRss el) as [l|] eqn:El; [|constructor].
  destruct (nonempty (first_text (find (js "title") el)) && nonempty l) eqn:E;
    [|constructor].
  apply andb_prop in E. destruct E as [Ht Hl].
  constructor; [|constructor]. simpl.
  repeat split; try reflexivity; now apply nonempty_true.
Qed.

(** What [each] does to [posts] and to the trace, whatever the formatter
    does: it returns [posts] with at most one complete record more per
    item, or it throws the formatter's error; it only logs. *)
Lemma each_grows (isRss : bool) (items : list node) :
  forall (posts : list post) (w : World),
    match each env isRss items posts w with
    | Val ps w' =>
        exists added evs,
          ps = posts ++ added /\ w' = w ++ evs
          /\ length added <= length items
          /\ Forall (fun p => complete_post p
                              /\ exists el, In el items /\ from_item isRss el p) added
          /\ forallb feed_event evs = true
    | Exn e w' =>
        e = DateError
        /\ existsb (date_throws env isRss) items = true
        /\ exists evs, w' = w ++ evs /\ forallb feed_event evs = true
    | NoAnswer => False
    end.
Proof.
  induction items as [|el rest IH]; intros posts w; cbn [each].
  - unfold ret. exists [], []. rewrite !app_nil_r. repeat split; auto.
  - unfold bind. rewrite each_item_run. cbn [existsb length].
    destruct (date_throws env isRss el) eqn:Ed.
    + split; [reflexivity|]. split; [reflexivity|]. exists []. now rewrite app_nil_r.
    + set (ev := Log info (Extracted (first_text (find (js "title") el))
                             (item_link isRss el)
                             (date_text env (item_date isRss el)))).
      specialize (IH (posts ++ item_post env isRss el) (w ++ [ev])).
      destruct (each env isRss rest _ _) as [ps w'|e w'|]; [| |exact IH].
      * destruct IH as (added & evs & -> & -> & Hlen & Hall & Hev).
        exists (item_post env isRss el ++ added), (ev :: evs).
        rewrite <- !app_assoc. split; [reflexivity|]. split; [reflexivity|].
        split; [|split].
        -- rewrite length_app.
           pose proof (item_post_length env isRss el) as [H1 _]. lia.
        -- apply Forall_app. split.
           ++ eapply Forall_impl; [|apply item_post_from].
              intros p [Hc Hf]. split; [exact Hc|]. exists el. split; [now left|exact Hf].
           ++ eapply Forall_impl; [|exact Hall].
              intros p [Hc (el' & Hin & Hf)]. split; [exact Hc|].
              exists el'. split; [now right|exact Hf].
        -- simpl. exact Hev.
      * destruct IH as (-> & Hex & evs & -> & Hev).
        split; [reflexivity|]. split; [exact Hex|].
        exists (ev :: evs). rewrite <- app_assoc. split; [reflexivity|]. simpl. exact Hev.
Qed.

Lemma normalize_run (doc : document) (w : World) :
  normalize env doc w
  = each env (fst (dialect doc)) (taken env doc) []
      (w ++ [Log info (FeedInfo (length (snd (dialect doc))) (fst (dialect doc)))]).
Proof.
  unfold normalize, taken, dialect.
  destruct (atom_entries doc); reflexivity.
Qed.

Lemma each_throws (isRss : bool) (items : list node) :
  existsb (date_throws env isRss) items = true ->
  forall (posts : list post) (w : World),
  exists evs,
    each env isRss items posts w = Exn DateError (w ++ evs)
    /\ forallb feed_event evs = true.
Proof.
  induction items as [|el rest IH]; cbn [existsb each]; [discriminate|].
  intros Hex posts w. unfold bind. rewrite each_item_run.
  destruct (date_throws env isRss el) eqn:Ed.
  - exists []. now rewrite app_nil_r.
  - simpl in Hex.
    destruct (IH Hex (posts ++ item_post env isRss el)
                (w ++ [Log info (Extracted (first_text (find (js "title") el))
                                   (item_link isRss el)
                                   (date_text env (item_date isRss el)))]))
      as (evs & -> & Hev).
    eexists (_ :: evs). rewrite <- app_assoc. split; [reflexivity|]. exact Hev.
Qed.

Lemma slice0_nil (A : Type) (n : Z) : slice0 n (@nil A) = [].
Proof. unfold slice0. destruct (n <? 0)%Z; apply firstn_nil. Qed.

Lemma slice0_length (A : Type) (n : Z) (l : list A) :
  (0 <= n)%Z -> length (slice0 n l) <= Z.to_nat n.
Proof.
  intros Hn. unfold slice0. destruct (Z.ltb_spec n 0) as [|_]; [lia|].
  rewrite length_firstn. lia.
Qed.

(** What [parseFeed] adds to the trace: one GET, then log lines and at
    most one report of an error. *)
Lemma parseFeed_trace (url : json) (w : World) :
  exists posts evs,
    parseFeed env url w = Val posts (w ++ HttpGet url :: evs)
    /\ forallb feed_event evs = true.
Proof.
  destruct (parseFeed_answers env url w) as (_ & Hc & _).
  destruct (axios_get env (gets w) url) as [| |doc].
  - exists [], [Handled NetworkError (ParsingFeed url)]. now rewrite Hc.
  - exists [], [Handled DocumentError (ParsingFeed url)]. now rewrite Hc.
  - rewrite normalize_run in Hc.
    pose proof (each_grows (fst (dialect doc)) (taken env doc) []
                  ((w ++ [HttpGet url])
                     ++ [Log info (FeedInfo (length (snd (dialect doc)))
                                     (fst (dialect doc)))])) as Hg.
    destruct (each env (fst (dialect doc)) (taken env doc) [] _) as [ps w'|e w'|];
      [| |contradiction].
    + destruct Hg as (added & evs & _ & -> & _ & _ & Hev).
      exists ps, (Log info (FeedInfo (length (snd (dialect doc))) (fst (dialect doc)))
                    :: evs).
      rewrite Hc, <- !app_assoc. split; [reflexivity|]. exact Hev.
    + destruct Hg as (_ & _ & evs & -> & Hev).
      exists [], (Log info (FeedInfo (length (snd (dialect doc))) (fst (dialect doc)))
                    :: evs ++ [Handled e (ParsingFeed url)]).
      rewrite Hc, <- !app_assoc. split; [reflexivity|].
      simpl. rewrite forallb_app, Hev. reflexivity.
Qed.

(** X3.  Whatever the GET, the document and the date formatter do, with a
    bound [posts_count >= 0] [parseFeed] returns at most [posts_count]
    records, and each of them has a non-empty title and a non-empty
    link. *)
Theorem parseFeed_bounded (url : json) (w : World) :
  (0 <= POSTS_COUNT env)%Z ->
  exists posts w',
    parseFeed env url w = Val posts w'
    /\ length posts <= Z.to_nat (POSTS_COUNT env)
    /\ Forall complete_post posts.
Proof.
  intros HM.
  destruct (parseFeed_answers env url w) as (_ & Hc & _).
  destruct (axios_get env (gets w) url) as [| |doc].
  - eexists. eexists. split; [exact Hc|]. split; [simpl; lia|constructor].
  - eexists. eexists. split; [exact Hc|]. split; [simpl; lia|constructor].
  - rewrite normalize_run in Hc.
    pose proof (each_grows (fst (dialect doc)) (taken env doc) []
                  ((w ++ [HttpGet url])
                     ++ [Log info (FeedInfo (length (snd (dialect doc)))
                                     (fst (dialect doc)))])) as Hg.
    destruct (each env (fst (dialect doc)) (taken env doc) [] _) as [ps w'|e w'|];
      [| |contradiction].
    + destruct Hg as (added & evs & -> & _ & Hlen & Hall & _).
      eexists. eexists. split; [exact Hc|]. simpl. split.
      * pose proof (slice0_length node (POSTS_COUNT env) (snd (dialect doc)) HM).
        unfold taken in Hlen. lia.
      * eapply Forall_impl; [|exact Hall]. now intros p [Hp _].
    + eexists. eexists. split; [exact Hc|]. split; [simpl; lia|constructor].
Qed.

(** X2.  A document with no [feed > entry] and no [rss > channel > item]
    is not an error: [parseFeed] returns the empty list after logging the
    count, and reports nothing through [handleError]. *)
Theorem parseFeed_unknown_dialect (url : json) (doc : document) (w : World) :
  axios_get env (gets w) url = Loaded doc ->
  atom_entries doc = [] ->
  rss_items doc = [] ->
  parseFeed env url w = Val [] (w ++ [HttpGet url; Log info (FeedInfo 0 false)]).
Proof.
  intros Hget Ha Hr.
  destruct (parseFeed_answers env url w) as (_ & Hc & _).
  rewrite Hget, normalize_run in Hc.
  unfold taken, dialect in Hc. rewrite Ha, Hr in Hc.
  cbn [fst snd length Nat.ltb Nat.leb] in Hc.
  rewrite slice0_nil in Hc. cbn [each] in Hc. unfold ret in Hc.
  now rewrite Hc, <- app_assoc.
Qed.

(** X4.  When the date formatter throws on the date of one of the items
    gone through, the whole feed is lost: [parseFeed] returns the empty
    list, the records of the items before that one included, and reports
    the error. *)
Theorem parseFeed_date_failure (url : json) (doc : document) (w : World) :
  axios_get env (gets w) url = Loaded doc ->
  existsb (date_throws env (fst (dialect doc))) (taken env doc) = true ->
  exists evs,
    parseFeed env url w
    = Val [] (w ++ HttpGet url :: evs ++ [Handled DateError (ParsingFeed url)])
    /\ forallb feed_event evs = true.
Proof.
  intros Hget Hex.
  destruct (parseFeed_answers env url w) as (_ & Hc & _).
  rewrite Hget, normalize_run in Hc.
  destruct (each_throws _ _ Hex []
              ((w ++ [HttpGet url])
                 ++ [Log info (FeedInfo (length (snd (dialect doc)))
                                 (fst (dialect doc)))]))
    as (evs & He & Hev).
  rewrite He in Hc.
  exists (Log info (FeedInfo (length (snd (dialect doc))) (fst (dialect doc))) :: evs).
  rewrite Hc, <- !app_assoc. split; [reflexivity|]. exact Hev.
Qed.

End Feeds.

Lemma eqb_eq (a b : jsstring) : eqb a b = true <-> a = b.
Proof.
  revert b. induction a as [|x a IH]; intros [|y b]; simpl; split;
    try discriminate; try reflexivity.
  - intros H. apply andb_prop in H. destruct H as [Hx Ha].
    apply N.eqb_eq in Hx. apply IH in Ha. now subst.
  - intros H. injection H as -> ->. rewrite N.eqb_refl. now apply IH.
Qed.

Lemma attr_head (a v : jsstring) (sel : list node) :
  attr a sel = Some v ->
  exists nm attrs kids rest,
    sel = Elem nm attrs kids :: rest /\ attr_lookup a attrs = Some v.
Proof.
  destruct sel as [|[d|d|nm attrs kids] rest]; simpl; try discriminate.
  intros H. now exists nm, attrs, kids, rest.
Qed.

Lemma filter_head (A : Type) (f : A -> bool) (l : list A) (x : A) (rest : list A) :
  filter f l = x :: rest -> In x l /\ f x = true.
Proof.
  intros H. assert (Hin : In x (filter f l)) by (rewrite H; now left).
  now apply filter_In in Hin.
Qed.

(** X5.  The link of an Atom entry is always the [href] attribute of a
    [link] element below the entry, never text; and when the first
    [link] element with [rel="alternate"] has a non-empty [href], that
    one is the link, wherever the element stands among the links. *)
Theorem atom_link_source (el : node) :
  (forall l,
      item_link false el = Some l ->
      exists attrs kids,
        In (Elem (js "link") attrs kids) (descendants el)
        /\ attr_lookup (js "href") attrs = Some l)
  /\ (forall nm attrs kids rest h,
         find_with_attr (js "link") (js "rel") (js "alternate") el
         = Elem nm attrs kids :: rest ->
         attr_lookup (js "href") attrs = Some h ->
         h <> [] ->
         item_link false el = Some h
         /\ attr_lookup (js "rel") attrs = Some (js "alternate")).
Proof.
  split.
  - intros l. unfold item_link.
    assert (Hfind : forall sel f,
               sel = filter f (descendants el) ->
               (forall n, f n = true -> has_name (js "link") n = true) ->
               attr (js "href") sel = Some l ->
               exists attrs kids,
                 In (Elem (js "link") attrs kids) (descendants el)
                 /\ attr_lookup (js "href") attrs = Some l).
    { intros sel f -> Hf Ha.
      destruct (attr_head _ _ _ Ha) as (nm & attrs & kids & rest & Hsel & Hl).
      destruct (filter_head _ _ _ _ _ Hsel) as [Hin Hfx].
      apply Hf in Hfx. cbn [has_name] in Hfx. apply eqb_eq in Hfx. subst nm.
      now exists attrs, kids. }
    destruct (truthy_link (attr (js "href")
                             (find_with_attr (js "link") (js "rel") (js "alternate") el))).
    + apply (Hfind _ (fun n => has_name (js "link") n
                               && has_attr (js "rel") (js "alternate") n));
        [reflexivity|].
      intros n H. now apply andb_prop in H.
    + apply (Hfind _ (has_name (js "link"))); [reflexivity|auto].
  - intros nm attrs kids rest h Hsel Hh Hne.
    unfold item_link. rewrite Hsel. cbn [attr]. rewrite Hh.
    destruct h as [|c h]; [contradiction|]. cbn [truthy_link nonempty].
    split; [reflexivity|].
    destruct (filter_head _ _ _ _ _ Hsel) as [_ Hf].
    apply andb_prop in Hf. destruct Hf as [_ Hattr]. cbn [has_attr] in Hattr.
    destruct (attr_lookup (js "rel") attrs) as [v|]; [|discriminate].
    apply eqb_eq in Hattr. now subst.
Qed.

Section FeedsWithDates.

Variable env : Env.
Hypothesis formatDate_returns : forall s, formatDate env s (DATE_FORMAT env) <> None.

Lemma normalize_kept (doc : document) (w : World) :
  exists w',
    normalize env doc w
    = Val (kept_posts env (fst (dialect doc)) (taken env doc)) w'.
Proof.
  rewrite normalize_run.
  destruct (each_kept env formatDate_returns (fst (dialect doc)) (taken env doc) []
              (w ++ [Log info (FeedInfo (length (snd (dialect doc)))
                               (fst (dialect doc)))])) as [w' H].
  exists w'. exact H.
Qed.

Lemma kept_posts_In (isRss : bool) (items : list node) (p : post) :
  In p (kept_posts env isRss items) ->
  exists el, In el items /\ In p (item_post env isRss el).
Proof.
  unfold kept_posts. intros H. apply in_flat_map in H. exact H.
Qed.

(** X1.  An Rss document (no [feed > entry]) with a bound [M >= 0] and a
    date formatter that returns: [normalize] gives the records of those
    of the first [min N M] items that have a title and a link, in
    document order; the title is the text of the item's first [title]
    element, the link the text of its first [link] element, the date the
    formatted text of its first [pubDate] element, or empty without
    one. *)
Theorem normalize_rss (doc : document) (w : World) :
  (0 <= POSTS_COUNT env)%Z ->
  atom_entries doc = [] ->
  exists w',
    normalize env doc w
    = Val (kept_posts env true
             (firstn (Z.to_nat (POSTS_COUNT env)) (rss_items doc))) w'
    /\ length (kept_posts env true
                 (firstn (Z.to_nat (POSTS_COUNT env)) (rss_items doc)))
       <= Nat.min (length (rss_items doc)) (Z.to_nat (POSTS_COUNT env))
    /\ Forall
         (fun p =>
            complete_post p
            /\ exists el,
                 In el (firstn (Z.to_nat (POSTS_COUNT env)) (rss_items doc))
                 /\ title p = first_text (find (js "title") el)
                 /\ link p = first_text (find (js "link") el)
                 /\ published p
                    = date_text env (first_text (find (js "pubDate") el)))
         (kept_posts env true
            (firstn (Z.to_nat (POSTS_COUNT env)) (rss_items doc))).
Proof.
  intros HM Ha.
  set (its := firstn (Z.to_nat (POSTS_COUNT env)) (rss_items doc)).
  assert (Htaken : taken env doc = its).
  { unfold taken, dialect, slice0. rewrite Ha. simpl.
    destruct (Z.ltb_spec (POSTS_COUNT env) 0); [lia|reflexivity]. }
  assert (Hkept : kept_posts env (fst (dialect doc)) its = kept_posts env true its).
  { unfold dialect. rewrite Ha. simpl.
    destruct (rss_items doc) as [|i0 r] eqn:Er; [|reflexivity].
    unfold its. now rewrite firstn_nil. }
  destruct (normalize_kept doc w) as [w' Hw]. rewrite Htaken, Hkept in Hw.
  exists w'. split; [exact Hw|]. split.
  - eapply Nat.le_trans; [apply kept_length|].
    unfold its. rewrite length_firstn. lia.
  - apply Forall_forall. intros p Hp.
    destruct (kept_posts_In _ _ _ Hp) as (el & Hin & Hpel).
    pose proof (item_post_from env true el) as Hfrom.
    rewrite Forall_forall in Hfrom. destruct (Hfrom p Hpel) as [Hc _].
    split; [exact Hc|]. exists el. split; [exact Hin|].
    unfold item_post, item_link, item_date in Hpel.
    destruct (nonempty (first_text (find (js "title") el))
              && nonempty (first_text (find (js "link") el))); [|contradiction].
    destruct Hpel as [<-|[]]. simpl. auto.
Qed.

(** X6.  A negative [posts_count] is read as [Array.prototype.slice]
    reads a negative end: with [M < 0], [N] items and a date formatter
    that returns, the items gone through are the first [N - |M|], none
    when [|M| >= N], and the records returned are those of these items
    that have a title and a link. *)
Theorem normalize_negative_bound (doc : document) (w : World) :
  (POSTS_COUNT env < 0)%Z ->
  exists w',
    normalize env doc w
    = Val (kept_posts env (fst (dialect doc))
             (firstn (length (snd (dialect doc)) - Z.to_nat (- POSTS_COUNT env))
                (snd (dialect doc)))) w'
    /\ length (kept_posts env (fst (dialect doc))
                 (firstn (length (snd (dialect doc)) - Z.to_nat (- POSTS_COUNT env))
                    (snd (dialect doc))))
       <= length (snd (dialect doc)) - Z.to_nat (- POSTS_COUNT env).
Proof.
  intros HM. destruct (normalize_kept doc w) as [w' Hw].
  unfold taken, slice0 in Hw.
  destruct (Z.ltb_spec (POSTS_COUNT env) 0) as [_|]; [|lia].
  exists w'. split; [exact Hw|].
  eapply Nat.le_trans; [apply kept_length|]. rewrite length_firstn. lia.
Qed.

End FeedsWithDates.

(** ** One record: what [processIssue] and its task can do *)

Lemma feed_event_inner (evs : list event) :
  forallb feed_event evs = true -> forallb inner evs = true.
Proof.
  induction evs as [|e evs IH]; simpl; [reflexivity|].
  intros H. apply andb_prop in H. destruct H as [He Hs].
  rewrite (IH Hs), andb_true_r.
  destruct e as [[] []| ? []| | |]; try discriminate; reflexivity.
Qed.

Lemma inner_gets_updates (evs : list event) :
  forallb inner evs = true -> updates evs = [] /\ processed evs = [] /\ updated evs = [].
Proof.
  unfold updates, processed, updated.
  induction evs as [|e evs IH]; simpl; [auto|].
  intros H. apply andb_prop in H. destruct H as [He Hs].
  destruct (IH Hs) as (-> & -> & ->).
  destruct e as [[] []| | | |]; try discriminate; auto.
Qed.

Section OneRecord.

Variable env : Env.
Implicit Types (w : World) (text span : jsstring) (n : Z).

Ltac run_issue :=
  cbv [processIssue try_catch bind logger handleError emit ret throw no_answer
       parse_directive get_feed body number].

Lemma processIssue_no_attempt n text span v url w :
  jsonMatch text = Some span -> JSON_parse span = Parsed v ->
  feed_of v = Some url -> truthy (Some url) = true ->
  to_string url <> None ->
  RETRY_TIMES env = 0 ->
  processIssue env (Issue n (Some text)) w
  = Val None
      (w ++ [Log info (Processing n); Log info (FoundJson n span);
             Log info (GotJson n v); Log info (GettingFeed url);
             Handled NoAttempt (ProcessingIssue n)]).
Proof.
  intros Hm Hp Hf Ht Hs Hr.
  destruct (jsonMatch_head _ _ Hm) as [r ->].
  destruct (JSON_parse_object _ _ Hp) as [props ->].
  destruct (to_string url) as [s|] eqn:Es; [clear Hs|contradiction].
  run_issue. destruct text as [|c t]; [discriminate Hm|].
  rewrite Hm, Hp. run_issue. unfold feed_of in Hf. rewrite Hf, Ht, Es, Hr.
  cbv [withRetry throw]. now rewrite <- !app_assoc.
Qed.

(** Every way [processIssue] can end, with the trace it leaves. *)
Lemma processIssue_trace (i : issue) w :
  match processIssue env i w with
  | Val r w' =>
      exists evs,
        w' = w ++ Log info (Processing (number i)) :: evs
        /\ forallb inner evs = true
        /\ gets evs <= 1
        /\ match r with
           | Some res =>
               exists text span,
                 body i = Some text /\ jsonMatch text = Some span
                 /\ newBody res = replace text span (JSON_stringify (data res))
           | None => True
           end
  | Exn _ _ => False
  | NoAnswer =>
      exists text span,
        body i = Some text /\ jsonMatch text = Some span
        /\ JSON_parse span = Unmodelled
  end.
Proof.
  destruct i as [n [text|]]; cbn [number body].
  2:{ rewrite (proj1 (processIssue_no_body env n w)).
      exists [Log warn (NoBody n)]. repeat split; auto. }
  destruct (jsonMatch text) as [span|] eqn:Hm.
  2:{ destruct text as [|c r].
      - change (@Some jsstring []) with (@Some (list N) []).
        rewrite (proj2 (processIssue_no_body env n w)).
        exists [Log warn (NoBody n)]. repeat split; auto.
      - rewrite (processIssue_no_match env n (c :: r) w); [|discriminate|exact Hm].
        exists [Log warn (NoJson n)]. repeat split; auto. }
  destruct (JSON_parse span) as [v| |] eqn:Hp.
  - destruct (truthy (feed_of v)) eqn:Ht.
    + destruct (feed_of v) as [url|] eqn:Hf; [|discriminate Ht].
      destruct (to_string url) as [s|] eqn:Es.
      2:{ rewrite (processIssue_no_string env n text span v url w Hm Hp Hf Ht Es).
          eexists. split; [reflexivity|]. repeat split; auto. }
      assert (Hs : to_string url <> None) by (rewrite Es; discriminate).
      destruct (RETRY_TIMES env) as [|k] eqn:Hk.
      * rewrite (processIssue_no_attempt n text span v url w Hm Hp Hf Ht Hs Hk).
        eexists. split; [reflexivity|]. repeat split; auto.
      * destruct (parseFeed_trace env url
                    (w ++ [Log info (Processing n); Log info (FoundJson n span);
                           Log info (GotJson n v); Log info (GettingFeed url)]))
          as (posts & evs & Hpf & Hev).
        assert (Hr : 1 <= RETRY_TIMES env) by lia.
        rewrite (processIssue_feed env n text span v url posts w _ Hm Hp Hf Ht Hs Hr Hpf).
        exists ([Log info (FoundJson n span); Log info (GotJson n v);
                 Log info (GettingFeed url); HttpGet url]
                  ++ evs ++ [Log info (Converted n (set_posts v posts))]).
        split; [now rewrite <- !app_assoc|].
        pose proof (feed_event_inner _ Hev) as Hin.
        split; [|split].
        -- simpl. rewrite forallb_app, Hin. reflexivity.
        -- pose proof (parseFeed_one_get env url posts _ _ Hpf) as Hg.
           rewrite !gets_app in Hg. rewrite !gets_app.
           change (gets [Log info (Processing n); Log info (FoundJson n span);
                         Log info (GotJson n v); Log info (GettingFeed url)])
             with 0 in Hg.
           change (gets (HttpGet url :: evs)) with (S (gets evs)) in Hg.
           change (gets [Log info (FoundJson n span); Log info (GotJson n v);
                         Log info (GettingFeed url); HttpGet url]) with 1.
           change (gets [Log info (Converted n (set_posts v posts))]) with 0. lia.
        -- exists text, span. auto.
    + rewrite (processIssue_no_feed env n text span v w Hm Hp Ht).
      eexists. split; [reflexivity|]. split; [reflexivity|].
      split; [unfold gets; simpl; lia|]. exists text, span. auto.
  - rewrite (processIssue_syntax_error env n text span w Hm Hp).
    eexists. split; [reflexivity|]. repeat split; auto.
  - rewrite (processIssue_unmodelled env n text span w Hm Hp).
    exists text, span. auto.
Qed.

(** X7.  [processIssue] never throws, whatever the record, the answers of
    the network and the configuration: it returns a result or [null]
    after at most one GET and without any update of the tracker.  The
    model gives no answer for one kind of record only: its captured span
    is valid JSON and holds a number that is not a safe integer (a
    fraction, a magnitude of [2^53] or more, negative zero). *)
Theorem processIssue_never_throws (i : issue) w :
  match processIssue env i w with
  | Val _ w' =>
      exists evs, w' = w ++ evs /\ gets evs <= 1 /\ updates evs = []
  | Exn _ _ => False
  | NoAnswer =>
      exists text span,
        body i = Some text /\ jsonMatch text = Some span
        /\ JSON_parse span = Unmodelled
  end.
Proof.
  pose proof (processIssue_trace i w) as H.
  destruct (processIssue env i w) as [r w'|e w'|]; [|exact H|exact H].
  destruct H as (evs & -> & Hin & Hg & _).
  exists (Log info (Processing (number i)) :: evs). split; [reflexivity|].
  split; [exact Hg|]. apply (inner_gets_updates evs Hin).
Qed.

(** X8.  A task of [run] fails in one way only: [processIssue] returned a
    result and the tracker rejected the update made with the new body;
    the rejected update is the last thing the task did. *)
Theorem task_fails_only_on_update (i : issue) (e : exn) w w' :
  task env i w = Exn e w' ->
  e = UpdateError
  /\ exists res w1,
       processIssue env i w = Val (Some res) w1
       /\ issues_update env (number i) (newBody res) = false
       /\ w' = w1 ++ [IssueUpdate (number i) (newBody res)].
Proof.
  unfold task, bind at 1.
  pose proof (processIssue_trace i w) as H.
  destruct (processIssue env i w) as [[res|] w1|e1 w1|]; try discriminate;
    [|contradiction].
  unfold update, bind, emit, logger, ret, throw.
  destruct (issues_update env (number i) (newBody res)) eqn:Hu; [discriminate|].
  intros Heq. injection Heq as <- <-. split; [reflexivity|].
  exists res, w1. auto.
Qed.

End OneRecord.

(** ** The captured span and its replacement *)

Lemma strip_prefix_self (p s : jsstring) : strip_prefix p (p ++ s) = Some s.
Proof.
  induction p as [|x p IH]; simpl; [reflexivity|]. now rewrite N.eqb_refl.
Qed.

Lemma span_space_stop (ws s : jsstring) (c : N) :
  forallb is_space ws = true -> is_space c = false ->
  span_space (ws ++ c :: s) = (ws, c :: s).
Proof.
  intros Hws Hc. induction ws as [|x ws IH]; simpl.
  - now rewrite Hc.
  - simpl in Hws. apply andb_prop in Hws. destruct Hws as [Hx Hws].
    rewrite Hx, (IH Hws). reflexivity.
Qed.

Lemma lazy_close_spaces (r inner w rest : jsstring) :
  lazy_close r = Some (inner, w, rest) -> forallb is_space w = true.
Proof.
  revert inner. induction r as [|c r IH]; intros inner; cbn [lazy_close];
    [discriminate|].
  assert (Hlater :
    match lazy_close r with
    | Some (inner0, w0, rest0) => Some (c :: inner0, w0, rest0)
    | None => None
    end = Some (inner, w, rest) -> forallb is_space w = true).
  { destruct (lazy_close r) as [[[i0 w0] r0]|]; [|discriminate].
    intros H. injection H as <- <- <-. now apply (IH i0). }
  destruct (N.eqb c rbrace); [|exact Hlater].
  destruct (span_space r) as [w' t'] eqn:Es.
  destruct (strip_prefix fence_close t'); [|exact Hlater].
  intros H. injection H as <- <- <-. now apply span_space_app in Es.
Qed.

(** The lazy scan stops at the first closing brace that white space and
    the closing fence follow. *)
Lemma lazy_close_shortest (x w2 rest : jsstring) :
  forallb is_space w2 = true ->
  exists inner w rest',
    lazy_close (x ++ rbrace :: w2 ++ fence_close ++ rest) = Some (inner, w, rest')
    /\ length inner <= length x.
Proof.
  intros Hw. induction x as [|c x IH].
  - exists [], w2, rest. cbn [app lazy_close]. rewrite N.eqb_refl.
    change (fence_close ++ rest) with (backtick :: (backtick :: backtick :: rest)).
    rewrite (span_space_stop w2 _ backtick Hw eq_refl).
    change (backtick :: backtick :: backtick :: rest) with (fence_close ++ rest).
    rewrite strip_prefix_self. split; [reflexivity|apply Nat.le_refl].
  - destruct IH as (inner & w & rest' & Hl & Hlen).
    cbn [app lazy_close]. rewrite Hl.
    destruct (N.eqb c rbrace).
    + destruct (span_space (x ++ rbrace :: w2 ++ fence_close ++ rest)) as [w' t'].
      destruct (strip_prefix fence_close t') as [r'|].
      * exists [], w', r'. split; [reflexivity|simpl; lia].
      * exists (c :: inner), w, rest'. split; [reflexivity|simpl; lia].
    + exists (c :: inner), w, rest'. split; [reflexivity|simpl; lia].
Qed.

Lemma fence_at_parts (s m rest : jsstring) :
  fence_at s = Some (m, rest) ->
  exists w1 inner w2,
    s = fence_open ++ w1 ++ lbrace :: inner ++ rbrace :: w2 ++ fence_close ++ rest
    /\ m = fence_open ++ w1 ++ lbrace :: inner ++ rbrace :: w2 ++ fence_close
    /\ forallb is_space w1 = true /\ forallb is_space w2 = true
    /\ lazy_close (inner ++ rbrace :: w2 ++ fence_close ++ rest)
       = Some (inner, w2, rest).
Proof.
  unfold fence_at.
  destruct (strip_prefix fence_open s) as [r1|] eqn:E1; [|discriminate].
  destruct (span_space r1) as [w1 r2] eqn:E2.
  destruct r2 as [|c r3]; [discriminate|].
  destruct (N.eqb_spec c lbrace) as [->|]; [|discriminate].
  destruct (lazy_close r3) as [[[inner w2] rest']|] eqn:E3; [|discriminate].
  intros H. injection H as <- <-.
  pose proof (lazy_close_spaces _ _ _ _ E3) as Hw2.
  pose proof (lazy_close_app _ _ _ _ E3) as Hr3.
  apply strip_prefix_app in E1. apply span_space_app in E2. destruct E2 as [E2 Hw1].
  exists w1, inner, w2. subst s r1. rewrite <- Hr3.
  split; [reflexivity|]. split; [reflexivity|]. split; [exact Hw1|].
  split; [exact Hw2|exact E3].
Qed.

Lemma fence_at_complete (w1 x w2 rest : jsstring) :
  forallb is_space w1 = true -> forallb is_space w2 = true ->
  fence_at (fence_open ++ w1 ++ lbrace :: x ++ rbrace :: w2 ++ fence_close ++ rest)
  <> None.
Proof.
  intros H1 H2. unfold fence_at. rewrite strip_prefix_self.
  rewrite (span_space_stop w1 _ lbrace H1 eq_refl). rewrite N.eqb_refl.
  destruct (lazy_close_shortest x w2 rest H2) as (inner & w & rest' & -> & _).
  discriminate.
Qed.

Lemma fence_match_parts (s pre m post : jsstring) :
  fence_match s = Some (pre, m, post) ->
  fence_at (m ++ post) = Some (m, post)
  /\ s = pre ++ m ++ post
  /\ forall p s', s = p ++ s' -> fence_at s' <> None -> length pre <= length p.
Proof.
  revert pre m post. induction s as [|c s IH]; intros pre m post.
  - simpl. discriminate.
  - cbn [fence_match].
    destruct (fence_at (c :: s)) as [[m' rest']|] eqn:Ea.
    + intros H. injection H as <- <- <-.
      destruct (fence_at_app _ _ _ Ea) as [Hs _]. cbn [app]. rewrite <- Hs.
      split; [exact Ea|]. split; [reflexivity|]. intros; simpl; lia.
    + destruct (fence_match s) as [[[pre' m'] post']|] eqn:Ef; [|discriminate].
      intros H. injection H as <- <- <-.
      destruct (IH pre' m' post' eq_refl) as (Hat & -> & Hfirst).
      split; [exact Hat|]. split; [reflexivity|].
      intros [|c' p] s' Hs Hne.
      * simpl in Hs. subst s'. now rewrite Ea in Hne.
      * simpl in Hs. injection Hs as -> Hs. simpl.
        apply le_n_S. now apply (Hfirst p s').
Qed.

Lemma upto_last_close_none (t : jsstring) :
  forallb (fun c => negb (N.eqb c rbrace)) t = true -> upto_last_close t = None.
Proof.
  induction t as [|c t IH]; simpl; [reflexivity|].
  intros H. apply andb_prop in H. destruct H as [Hc Ht].
  rewrite (IH Ht). now destruct (N.eqb c rbrace).
Qed.

Lemma upto_last_close_last (a t : jsstring) :
  upto_last_close t = None ->
  upto_last_close (a ++ rbrace :: t) = Some (a ++ [rbrace]).
Proof.
  intros Ht. induction a as [|c a IH]; cbn [app upto_last_close].
  - rewrite Ht. now rewrite N.eqb_refl.
  - now rewrite IH.
Qed.

Lemma spaces_no_brace (w : jsstring) :
  forallb is_space w = true ->
  forallb (fun c => negb (N.eqb c rbrace)) (w ++ fence_close) = true.
Proof.
  intros H. rewrite forallb_app. apply andb_true_intro. split; [|reflexivity].
  induction w as [|c w IH]; simpl; [reflexivity|].
  simpl in H. apply andb_prop in H. destruct H as [Hc Hw].
  rewrite (IH Hw), andb_true_r.
  destruct (N.eqb_spec c rbrace) as [->|]; [discriminate Hc|reflexivity].
Qed.

Lemma brace_match_fence (w1 inner w2 : jsstring) :
  forallb is_space w1 = true -> forallb is_space w2 = true ->
  brace_match (fence_open ++ w1 ++ lbrace :: inner ++ rbrace :: w2 ++ fence_close)
  = Some (lbrace :: inner ++ [rbrace]).
Proof.
  intros H1 H2.
  change (fence_open ++ w1 ++ lbrace :: inner ++ rbrace :: w2 ++ fence_close)
    with (96 :: 96 :: 96 :: 106 :: 115 :: 111 :: 110
            :: (w1 ++ lbrace :: inner ++ rbrace :: w2 ++ fence_close))%N.
  cbn [brace_match]. change (N.eqb 96 lbrace) with false.
  change (N.eqb 106 lbrace) with false. change (N.eqb 115 lbrace) with false.
  change (N.eqb 111 lbrace) with false. change (N.eqb 110 lbrace) with false.
  cbn iota. rewrite (brace_match_skip_space _ _ H1). cbn [brace_match].
  rewrite N.eqb_refl.
  rewrite (upto_last_close_last inner (w2 ++ fence_close)
             (upto_last_close_none _ (spaces_no_brace w2 H2))).
  reflexivity.
Qed.

(** The parts of the body around the captured span. *)
Lemma jsonMatch_parts (text span : jsstring) :
  jsonMatch text = Some span ->
  exists pre w1 inner w2 post,
    text = pre ++ fence_open ++ w1 ++ span ++ w2 ++ fence_close ++ post
    /\ span = lbrace :: inner ++ [rbrace]
    /\ forallb is_space w1 = true
    /\ forallb is_space w2 = true
    /\ (forall pre' w1' x w2' post',
           forallb is_space w1' = true -> forallb is_space w2' = true ->
           text = pre' ++ fence_open ++ w1' ++ lbrace :: x ++ rbrace :: w2'
                    ++ fence_close ++ post' ->
           length pre <= length pre')
    /\ (forall x w2' post',
           forallb is_space w2' = true ->
           inner ++ rbrace :: w2 ++ fence_close ++ post
           = x ++ rbrace :: w2' ++ fence_close ++ post' ->
           length inner <= length x).
Proof.
  unfold jsonMatch.
  destruct (fence_match text) as [[[pre m] post]|] eqn:Ef; [|discriminate].
  destruct (fence_match_parts _ _ _ _ Ef) as (Hat & Htext & Hfirst).
  destruct (fence_at_parts _ _ _ Hat) as (w1 & inner & w2 & Hs & Hm & H1 & H2 & Hl).
  rewrite Hm, (brace_match_fence w1 inner w2 H1 H2).
  intros H. injection H as <-.
  exists pre, w1, inner, w2, post.
  split; [|split; [reflexivity|split; [exact H1|split; [exact H2|split]]]].
  - rewrite Htext, Hs. f_equal. f_equal. f_equal.
    cbn [app]. f_equal. rewrite <- !app_assoc. reflexivity.
  - intros pre' w1' x w2' post' Hw1' Hw2' Ht.
    apply (Hfirst pre' _ Ht). now apply fence_at_complete.
  - intros x w2' post' Hw2' Heq.
    destruct (lazy_close_shortest x w2' post' Hw2') as (inner' & w' & rest' & Hl' & Hlen).
    rewrite <- Heq, Hl in Hl'. injection Hl' as <- _ _. exact Hlen.
Qed.

(** X12.  What lines 72-73 capture.  The span starts with an opening
    brace, ends with a closing brace, and stands in the body between
    [```json], white space, and white space, [```].  The fence is the
    leftmost one that can be closed, and the span ends at the first
    closing brace that white space and [```] follow. *)
Theorem jsonMatch_structure (text span : jsstring) :
  jsonMatch text = Some span ->
  exists pre w1 inner w2 post,
    text = pre ++ fence_open ++ w1 ++ span ++ w2 ++ fence_close ++ post
    /\ span = lbrace :: inner ++ [rbrace]
    /\ forallb is_space w1 = true
    /\ forallb is_space w2 = true
    /\ (forall pre' w1' x w2' post',
           forallb is_space w1' = true -> forallb is_space w2' = true ->
           text = pre' ++ fence_open ++ w1' ++ lbrace :: x ++ rbrace :: w2'
                    ++ fence_close ++ post' ->
           length pre <= length pre')
    /\ (forall x w2' post',
           forallb is_space w2' = true ->
           inner ++ rbrace :: w2 ++ fence_close ++ post
           = x ++ rbrace :: w2' ++ fence_close ++ post' ->
           length inner <= length x).
Proof. exact (jsonMatch_parts text span). Qed.

Lemma index_split_finds (x pat y : jsstring) :
  exists b a,
    index_split pat (x ++ pat ++ y) = Some (b, a) /\ length b <= length x.
Proof.
  induction x as [|c x IH].
  - exists [], y. cbn [app].
    assert (H : index_split pat (pat ++ y) = Some ([], y)).
    { destruct (pat ++ y) as [|c s] eqn:E; cbn [index_split];
        rewrite <- E, strip_prefix_self; reflexivity. }
    split; [exact H|apply Nat.le_refl].
  - destruct IH as (b & a & Hi & Hlen). cbn [app index_split].
    destruct (strip_prefix pat (c :: x ++ pat ++ y)) as [r|].
    + exists [], r. split; [reflexivity|simpl; lia].
    + rewrite Hi. exists (c :: b), a. split; [reflexivity|simpl; lia].
Qed.

Lemma get_substitution_plain (m b a t : jsstring) :
  ~ In dollar t -> get_substitution m b a t = t.
Proof.
  induction t as [|c t IH]; intros Hn; cbn [get_substitution]; [reflexivity|].
  destruct (N.eqb_spec c dollar) as [->|_].
  - exfalso. apply Hn. now left.
  - f_equal. apply IH. intros H. apply Hn. now right.
Qed.

(** X9.  The new body is the old body with the first occurrence of the
    captured text replaced: the text before and after that occurrence is
    unchanged; and when the serialized directive holds no dollar sign,
    what stands in its place is the serialized directive itself. *)
Theorem newBody_frame (env : Env) (n : Z) (text : jsstring) (res : result)
        (w w' : World) :
  processIssue env (Issue n (Some text)) w = Val (Some res) w' ->
  exists span b a,
    jsonMatch text = Some span
    /\ text = b ++ span ++ a
    /\ (forall b' a', text = b' ++ span ++ a' -> length b <= length b')
    /\ newBody res
       = b ++ get_substitution span b a (JSON_stringify (data res)) ++ a
    /\ (~ In dollar (JSON_stringify (data res)) ->
        newBody res = b ++ JSON_stringify (data res) ++ a).
Proof.
  intros Hp. pose proof (processIssue_trace env (Issue n (Some text)) w) as Ht.
  rewrite Hp in Ht. destruct Ht as (evs & _ & _ & _ & text' & span & Hb & Hm & Hnew).
  cbn [body] in Hb. injection Hb as <-.
  destruct (jsonMatch_parts _ _ Hm) as (pre & w1 & inner & w2 & post & Htext & _).
  destruct (index_split_finds (pre ++ fence_open ++ w1) span
              (w2 ++ fence_close ++ post)) as (b & a & Hi & _).
  rewrite <- !app_assoc in Hi. rewrite <- Htext in Hi.
  destruct (replace_first_occurrence text span (JSON_stringify (data res)) b a Hi)
    as [Hsplit Hrep].
  exists span, b, a. split; [exact Hm|]. split; [exact Hsplit|]. split; [|split].
  - intros b' a' Hb'. destruct (index_split_finds b' span a') as (b2 & a2 & Hi2 & Hlen).
    rewrite <- Hb', Hi in Hi2. injection Hi2 as <- _. exact Hlen.
  - now rewrite Hnew.
  - intros Hd. now rewrite Hnew, Hrep, (get_substitution_plain _ _ _ _ Hd).
Qed.

(** ** The directive after [jsonData.posts = posts] *)

Lemma lookup_overwrite_same (k : jsstring) (v : json) (m : list (jsstring * json)) :
  lookup k m <> None -> lookup k (overwrite k v m) = Some v.
Proof.
  induction m as [|[k' v'] m IH]; simpl; [congruence|].
  destruct (eqb k k') eqn:E; simpl; rewrite E; [reflexivity|exact IH].
Qed.

Lemma lookup_overwrite_other (k k' : jsstring) (v : json) (m : list (jsstring * json)) :
  k' <> k -> lookup k' (overwrite k v m) = lookup k' m.
Proof.
  intros Hne. induction m as [|[k0 v0] m IH]; simpl; [reflexivity|].
  destruct (eqb k k0) eqn:E; simpl.
  - apply eqb_eq in E. subst k0.
    destruct (eqb k' k) eqn:E'; [apply eqb_eq in E'; contradiction|reflexivity].
  - destruct (eqb k' k0); [reflexivity|exact IH].
Qed.

Lemma overwrite_keys (k : jsstring) (v : json) (m : list (jsstring * json)) :
  map fst (overwrite k v m) = map fst m.
Proof.
  induction m as [|[k0 v0] m IH]; simpl; [reflexivity|].
  destruct (eqb k k0); simpl; [reflexivity|now rewrite IH].
Qed.

Lemma lookup_app_new (k k' : jsstring) (v : json) (m : list (jsstring * json)) :
  lookup k' (m ++ [(k, v)])
  = match lookup k' m with
    | Some x => Some x
    | None => if eqb k' k then Some v else None
    end.
Proof.
  induction m as [|[k0 v0] m IH]; simpl; [reflexivity|].
  destruct (eqb k' k0); [reflexivity|exact IH].
Qed.

(** X10.  Line 89 on a parsed directive: afterwards [posts] is the
    resolved list, every other key has the value it had, and the keys
    stand in the order they had, with [posts] added last when the
    directive had none. *)
Theorem set_posts_keeps_directive (props : list (jsstring * json)) (posts : list post) :
  exists props',
    set_posts (JObj props) posts = JObj props'
    /\ lookup (js "posts") props' = Some (posts_json posts)
    /\ (forall k, k <> js "posts" -> lookup k props' = lookup k props)
    /\ map fst props'
       = match lookup (js "posts") props with
         | Some _ => map fst props
         | None => map fst props ++ [js "posts"]
         end.
Proof.
  unfold set_posts, obj_set.
  destruct (lookup (js "posts") props) as [old|] eqn:El.
  - eexists. split; [reflexivity|]. split; [|split].
    + apply lookup_overwrite_same. congruence.
    + intros k Hk. now apply lookup_overwrite_other.
    + apply overwrite_keys.
  - change (array_index (js "posts")) with (@None N).
    eexists. split; [reflexivity|]. split; [|split].
    + rewrite lookup_app_new, El. reflexivity.
    + intros k Hk. rewrite lookup_app_new.
      destruct (lookup k props); [reflexivity|].
      destruct (eqb k (js "posts")) eqn:E; [apply eqb_eq in E; contradiction|reflexivity].
    + rewrite map_app. reflexivity.
Qed.

(** ** The whole run *)

Lemma processed_app (w w' : World) : processed (w ++ w') = processed w ++ processed w'.
Proof. unfold processed. apply flat_map_app. Qed.

Lemma updated_app (w w' : World) : updated (w ++ w') = updated w ++ updated w'.
Proof. unfold updated. apply flat_map_app. Qed.

Lemma exits_app (w w' : World) : exits (w ++ w') = exits w ++ exits w'.
Proof. unfold exits. apply flat_map_app. Qed.

Lemma inner_exits (evs : list event) : forallb inner evs = true -> exits evs = [].
Proof.
  unfold exits. induction evs as [|e evs IH]; simpl; [reflexivity|].
  intros H. apply andb_prop in H. destruct H as [He Hs]. rewrite (IH Hs).
  destruct e as [[] []| | | |]; try discriminate; reflexivity.
Qed.

Lemma subseq_refl (A : Type) (l : list A) : subseq l l.
Proof. induction l; [apply subseq_nil|now apply subseq_keep]. Qed.

Lemma subseq_nil_l (A : Type) (l : list A) : subseq [] l.
Proof. induction l; [apply subseq_nil|now apply subseq_skip]. Qed.

Lemma subseq_app (A : Type) (a a' b b' : list A) :
  subseq a a' -> subseq b b' -> subseq (a ++ b) (a' ++ b').
Proof.
  induction 1; simpl; intros Hb;
    [assumption|apply subseq_skip; auto|apply subseq_keep; auto].
Qed.

Section WholeRun.

Variable env : Env.

Lemma record_block (n : Z) (evs : list event) :
  forallb inner evs = true ->
  processed (Log info (Processing n) :: evs) = [n]
  /\ updated (Log info (Processing n) :: evs) = []
  /\ exits (Log info (Processing n) :: evs) = [].
Proof.
  intros Hin. destruct (inner_gets_updates evs Hin) as (_ & Hp & Hu).
  pose proof (inner_exits evs Hin) as He.
  change (processed (Log info (Processing n) :: evs)) with (n :: processed evs).
  change (updated (Log info (Processing n) :: evs)) with (updated evs).
  change (exits (Log info (Processing n) :: evs)) with (exits evs).
  now rewrite Hp, Hu, He.
Qed.

(** What one task leaves in the trace. *)
Lemma task_trace (i : issue) (w : World) :
  match task env i w with
  | Val _ w' =>
      exists evs,
        w' = w ++ evs /\ processed evs = [number i]
        /\ subseq (updated evs) [number i] /\ exits evs = []
  | Exn _ w' =>
      exists evs b,
        w' = w ++ evs ++ [IssueUpdate (number i) b]
        /\ processed evs = [number i] /\ updated evs = [] /\ exits evs = []
        /\ issues_update env (number i) b = false
  | NoAnswer => unmodelled i
  end.
Proof.
  unfold task, bind at 1.
  pose proof (processIssue_trace env i w) as H.
  destruct (processIssue env i w) as [[res|] w1|e1 w1|]; [| |contradiction|exact H].
  - destruct H as (evs & -> & Hin & _ & _).
    destruct (record_block (number i) evs Hin) as (Hp & Hu & He).
    unfold update, bind, emit, logger, ret, throw.
    destruct (issues_update env (number i) (newBody res)) eqn:Hup.
    + exists ((Log info (Processing (number i)) :: evs)
                ++ [IssueUpdate (number i) (newBody res); Log info (Updated (number i))]).
      split; [now rewrite <- !app_assoc|].
      rewrite processed_app, updated_app, exits_app, Hp, Hu, He.
      repeat split; try reflexivity. apply subseq_refl.
    + exists (Log info (Processing (number i)) :: evs), (newBody res).
      split; [now rewrite <- !app_assoc|]. auto.
  - destruct H as (evs & -> & Hin & _ & _).
    destruct (record_block (number i) evs Hin) as (Hp & Hu & He).
    exists (Log info (Processing (number i)) :: evs). split; [reflexivity|].
    rewrite Hp, Hu, He. repeat split; try reflexivity. apply subseq_nil_l.
Qed.

Lemma process_all_trace (issues : list issue) :
  forall w,
    match process_all env issues w with
    | Val _ w' =>
        exists evs,
          w' = w ++ evs /\ processed evs = map number issues
          /\ subseq (updated evs) (map number issues) /\ exits evs = []
    | Exn _ w' =>
        exists evs k i b,
          w' = w ++ evs ++ [IssueUpdate (number i) b]
          /\ nth_error issues k = Some i
          /\ processed evs = firstn (S k) (map number issues)
          /\ subseq (updated evs) (firstn k (map number issues))
          /\ exits evs = []
          /\ issues_update env (number i) b = false
    | NoAnswer => exists i, In i issues /\ unmodelled i
    end.
Proof.
  induction issues as [|i rest IH]; intros w; cbn [process_all].
  - unfold ret. exists []. rewrite app_nil_r. repeat split; constructor.
  - unfold bind. pose proof (task_trace i w) as Ht.
    destruct (task env i w) as [[] w1|e w1|];
      [| |exists i; split; [now left|exact Ht]].
    + destruct Ht as (evs & -> & Hp & Hu & He).
      specialize (IH (w ++ evs)).
      destruct (process_all env rest (w ++ evs)) as [[] w2|e w2|];
        [| |destruct IH as (j & Hj & Hun); exists j; split; [now right|exact Hun]].
      * destruct IH as (evs' & -> & Hp' & Hu' & He').
        exists (evs ++ evs'). rewrite <- app_assoc. split; [reflexivity|].
        rewrite processed_app, updated_app, exits_app, Hp, Hp', He, He'.
        repeat split; try reflexivity.
        apply (subseq_app _ _ _ _ _ Hu Hu').
      * destruct IH as (evs' & k & j & b & -> & Hn & Hp' & Hu' & He' & Hb).
        exists (evs ++ evs'), (S k), j, b.
        rewrite <- !app_assoc. split; [reflexivity|].
        rewrite processed_app, updated_app, exits_app, Hp, Hp', He, He'.
        repeat split; try reflexivity; try assumption.
        apply (subseq_app _ _ _ _ _ Hu Hu').
    + destruct Ht as (evs & b & -> & Hp & Hu & He & Hb).
      exists evs, 0, i, b. rewrite Hp, Hu.
      repeat split; try reflexivity; try assumption. constructor.
Qed.

(** X11.  [run] throws only when lines 102-105 throw, before the [try]
    and before anything is logged or done.  Otherwise it never throws.
    When the listing fails nothing is processed and the process exits
    with code 1.  When the listing answers, the records are processed in
    listing order, each at most once, and an update is sent only for a
    processed record, at most once, in that order: either all of them are
    processed and the run ends without exit code, or the run stops at the
    first record whose update the tracker rejects, logs the error and
    exits with code 1.  The model gives no answer only for a listing with
    a record whose captured span is valid JSON with a number the model
    does not have. *)
Theorem run_in_listing_order (w : World) :
  match setup env with
  | None => run env w = Exn SetupError w
  | Some _ =>
      match getIssues env with
      | None =>
          run env w
          = Val tt (w ++ [Log info Started; Log error ErrorProcessingIssues; Exit 1])
      | Some issues =>
          match run env w with
          | Val _ w' =>
              (exists evs,
                  w' = w ++ Log info Started :: evs ++ [Log info Finished]
                  /\ processed evs = map number issues
                  /\ subseq (updated evs) (map number issues)
                  /\ exits evs = [])
              \/ (exists evs k i b,
                     w' = w ++ Log info Started :: evs
                            ++ [IssueUpdate (number i) b;
                                Log error ErrorProcessingIssues; Exit 1]
                     /\ nth_error issues k = Some i
                     /\ processed evs = firstn (S k) (map number issues)
                     /\ subseq (updated evs) (firstn k (map number issues))
                     /\ exits evs = []
                     /\ issues_update env (number i) b = false)
          | Exn _ _ => False
          | NoAnswer => exists i, In i issues /\ unmodelled i
          end
      end
  end.
Proof.
  destruct (setup env) as [t|] eqn:Es; [|unfold run; now rewrite Es].
  rewrite (run_sequential env w); [|rewrite Es; discriminate].
  unfold try_catch, bind, logger, emit, ret, throw.
  destruct (getIssues env) as [issues|]; [|now rewrite <- !app_assoc].
  pose proof (process_all_trace issues (w ++ [Log info Started])) as H.
  destruct (process_all env issues (w ++ [Log info Started])) as [[] w1|e w1|];
    [| |exact H].
  - destruct H as (evs & -> & Hp & Hu & He). left. exists evs.
    split; [now rewrite <- !app_assoc|]. auto.
  - destruct H as (evs & k & i & b & -> & Hn & Hp & Hu & He & Hb). right.
    exists evs, k, i, b. split; [|auto].
    rewrite <- !app_assoc. reflexivity.
Qed.

End WholeRun.

(** ** The further properties at concrete inputs *)

Lemma normalize_rss_witness :
  exists w',
    normalize rss_env rss_doc []
    = Val [Post (js "One") (js "http://example.org/1") (js "Mon, 01 Jan 2024")] w'.
Proof.
  assert (Hf : forall s, formatDate rss_env s (DATE_FORMAT rss_env) <> None)
    by (intros s; discriminate).
  assert (HM : (0 <= POSTS_COUNT rss_env)%Z) by (simpl; lia).
  destruct (normalize_rss rss_env Hf rss_doc [] HM eq_refl) as (w' & H & _).
  exists w'. exact H.
Defined.

Lemma parseFeed_unknown_dialect_witness :
  parseFeed html_env feed_url []
  = Val [] ([] ++ [HttpGet feed_url; Log info (FeedInfo 0 false)]).
Proof.
  exact (parseFeed_unknown_dialect html_env feed_url html_doc [] eq_refl eq_refl eq_refl).
Defined.

Lemma parseFeed_bounded_witness :
  (0 <= POSTS_COUNT rss_env)%Z
  /\ exists posts w',
       parseFeed rss_env feed_url [] = Val posts w'
       /\ length posts <= Z.to_nat (POSTS_COUNT rss_env)
       /\ Forall complete_post posts.
Proof.
  assert (HM : (0 <= POSTS_COUNT rss_env)%Z) by (simpl; lia).
  split; [exact HM|exact (parseFeed_bounded rss_env feed_url [] HM)].
Defined.

Lemma parseFeed_date_failure_witness :
  exists evs,
    parseFeed throwing_env feed_url []
    = Val [] ([] ++ HttpGet feed_url :: evs ++ [Handled DateError (ParsingFeed feed_url)])
    /\ forallb feed_event evs = true.
Proof.
  exact (parseFeed_date_failure throwing_env feed_url dated_doc [] eq_refl eq_refl).
Defined.

Lemma atom_link_source_witness :
  item_link false two_link_entry = Some (js "http://example.org/1")
  /\ exists attrs kids,
       In (Elem (js "link") attrs kids) (descendants two_link_entry)
       /\ attr_lookup (js "href") attrs = Some (js "http://example.org/1").
Proof.
  assert (H : item_link false two_link_entry = Some (js "http://example.org/1")
              /\ attr_lookup (js "rel")
                   [(js "rel", js "alternate"); (js "href", js "http://example.org/1")]
                 = Some (js "alternate")).
  { apply (proj2 (atom_link_source two_link_entry) (js "link")
             [(js "rel", js "alternate"); (js "href", js "http://example.org/1")]
             [] [] (js "http://example.org/1")).
    - reflexivity.
    - reflexivity.
    - discriminate. }
  destruct H as [H _]. split; [exact H|].
  exact (proj1 (atom_link_source two_link_entry) _ H).
Defined.

Lemma normalize_negative_bound_witness :
  (POSTS_COUNT negative_env < 0)%Z
  /\ exists w',
       normalize negative_env three_entry_doc []
       = Val [Post (js "One") (js "http://example.org/1") [];
              Post (js "Two") (js "http://example.org/2") []] w'.
Proof.
  assert (Hf : forall s, formatDate negative_env s (DATE_FORMAT negative_env) <> None)
    by (intros s; discriminate).
  assert (HM : (POSTS_COUNT negative_env < 0)%Z) by (simpl; lia).
  split; [exact HM|].
  destruct (normalize_negative_bound negative_env Hf three_entry_doc [] HM)
    as (w' & H & _).
  exists w'. exact H.
Defined.

Lemma task_fails_only_on_update_witness :
  exists e w',
    task rejecting_env (plain_issue 1) [] = Exn e w'
    /\ e = UpdateError
    /\ exists res w1,
         processIssue rejecting_env (plain_issue 1) [] = Val (Some res) w1
         /\ issues_update rejecting_env (number (plain_issue 1)) (newBody res) = false
         /\ w' = w1 ++ [IssueUpdate (number (plain_issue 1)) (newBody res)].
Proof.
  eexists. eexists.
  assert (H : task rejecting_env (plain_issue 1) []
              = Exn UpdateError
                  [Log info (Processing 1);
                   Log info (FoundJson 1 (jsq "{'a': 'b'}"));
                   Log info (GotJson 1 (JObj [(js "a", JStr (js "b"))]));
                   Log info (Converted 1 (JObj [(js "a", JStr (js "b"))]));
                   IssueUpdate 1 (jsq "```json {~  'a': 'b'~} ```")])
    by (vm_compute; reflexivity).
  split; [exact H|].
  exact (task_fails_only_on_update rejecting_env (plain_issue 1) _ [] _ H).
Defined.

Lemma jsonMatch_structure_witness :
  jsonMatch quoted_body = Some (jsq "{'a': 'b'}")
  /\ exists pre w1 inner w2 post,
       quoted_body = pre ++ fence_open ++ w1 ++ jsq "{'a': 'b'}" ++ w2
                       ++ fence_close ++ post
       /\ jsq "{'a': 'b'}" = lbrace :: inner ++ [rbrace].
Proof.
  assert (H : jsonMatch quoted_body = Some (jsq "{'a': 'b'}")) by reflexivity.
  split; [exact H|].
  destruct (jsonMatch_structure quoted_body _ H)
    as (pre & w1 & inner & w2 & post & Ht & Hs & _).
  exists pre, w1, inner, w2, post. split; [exact Ht|exact Hs].
Defined.

Lemma newBody_frame_witness :
  exists res w' span b a,
    processIssue quiet_env quoted_issue [] = Val (Some res) w'
    /\ jsonMatch quoted_body = Some span
    /\ quoted_body = b ++ span ++ a
    /\ newBody res = b ++ get_substitution span b a (JSON_stringify (data res)) ++ a.
Proof.
  eexists. eexists.
  assert (H : processIssue quiet_env quoted_issue []
              = Val (Some (Result (JObj [(js "a", JStr (js "b"))])
                             (jsq "{~  'a': 'b'~} ```json {'a': 'b'} ```")))
                  [Log info (Processing 3);
                   Log info (FoundJson 3 (jsq "{'a': 'b'}"));
                   Log info (GotJson 3 (JObj [(js "a", JStr (js "b"))]));
                   Log info (Converted 3 (JObj [(js "a", JStr (js "b"))]))])
    by (vm_compute; reflexivity).
  destruct (newBody_frame quiet_env 3 quoted_body _ [] _ H)
    as (span & b & a & Hm & Ht & _ & Hn & _).
  exists span, b, a. split; [exact H|]. split; [exact Hm|]. split; [exact Ht|exact Hn].
Defined.

(** ** [JSON.stringify] then [JSON.parse] *)

Lemma hex_digit_value (n : N) : (n < 16)%N -> hex_value (hex_digit n) = Some n.
Proof.
  intros H. unfold hex_digit, hex_value.
  destruct (N.ltb_spec n 10).
  - replace ((48 <=? 48 + n) && (48 + n <=? 57))%N with true.
    + f_equal. lia.
    + symmetry. apply andb_true_intro. split; apply N.leb_le; lia.
  - replace ((48 <=? 87 + n) && (87 + n <=? 57))%N with false.
    + replace ((97 <=? 87 + n) && (87 + n <=? 102))%N with true.
      * f_equal. lia.
      * symmetry. apply andb_true_intro. split; apply N.leb_le; lia.
    + symmetry. apply andb_false_intro2. apply N.leb_gt. lia.
Qed.

Lemma hex4_escape (c : N) :
  (c < 65536)%N ->
  hex4 (hex_digit (c / 4096 mod 16)) (hex_digit (c / 256 mod 16))
       (hex_digit (c / 16 mod 16)) (hex_digit (c mod 16)) = Some c.
Proof.
  intros Hc. unfold hex4.
  rewrite !hex_digit_value by (apply N.mod_lt; discriminate).
  f_equal.
  pose proof (N.div_mod c 16 ltac:(discriminate)) as H0.
  pose proof (N.div_mod (c / 16) 16 ltac:(discriminate)) as H1.
  pose proof (N.div_mod (c / 16 / 16) 16 ltac:(discriminate)) as H2.
  rewrite N.Div0.div_div in H1, H2. rewrite N.Div0.div_div in H2.
  change (16 * 16)%N with 256%N in *. change (256 * 16)%N with 4096%N in *.
  assert (H3 : (c / 4096 < 16)%N).
  { apply N.Div0.div_lt_upper_bound. exact Hc. }
  rewrite (N.mod_small (c / 4096) 16 H3). lia.
Qed.

Lemma parse_chars_escape (c : N) (rest : jsstring) :
  (c < 65536)%N ->
  parse_chars (unicode_escape c ++ rest)
  = match parse_chars rest with
    | Ok t rest' => Ok (c :: t) rest'
    | Bad => Bad
    | Unknown => Unknown
    end.
Proof.
  intros Hc. unfold unicode_escape. cbn [app parse_chars].
  change (N.eqb 92 34) with false. change (N.eqb 92 92) with true.
  change (N.eqb 117 117) with true. cbn iota.
  now rewrite (hex4_escape c Hc).
Qed.

Lemma parse_chars_short_escape (e u : N) (rest : jsstring) :
  unescape e = Some u -> N.eqb e 117 = false ->
  parse_chars (92 :: e :: rest)%N
  = match parse_chars rest with
    | Ok t rest' => Ok (u :: t) rest'
    | Bad => Bad
    | Unknown => Unknown
    end.
Proof.
  intros Hu He. cbn [parse_chars].
  change (N.eqb 92 34) with false. change (N.eqb 92 92) with true. cbn iota.
  now rewrite He, Hu.
Qed.

Lemma parse_chars_literal (c : N) (rest : jsstring) :
  N.eqb c 34 = false -> N.eqb c 92 = false -> (c <? 32)%N = false ->
  parse_chars (c :: rest)
  = match parse_chars rest with
    | Ok t rest' => Ok (c :: t) rest'
    | Bad => Bad
    | Unknown => Unknown
    end.
Proof. intros H1 H2 H3. cbn [parse_chars]. now rewrite H1, H2, H3. Qed.

Lemma surrogate_literal (c : N) :
  (is_high_surrogate c || is_low_surrogate c) = true ->
  N.eqb c 34 = false /\ N.eqb c 92 = false /\ (c <? 32)%N = false /\ (c < 65536)%N.
Proof.
  unfold is_high_surrogate, is_low_surrogate. intros H.
  apply orb_prop in H.
  assert (Hc : (55296 <= c <= 57343)%N).
  { destruct H as [H|H]; apply andb_prop in H; destruct H as [H1 H2];
      apply N.leb_le in H1; apply N.leb_le in H2; lia. }
  repeat split.
  - apply N.eqb_neq. lia.
  - apply N.eqb_neq. lia.
  - apply N.ltb_ge. lia.
  - lia.
Qed.

(** A quoted string reads back as the string it was made from. *)
Lemma parse_chars_quote (n : nat) :
  forall (s rest : jsstring),
    length s <= n ->
    parse_chars (quote_chars s ++ 34%N :: rest) = Ok s rest.
Proof.
  induction n as [|n IH]; intros s rest Hlen.
  - destruct s; [|simpl in Hlen; lia]. cbn [quote_chars app parse_chars].
    reflexivity.
  - destruct s as [|c r]; [reflexivity|].
    simpl in Hlen. assert (Hr : length r <= n) by lia.
    pose proof (IH r rest Hr) as IHr.
    cbn [quote_chars].
    destruct (N.eqb_spec c 8) as [->|H8].
    { change (js "\b") with [92; 98]%N. cbn [app].
      rewrite (parse_chars_short_escape 98 8 _ eq_refl eq_refl). now rewrite IHr. }
    destruct (N.eqb_spec c 9) as [->|H9].
    { change (js "\t") with [92; 116]%N. cbn [app].
      rewrite (parse_chars_short_escape 116 9 _ eq_refl eq_refl). now rewrite IHr. }
    destruct (N.eqb_spec c 10) as [->|H10].
    { change (js "\n") with [92; 110]%N. cbn [app].
      rewrite (parse_chars_short_escape 110 10 _ eq_refl eq_refl). now rewrite IHr. }
    destruct (N.eqb_spec c 12) as [->|H12].
    { change (js "\f") with [92; 102]%N. cbn [app].
      rewrite (parse_chars_short_escape 102 12 _ eq_refl eq_refl). now rewrite IHr. }
    destruct (N.eqb_spec c 13) as [->|H13].
    { change (js "\r") with [92; 114]%N. cbn [app].
      rewrite (parse_chars_short_escape 114 13 _ eq_refl eq_refl). now rewrite IHr. }
    destruct (N.eqb_spec c 34) as [->|H34].
    { cbn [app].
      rewrite (parse_chars_short_escape 34 34 _ eq_refl eq_refl). now rewrite IHr. }
    destruct (N.eqb_spec c 92) as [->|H92].
    { cbn [app].
      rewrite (parse_chars_short_escape 92 92 _ eq_refl eq_refl). now rewrite IHr. }
    destruct (N.ltb_spec c 32) as [Hlt|Hge].
    { rewrite <- app_assoc, parse_chars_escape by lia. now rewrite IHr. }
    assert (Hlit : forall t,
               parse_chars (c :: t)
               = match parse_chars t with
                 | Ok u rest' => Ok (c :: u) rest'
                 | Bad => Bad
                 | Unknown => Unknown
                 end).
    { intros t. apply parse_chars_literal.
      - now apply N.eqb_neq.
      - now apply N.eqb_neq.
      - now apply N.ltb_ge. }
    destruct (is_high_surrogate c) eqn:Hh.
    { destruct (surrogate_literal c) as (_ & _ & _ & Hc);
        [now rewrite Hh|].
      destruct r as [|d r'].
      - rewrite parse_chars_escape by exact Hc. reflexivity.
      - destruct (is_low_surrogate d) eqn:Hd.
        + destruct (surrogate_literal d) as (D1 & D2 & D3 & _);
            [now rewrite Hd, orb_true_r|].
          cbn [app]. rewrite Hlit, (parse_chars_literal d _ D1 D2 D3).
          simpl in Hr. rewrite (IH r' rest) by lia. reflexivity.
        + rewrite <- app_assoc, parse_chars_escape by exact Hc. now rewrite IHr. }
    destruct (is_low_surrogate c) eqn:Hl.
    { destruct (surrogate_literal c) as (_ & _ & _ & Hc);
        [now rewrite Hl, orb_true_r|].
      rewrite <- app_assoc, parse_chars_escape by exact Hc. now rewrite IHr. }
    cbn [app]. now rewrite Hlit, IHr.
Qed.

Lemma uint_chars_digits (u : Decimal.uint) : forallb is_digit (uint_chars u) = true.
Proof. induction u; simpl; auto. Qed.

Lemma span_digits_app (ds rest : jsstring) :
  forallb is_digit ds = true -> ends_token rest ->
  span_digits (ds ++ rest) = (ds, rest).
Proof.
  intros Hd Hr. induction ds as [|d ds IH]; cbn [app].
  - destruct rest as [|c r]; [reflexivity|]. cbn [span_digits].
    destruct Hr as [->| ->]; reflexivity.
  - simpl in Hd. apply andb_prop in Hd. destruct Hd as [H1 H2].
    cbn [span_digits]. now rewrite H1, (IH H2).
Qed.

Lemma digits_value_uint (u a : Decimal.uint) :
  digits_value (DecimalPos.Unsigned.of_lu a) (uint_chars u)
  = DecimalPos.Unsigned.of_lu (Decimal.revapp u a).
Proof.
  revert a. induction u; intros a; cbn [uint_chars digits_value Decimal.revapp];
    try reflexivity;
    match goal with
    | |- digits_value ?acc _ = _ =>
        match goal with
        | IH : forall a, _ = DecimalPos.Unsigned.of_lu (Decimal.revapp _ a)
          |- _ = DecimalPos.Unsigned.of_lu (Decimal.revapp _ ?b) =>
            rewrite <- (IH b); f_equal; cbn [DecimalPos.Unsigned.of_lu]; lia
        end
    end.
Qed.

Lemma digits_value_pos (p : positive) :
  digits_value 0 (uint_chars (Pos.to_uint p)) = Npos p.
Proof.
  change 0%N with (DecimalPos.Unsigned.of_lu Decimal.Nil).
  rewrite digits_value_uint.
  change (Decimal.revapp (Pos.to_uint p) Decimal.Nil) with (Decimal.rev (Pos.to_uint p)).
  rewrite <- DecimalPos.Unsigned.of_uint_alt. apply DecimalPos.Unsigned.of_to.
Qed.

Lemma to_uint_head (p : positive) :
  exists d ds,
    uint_chars (Pos.to_uint p) = d :: ds
    /\ is_digit d = true /\ N.eqb d 48 = false.
Proof.
  assert (Hn : Pos.to_uint p = Decimal.unorm (Pos.to_uint p)).
  { pose proof (DecimalPos.Unsigned.to_of (Pos.to_uint p)) as H.
    rewrite DecimalPos.Unsigned.of_to in H. exact H. }
  assert (Hz : forall d', Pos.to_uint p <> Decimal.D0 d').
  { intros d' E.
    destruct (Decimal.nzhead (Pos.to_uint p)) eqn:Ehd;
      try (rewrite Hn in E; unfold Decimal.unorm in E; rewrite Ehd in E;
           (discriminate E
            || (injection E as E'; subst;
                apply (DecimalPos.Unsigned.to_uint_nonzero p);
                rewrite Hn; unfold Decimal.unorm; now rewrite Ehd)
            || (rewrite <- Ehd in E;
                exact (DecimalFacts.nzhead_nonzero _ _ E)))). }
  pose proof (DecimalPos.Unsigned.to_uint_nonnil p) as Hnil.
  destruct (Pos.to_uint p) eqn:E; try contradiction;
    try (exfalso; now apply (Hz u));
    cbn [uint_chars]; eexists; eexists; split; try reflexivity; split; reflexivity.
Qed.

Lemma fraction_none (rest : jsstring) :
  ends_token rest -> parse_fraction rest = Some ([], rest).
Proof. destruct rest as [|c r]; [reflexivity|]. intros [->| ->]; reflexivity. Qed.

Lemma exponent_none (rest : jsstring) :
  ends_token rest -> parse_exponent rest = Some (0%Z, rest).
Proof. destruct rest as [|c r]; [reflexivity|]. intros [->| ->]; reflexivity. Qed.

(** A literal of digits only has the value of its digits. *)
Lemma number_value_plain (neg : bool) (ds : jsstring) :
  (digits_value 0 ds < safe_bound)%N ->
  (neg = true -> digits_value 0 ds <> 0%N) ->
  number_value neg ds [] 0
  = Some (JNum (if neg then - Z.of_N (digits_value 0 ds)
                else Z.of_N (digits_value 0 ds))).
Proof.
  intros Hn Hz. unfold number_value, scaled. rewrite app_nil_r.
  cbn [length Z.of_nat Z.sub Z.opp Z.add Z.leb Z.compare Z.to_N N.pow].
  destruct (N.eqb_spec (digits_value 0 ds) 0) as [E|E].
  - rewrite E in *. destruct neg; [exfalso; now apply Hz|reflexivity].
  - rewrite N.mul_1_r. apply N.ltb_lt in Hn. rewrite Hn.
    apply N.eqb_neq in E. rewrite E, andb_false_r. reflexivity.
Qed.

Lemma parse_number_pos (neg : bool) (p : positive) (rest : jsstring) :
  ends_token rest -> (Npos p < safe_bound)%N ->
  parse_number neg (uint_chars (Pos.to_uint p) ++ rest)
  = Ok (Some (JNum (if neg then - Z.of_N (Npos p) else Z.of_N (Npos p)))) rest.
Proof.
  intros Hr Hp. unfold parse_number.
  rewrite (span_digits_app _ _ (uint_chars_digits _) Hr).
  destruct (to_uint_head p) as (d & ds & E & _ & Hd).
  rewrite E, Hd. cbn [andb]. rewrite <- E.
  rewrite (fraction_none rest Hr), (exponent_none rest Hr).
  rewrite number_value_plain; rewrite digits_value_pos;
    [reflexivity|exact Hp|discriminate].
Qed.

Lemma parse_value_number (f : nat) (c : N) (r : jsstring) :
  is_digit c = true ->
  parse_value (S f) (c :: r) = parse_number false (c :: r).
Proof.
  intros Hc. unfold is_digit in Hc. apply andb_prop in Hc. destruct Hc as [H1 H2].
  apply N.leb_le in H1. apply N.leb_le in H2.
  cbn [parse_value skip_ws].
  assert (Hws : is_json_ws c = false).
  { unfold is_json_ws. repeat (apply orb_false_intro); apply N.eqb_neq; lia. }
  rewrite Hws.
  replace (N.eqb c 34) with false by (symmetry; apply N.eqb_neq; lia).
  replace (N.eqb c 123) with false by (symmetry; apply N.eqb_neq; lia).
  replace (N.eqb c 91) with false by (symmetry; apply N.eqb_neq; lia).
  replace (N.eqb c 116) with false by (symmetry; apply N.eqb_neq; lia).
  replace (N.eqb c 102) with false by (symmetry; apply N.eqb_neq; lia).
  replace (N.eqb c 110) with false by (symmetry; apply N.eqb_neq; lia).
  replace (N.eqb c 45) with false by (symmetry; apply N.eqb_neq; lia).
  reflexivity.
Qed.

Lemma skip_ws_app (ws s : jsstring) :
  forallb is_json_ws ws = true -> skip_ws (ws ++ s) = skip_ws s.
Proof.
  induction ws as [|c ws IH]; cbn [app forallb]; [reflexivity|].
  intros H. apply andb_prop in H. destruct H as [Hc Hw].
  cbn [skip_ws]. rewrite Hc. now apply IH.
Qed.

Lemma indent_ws (ind : jsstring) : is_indent ind -> forallb is_json_ws ind = true.
Proof.
  unfold is_indent. induction ind as [|c ind IH]; cbn [forallb]; [reflexivity|].
  intros H. apply andb_prop in H. destruct H as [Hc Hi].
  apply N.eqb_eq in Hc. subst c. now rewrite (IH Hi).
Qed.

Lemma indent_gap (ind : jsstring) : is_indent ind -> is_indent (ind ++ gap).
Proof.
  unfold is_indent. intros H. rewrite forallb_app, H. reflexivity.
Qed.

(** A serialized number reads back. *)
Lemma parse_value_num (f : nat) (z : Z) (ws rest : jsstring) :
  (Z.abs z < 9007199254740992)%Z -> ends_token rest ->
  forallb is_json_ws ws = true ->
  parse_value (S f) (ws ++ number_to_string z ++ rest) = Ok (Some (JNum z)) rest.
Proof.
  intros Hz Hr Hws.
  assert (Hskip : forall s, parse_value (S f) (ws ++ s) = parse_value (S f) s).
  { intros s. cbn [parse_value]. now rewrite (skip_ws_app ws s Hws). }
  rewrite Hskip. destruct z as [|p|p]; cbn [number_to_string].
  - cbn [app]. rewrite parse_value_number by reflexivity.
    unfold parse_number.
    pose proof (span_digits_app [48%N] rest eq_refl Hr) as Hs. cbn [app] in Hs.
    rewrite Hs. cbn [andb N.eqb]. change (N.eqb 48 48 && false) with false.
    cbn iota. rewrite (fraction_none rest Hr), (exponent_none rest Hr).
    reflexivity.
  - destruct (to_uint_head p) as (d & ds & E & Hd & _).
    assert (Hp : (Npos p < safe_bound)%N) by (unfold safe_bound; lia).
    pose proof (parse_number_pos false p rest Hr Hp) as Hn.
    rewrite E in *. cbn [app] in *. rewrite parse_value_number by exact Hd.
    exact Hn.
  - assert (Hp : (Npos p < safe_bound)%N) by (unfold safe_bound; lia).
    cbn [app parse_value skip_ws]. change (is_json_ws 45) with false.
    cbn iota. change (N.eqb 45 34) with false. change (N.eqb 45 123) with false.
    change (N.eqb 45 91) with false. change (N.eqb 45 116) with false.
    change (N.eqb 45 102) with false. change (N.eqb 45 110) with false.
    change (N.eqb 45 45) with true. cbn iota.
    exact (parse_number_pos true p rest Hr Hp).
Qed.

Lemma json_nested_ind (P : json -> Prop) :
  P JNull -> (forall b, P (JBool b)) -> (forall z, P (JNum z)) ->
  (forall s, P (JStr s)) ->
  (forall l, Forall P l -> P (JArr l)) ->
  (forall m, Forall (fun kv => P (snd kv)) m -> P (JObj m)) ->
  forall v, P v.
Proof.
  intros Hnull Hbool Hnum Hstr Harr Hobj.
  fix IH 1. intros [|b|z|s|l|m].
  - exact Hnull.
  - apply Hbool.
  - apply Hnum.
  - apply Hstr.
  - apply Harr.
    exact ((fix go (l : list json) : Forall P l :=
              match l with
              | [] => Forall_nil P
              | x :: r => Forall_cons x (IH x) (go r)
              end) l).
  - apply Hobj.
    exact ((fix go (m : list (jsstring * json)) : Forall (fun kv => P (snd kv)) m :=
              match m with
              | [] => Forall_nil _
              | kv :: r => Forall_cons kv (IH (snd kv)) (go r)
              end) m).
Qed.

Lemma json_ok_arr (l : list json) : json_ok (JArr l) <-> Forall json_ok l.
Proof.
  cbn [json_ok]. induction l as [|x l IH]; [split; auto|].
  split.
  - intros [Hx Hl]. constructor; [exact Hx|now apply IH].
  - intros H. inversion H; subst. split; [assumption|now apply IH].
Qed.

Lemma json_ok_obj (m : list (jsstring * json)) :
  json_ok (JObj m) <-> keys_ok (map fst m) /\ Forall (fun kv => json_ok (snd kv)) m.
Proof.
  cbn [json_ok].
  assert (H : (fix all (m0 : list (jsstring * json)) : Prop :=
                 match m0 with
                 | [] => True
                 | kv :: r => json_ok (snd kv) /\ all r
                 end) m <-> Forall (fun kv => json_ok (snd kv)) m).
  { induction m as [|kv m IH]; [split; auto|]. split.
    - intros [Hx Hl]. constructor; [exact Hx|now apply IH].
    - intros H. inversion H; subst. split; [assumption|now apply IH]. }
  tauto.
Qed.

Lemma need_arr (l : list json) :
  need (JArr l) = S (list_sum (map (fun x => S (need x)) l)).
Proof.
  cbn [need]. f_equal. induction l as [|x l IH]; [reflexivity|].
  exact (f_equal (Nat.add (S (need x))) IH).
Qed.

Lemma need_obj (m : list (jsstring * json)) :
  need (JObj m) = S (list_sum (map (fun kv => S (need (snd kv))) m)).
Proof.
  cbn [need]. f_equal. induction m as [|x m IH]; [reflexivity|].
  exact (f_equal (Nat.add (S (need (snd x)))) IH).
Qed.

Lemma parse_value_skip (f : nat) (ws s : jsstring) :
  forallb is_json_ws ws = true ->
  parse_value (S f) (ws ++ s) = parse_value (S f) s.
Proof. intros H. cbn [parse_value]. now rewrite (skip_ws_app ws s H). Qed.

Lemma skip_ws_line (ind s : jsstring) :
  is_indent ind -> skip_ws (10%N :: ind ++ s) = skip_ws s.
Proof.
  intros H. change (10%N :: ind ++ s) with ((10%N :: ind) ++ s).
  apply skip_ws_app. cbn [forallb]. now rewrite (indent_ws ind H).
Qed.

Lemma join_more (sep p q : jsstring) (r : list jsstring) :
  join sep (p :: q :: r) = p ++ sep ++ join sep (q :: r).
Proof. reflexivity. Qed.

Lemma elements_read_back (inner ind rest : jsstring) :
  is_indent inner -> is_indent ind ->
  forall (l : list json) (x : json),
    Forall reads_back (x :: l) ->
    forall (ws : jsstring) (fuel : nat),
      forallb is_json_ws ws = true ->
      list_sum (map (fun y => S (need y)) (x :: l)) <= fuel ->
      parse_elements fuel
        (ws ++ join ([44; 10]%N ++ inner) (map (serialize inner) (x :: l))
            ++ 10%N :: ind ++ 93%N :: rest)
      = Ok (Some (x :: l)) rest.
Proof.
  intros Hinner Hind. induction l as [|y l IH]; intros x Hall ws fuel Hws Hfuel.
  - inversion Hall as [|? ? Hx _]; subst.
    cbn [map list_sum fold_right] in Hfuel. destruct fuel as [|f]; [lia|].
    cbn [map join parse_elements].
    rewrite (Hx inner (10%N :: ind ++ 93%N :: rest) ws f Hinner); try assumption;
      [|now right|lia].
    rewrite (skip_ws_line ind _ Hind). reflexivity.
  - inversion Hall as [|? ? Hx Hrest]; subst.
    cbn [map list_sum fold_right] in Hfuel. destruct fuel as [|f]; [lia|].
    cbn [parse_elements].
    change (map (serialize inner) (x :: y :: l))
      with (serialize inner x :: serialize inner y :: map (serialize inner) l).
    rewrite join_more.
    change (serialize inner y :: map (serialize inner) l)
      with (map (serialize inner) (y :: l)).
    rewrite <- !app_assoc.
    rewrite (Hx inner _ ws f Hinner); try assumption; [|now left|lia].
    change ([44; 10]%N ++ inner
              ++ join ([44; 10]%N ++ inner) (map (serialize inner) (y :: l))
              ++ 10%N :: ind ++ 93%N :: rest)
      with (44%N :: (10%N :: inner)
              ++ join ([44; 10]%N ++ inner) (map (serialize inner) (y :: l))
              ++ 10%N :: ind ++ 93%N :: rest).
    cbn [skip_ws]. change (is_json_ws 44) with false. cbn iota.
    change (N.eqb 44 44) with true. cbn iota.
    rewrite (IH y Hrest (10%N :: inner) f); [reflexivity| |].
    + cbn [forallb]. now rewrite (indent_ws inner Hinner).
    + cbn [map list_sum fold_right]. lia.
Qed.

Lemma keys_ok_middle (ks1 : list jsstring) (k : jsstring) (ks2 : list jsstring) :
  keys_ok (ks1 ++ k :: ks2) ->
  ~ In k ks1 /\
  forall i, array_index k = Some i ->
    Forall (fun k' => exists j, array_index k' = Some j /\ (j <= i)%N) ks1.
Proof.
  induction ks1 as [|a ks1 IH]; intros H.
  - split; [intros []|intros; constructor].
  - cbn [app keys_ok] in H. destruct H as (Hnot & Hhead & Hrest).
    destruct (IH Hrest) as [Hk Hall]. split.
    + intros [->|Hin]; [|now apply Hk].
      apply Hnot, in_elt.
    + intros i Hi. constructor; [|now apply Hall].
      destruct (array_index a) as [j|].
      * exists j. split; [reflexivity|].
        rewrite Forall_forall in Hhead.
        specialize (Hhead k (in_elt k ks1 ks2)). now rewrite Hi in Hhead.
      * rewrite Forall_forall in Hhead.
        specialize (Hhead k (in_elt k ks1 ks2)). congruence.
Qed.

Lemma lookup_absent (k : jsstring) (m : list (jsstring * json)) :
  ~ In k (map fst m) -> lookup k m = None.
Proof.
  induction m as [|[k' v'] m IH]; intros H; [reflexivity|].
  cbn [lookup]. destruct (eqb k k') eqn:E.
  - apply eqb_eq in E. subst k'. exfalso. apply H. now left.
  - apply IH. intros Hin. apply H. now right.
Qed.

Lemma insert_index_last (i : N) (k : jsstring) (v : json) (m : list (jsstring * json)) :
  Forall (fun k' => exists j, array_index k' = Some j /\ (j <= i)%N) (map fst m) ->
  insert_index i k v m = m ++ [(k, v)].
Proof.
  induction m as [|[k' v'] m IH]; intros H; [reflexivity|].
  cbn [map fst] in H. inversion H as [|? ? (j & Hj & Hlt) Hm]; subst.
  cbn [insert_index app]. rewrite Hj.
  assert (E : (i <? j)%N = false) by (apply N.ltb_ge; lia).
  rewrite E. f_equal. now apply IH.
Qed.

Lemma obj_set_last (k : jsstring) (v : json) (m : list (jsstring * json))
      (ks : list jsstring) :
  keys_ok (map fst m ++ k :: ks) -> obj_set k v m = m ++ [(k, v)].
Proof.
  intros H. destruct (keys_ok_middle _ _ _ H) as [Hk Hall].
  unfold obj_set. rewrite (lookup_absent k m Hk).
  destruct (array_index k) as [i|]; [|reflexivity].
  apply insert_index_last. now apply Hall.
Qed.

Lemma member_layout (k sv tail : jsstring) :
  (quote k ++ [58; 32]%N ++ sv) ++ tail
  = 34%N :: quote_chars k ++ 34%N :: 58%N :: [32%N] ++ sv ++ tail.
Proof.
  unfold quote. cbn [app]. now rewrite <- !app_assoc.
Qed.

Lemma member_step (f : nat) (acc : list (jsstring * json)) (k : jsstring) (v : json)
      (inner tail ws : jsstring) (c2 : N) (r2 : jsstring) :
  reads_back v -> is_indent inner -> forallb is_json_ws ws = true ->
  need v <= f -> ends_token tail -> skip_ws tail = c2 :: r2 ->
  parse_members (S f) (Some acc)
    (ws ++ (quote k ++ [58; 32]%N ++ serialize inner v) ++ tail)
  = if N.eqb c2 44 then parse_members f (Some (obj_set k v acc)) r2
    else if N.eqb c2 125 then Ok (Some (obj_set k v acc)) r2
    else Bad.
Proof.
  intros Hv Hinner Hws Hf Htail Hskip.
  cbn [parse_members]. rewrite (skip_ws_app ws _ Hws), member_layout.
  cbn [skip_ws]. change (is_json_ws 34) with false. cbn iota.
  change (N.eqb 34 34) with true. cbn iota.
  rewrite (parse_chars_quote (length k) k _ (le_n _)).
  cbn [skip_ws]. change (is_json_ws 58) with false. cbn iota.
  change (N.eqb 58 58) with true. cbn iota.
  rewrite (Hv inner tail [32%N] f Hinner Htail eq_refl Hf).
  now rewrite Hskip.
Qed.

Lemma members_read_back (inner ind rest : jsstring) :
  is_indent inner -> is_indent ind ->
  forall (m : list (jsstring * json)) (kv : jsstring * json)
         (acc : list (jsstring * json)),
    Forall (fun p => reads_back (snd p)) (kv :: m) ->
    keys_ok (map fst (acc ++ kv :: m)) ->
    forall (ws : jsstring) (fuel : nat),
      forallb is_json_ws ws = true ->
      list_sum (map (fun p => S (need (snd p))) (kv :: m)) <= fuel ->
      parse_members fuel (Some acc)
        (ws ++ join ([44; 10]%N ++ inner)
                 (map (fun p => quote (fst p) ++ [58; 32]%N ++ serialize inner (snd p))
                      (kv :: m))
            ++ 10%N :: ind ++ 125%N :: rest)
      = Ok (Some (acc ++ kv :: m)) rest.
Proof.
  intros Hinner Hind. induction m as [|kv' m IH];
    intros [k v] acc Hall Hkeys ws fuel Hws Hfuel.
  - inversion Hall as [|? ? Hv _]; subst. cbn [snd] in Hv.
    cbn [map list_sum fold_right snd] in Hfuel. destruct fuel as [|f]; [lia|].
    cbn [map join fst snd].
    rewrite (member_step f acc k v inner (10%N :: ind ++ 125%N :: rest) ws
               125%N rest Hv Hinner Hws); [| lia | now right |].
    + change (N.eqb 125 44) with false. change (N.eqb 125 125) with true. cbn iota.
      rewrite map_app in Hkeys. cbn [map fst] in Hkeys.
      now rewrite (obj_set_last k v acc [] Hkeys).
    + now rewrite (skip_ws_line ind _ Hind).
  - inversion Hall as [|? ? Hv Hrest]; subst. cbn [snd] in Hv.
    cbn [map list_sum fold_right snd] in Hfuel. destruct fuel as [|f]; [lia|].
    set (entry := fun p : jsstring * json =>
                    quote (fst p) ++ [58; 32]%N ++ serialize inner (snd p)).
    change (map entry ((k, v) :: kv' :: m))
      with (entry (k, v) :: entry kv' :: map entry m).
    rewrite join_more.
    change (entry kv' :: map entry m) with (map entry (kv' :: m)).
    change (entry (k, v)) with (quote k ++ [58; 32]%N ++ serialize inner v).
    set (J := join ([44; 10]%N ++ inner) (map entry (kv' :: m))).
    replace ((quote k ++ [58; 32]%N ++ serialize inner v)
               ++ ([44; 10]%N ++ inner) ++ J)
      with ((quote k ++ [58; 32]%N ++ serialize inner v)
              ++ 44%N :: (10%N :: inner) ++ J)
      by (cbn [app]; now rewrite <- !app_assoc).
    rewrite <- (app_assoc (quote k ++ [58; 32]%N ++ serialize inner v)).
    rewrite (member_step f acc k v inner _ ws 44%N
               (((10%N :: inner) ++ J) ++ 10%N :: ind ++ 125%N :: rest)
               Hv Hinner Hws); [| lia | now left | reflexivity].
    change (N.eqb 44 44) with true. cbn iota.
    rewrite map_app in Hkeys. cbn [map fst] in Hkeys.
    rewrite (obj_set_last k v acc _ Hkeys).
    rewrite <- (app_assoc (10%N :: inner)).
    subst J entry.
    rewrite (IH kv' (acc ++ [(k, v)]) Hrest).
    + now rewrite <- app_assoc.
    + rewrite <- app_assoc. cbn [app]. rewrite map_app. exact Hkeys.
    + cbn [forallb]. now rewrite (indent_ws inner Hinner).
    + cbn [map list_sum fold_right]. lia.
Qed.

Lemma skip_ws_idem (s : jsstring) : skip_ws (skip_ws s) = skip_ws s.
Proof.
  induction s as [|c s IH]; [reflexivity|].
  cbn [skip_ws]. destruct (is_json_ws c) eqn:E; [exact IH|].
  cbn [skip_ws]. now rewrite E.
Qed.

Lemma parse_value_skipped (f : nat) (s : jsstring) :
  parse_value f (skip_ws s) = parse_value f s.
Proof. destruct f; [reflexivity|]. cbn [parse_value]. now rewrite skip_ws_idem. Qed.

Lemma parse_elements_skipped (f : nat) (s : jsstring) :
  parse_elements f (skip_ws s) = parse_elements f s.
Proof.
  destruct f; [reflexivity|]. cbn [parse_elements]. now rewrite parse_value_skipped.
Qed.

Lemma parse_members_skipped (f : nat) (acc : option (list (jsstring * json)))
      (s : jsstring) :
  parse_members f acc (skip_ws s) = parse_members f acc s.
Proof. destruct f; [reflexivity|]. cbn [parse_members]. now rewrite skip_ws_idem. Qed.

(** No value starts with a closing bracket. *)
Lemma parse_value_head (f : nat) (s : jsstring) (v : option json) (rest : jsstring) :
  parse_value f s = Ok v rest ->
  exists c r, skip_ws s = c :: r /\ c <> 93%N.
Proof.
  destruct f; [discriminate|]. cbn [parse_value].
  destruct (skip_ws s) as [|c r]; [discriminate|].
  intros H. exists c, r. split; [reflexivity|]. intros ->.
  cbv in H. discriminate.
Qed.

Lemma parse_elements_head (f : nat) (s : jsstring) (l : option (list json))
      (rest : jsstring) :
  parse_elements f s = Ok l rest ->
  exists c r, skip_ws s = c :: r /\ c <> 93%N.
Proof.
  destruct f; [discriminate|]. cbn [parse_elements].
  destruct (parse_value f s) as [v t| |] eqn:E; try discriminate.
  intros _. exact (parse_value_head _ _ _ _ E).
Qed.

Lemma parse_members_head (f : nat) (acc : option (list (jsstring * json)))
      (s : jsstring) (m : option (list (jsstring * json))) (rest : jsstring) :
  parse_members f acc s = Ok m rest ->
  exists c r, skip_ws s = c :: r /\ c <> 125%N.
Proof.
  destruct f; [discriminate|]. cbn [parse_members].
  destruct (skip_ws s) as [|q r]; [discriminate|].
  destruct (N.eqb q 34) eqn:E; [|discriminate].
  intros _. apply N.eqb_eq in E. subst q. exists 34%N, r.
  split; [reflexivity|discriminate].
Qed.

Lemma parse_value_array (f : nat) (r : jsstring) :
  parse_value (S f) (91%N :: r)
  = match skip_ws r with
    | [] => Bad
    | c1 :: r1 =>
        if N.eqb c1 93 then Ok (Some (JArr [])) r1
        else match parse_elements f (c1 :: r1) with
             | Ok l rest => Ok (option_map JArr l) rest
             | Bad => Bad
             | Unknown => Unknown
             end
    end.
Proof. reflexivity. Qed.

Lemma parse_value_object (f : nat) (r : jsstring) :
  parse_value (S f) (123%N :: r)
  = match skip_ws r with
    | [] => Bad
    | c1 :: r1 =>
        if N.eqb c1 125 then Ok (Some (JObj [])) r1
        else match parse_members f (Some []) (c1 :: r1) with
             | Ok m rest => Ok (option_map JObj m) rest
             | Bad => Bad
             | Unknown => Unknown
             end
    end.
Proof. reflexivity. Qed.

Lemma serialize_array (ind : jsstring) (x : json) (l : list json) (rest : jsstring) :
  serialize ind (JArr (x :: l)) ++ rest
  = 91%N :: (10%N :: ind ++ gap)
      ++ join ([44; 10]%N ++ ind ++ gap) (map (serialize (ind ++ gap)) (x :: l))
      ++ 10%N :: ind ++ 93%N :: rest.
Proof.
  change (serialize ind (JArr (x :: l)))
    with ([91; 10]%N ++ (ind ++ gap)
            ++ join ([44; 10]%N ++ ind ++ gap) (map (serialize (ind ++ gap)) (x :: l))
            ++ [10%N] ++ ind ++ [93%N]).
  cbn [app]. rewrite <- !app_assoc. cbn [app]. rewrite <- !app_assoc. reflexivity.
Qed.

Lemma serialize_object (ind : jsstring) (kv : jsstring * json)
      (m : list (jsstring * json)) (rest : jsstring) :
  serialize ind (JObj (kv :: m)) ++ rest
  = 123%N :: (10%N :: ind ++ gap)
      ++ join ([44; 10]%N ++ ind ++ gap)
           (map (fun p => quote (fst p) ++ [58; 32]%N ++ serialize (ind ++ gap) (snd p))
                (kv :: m))
      ++ 10%N :: ind ++ 125%N :: rest.
Proof.
  change (serialize ind (JObj (kv :: m)))
    with ([123; 10]%N ++ (ind ++ gap)
            ++ join ([44; 10]%N ++ ind ++ gap)
                 (map (fun p => quote (fst p) ++ [58; 32]%N
                                  ++ serialize (ind ++ gap) (snd p)) (kv :: m))
            ++ [10%N] ++ ind ++ [125%N]).
  cbn [app]. rewrite <- !app_assoc. cbn [app]. rewrite <- !app_assoc. reflexivity.
Qed.

Lemma Forall_modus (A : Type) (P Q : A -> Prop) (l : list A) :
  Forall (fun x => P x -> Q x) l -> Forall P l -> Forall Q l.
Proof.
  induction 1 as [|x l Hx _ IH]; intros H; [constructor|].
  inversion H; subst. constructor; auto.
Qed.

(** Every value of the model, serialized at any depth, reads back. *)
Lemma reads_back_all (v : json) : json_ok v -> reads_back v.
Proof.
  induction v as [|b|z|s|l IH|m IH] using json_nested_ind; intros Hok;
    intros ind rest ws fuel Hind Hrest Hws Hfuel.
  - destruct fuel as [|f]; [cbn [need] in Hfuel; lia|].
    rewrite (parse_value_skip f ws _ Hws). reflexivity.
  - destruct fuel as [|f]; [cbn [need] in Hfuel; lia|].
    rewrite (parse_value_skip f ws _ Hws). destruct b; reflexivity.
  - destruct fuel as [|f]; [cbn [need] in Hfuel; lia|].
    exact (parse_value_num f z ws rest Hok Hrest Hws).
  - destruct fuel as [|f]; [cbn [need] in Hfuel; lia|].
    rewrite (parse_value_skip f ws _ Hws).
    change (serialize ind (JStr s)) with (34%N :: quote_chars s ++ [34%N]).
    cbn [app]. rewrite <- app_assoc. cbn [app parse_value skip_ws].
    change (is_json_ws 34) with false. cbn iota.
    change (N.eqb 34 34) with true. cbn iota.
    now rewrite (parse_chars_quote (length s) s rest (le_n _)).
  - rewrite need_arr in Hfuel. destruct fuel as [|f]; [lia|].
    rewrite (parse_value_skip f ws _ Hws).
    destruct l as [|x l]; [reflexivity|].
    apply json_ok_arr in Hok. pose proof (Forall_modus _ _ _ _ IH Hok) as Hall.
    pose proof (elements_read_back (ind ++ gap) ind rest (indent_gap ind Hind) Hind
                  l x Hall (10%N :: ind ++ gap) f) as He.
    rewrite serialize_array, parse_value_array.
    assert (Hg : forallb is_json_ws (10%N :: ind ++ gap) = true).
    { cbn [forallb]. now rewrite (indent_ws _ (indent_gap ind Hind)). }
    specialize (He Hg ltac:(lia)).
    destruct (parse_elements_head _ _ _ _ He) as (c1 & r1 & Hs & Hne).
    rewrite Hs. apply N.eqb_neq in Hne. rewrite Hne.
    rewrite <- Hs, parse_elements_skipped, He. reflexivity.
  - rewrite need_obj in Hfuel. destruct fuel as [|f]; [lia|].
    rewrite (parse_value_skip f ws _ Hws).
    destruct m as [|kv m]; [reflexivity|].
    apply json_ok_obj in Hok. destruct Hok as [Hkeys Hok].
    pose proof (Forall_modus _ _ _ _ IH Hok) as Hall.
    pose proof (members_read_back (ind ++ gap) ind rest (indent_gap ind Hind) Hind
                  m kv [] Hall Hkeys (10%N :: ind ++ gap) f) as He.
    rewrite serialize_object, parse_value_object.
    assert (Hg : forallb is_json_ws (10%N :: ind ++ gap) = true).
    { cbn [forallb]. now rewrite (indent_ws _ (indent_gap ind Hind)). }
    specialize (He Hg ltac:(lia)).
    destruct (parse_members_head _ _ _ _ _ He) as (c1 & r1 & Hs & Hne).
    rewrite Hs. apply N.eqb_neq in Hne. rewrite Hne.
    rewrite <- Hs, parse_members_skipped, He. reflexivity.
Qed.

Lemma join_need (A : Type) (w : A -> nat) (g : A -> jsstring) (sep : jsstring) :
  1 <= length sep ->
  forall (l : list A) (x : A),
    Forall (fun y => w y <= length (g y)) (x :: l) ->
    list_sum (map (fun y => S (w y)) (x :: l)) <= length (join sep (map g (x :: l))) + 1.
Proof.
  intros Hsep. induction l as [|y l IH]; intros x Hall.
  - inversion Hall; subst. cbn [map list_sum fold_right join]. lia.
  - inversion Hall as [|? ? Hx Hrest]; subst. specialize (IH y Hrest).
    change (map g (x :: y :: l)) with (g x :: g y :: map g l).
    rewrite join_more. change (g y :: map g l) with (map g (y :: l)).
    rewrite !length_app.
    change (list_sum (map (fun y0 => S (w y0)) (x :: y :: l)))
      with (S (w x) + list_sum (map (fun y0 => S (w y0)) (y :: l))).
    lia.
Qed.

(** The parser's fuel is enough for whatever [serialize] writes. *)
Lemma need_serialize (v : json) (ind : jsstring) : need v <= length (serialize ind v).
Proof.
  revert ind. induction v as [|b|z|s|l IH|m IH] using json_nested_ind; intros ind.
  - cbn. lia.
  - destruct b; cbn; lia.
  - destruct z as [|p|p]; cbn [need serialize number_to_string length]; try lia.
    destruct (to_uint_head p) as (d & ds & E & _). rewrite E. cbn [length]. lia.
  - cbn [need serialize quote length]. lia.
  - rewrite need_arr. destruct l as [|x l]; [cbn; lia|].
    pose proof (serialize_array ind x l []) as E. rewrite app_nil_r in E. rewrite E.
    assert (Hall : Forall (fun y => need y <= length (serialize (ind ++ gap) y)) (x :: l)).
    { eapply Forall_impl; [|exact IH]. intros y Hy. apply Hy. }
    pose proof (join_need json need (serialize (ind ++ gap)) ([44; 10]%N ++ ind ++ gap)
                  ltac:(cbn [app length]; lia) l x Hall) as Hj.
    cbn [length]. rewrite !length_app. cbn [length]. lia.
  - rewrite need_obj. destruct m as [|kv m]; [cbn; lia|].
    pose proof (serialize_object ind kv m []) as E. rewrite app_nil_r in E. rewrite E.
    assert (Hall : Forall (fun p => need (snd p)
                                    <= length (quote (fst p) ++ [58; 32]%N
                                                 ++ serialize (ind ++ gap) (snd p)))
                     (kv :: m)).
    { eapply Forall_impl; [|exact IH]. intros p Hp. cbn beta in Hp.
      rewrite !length_app. specialize (Hp (ind ++ gap)). lia. }
    pose proof (join_need (jsstring * json) (fun p => need (snd p))
                  (fun p => quote (fst p) ++ [58; 32]%N ++ serialize (ind ++ gap) (snd p))
                  ([44; 10]%N ++ ind ++ gap)
                  ltac:(cbn [app length]; lia) m kv Hall) as Hj.
    cbn [length]. rewrite !length_app. cbn [length].
    match goal with
    | |- S ?a <= S (S _ + (?j + S _)) => assert (Hj' : a <= j + 1) by exact Hj
    end.
    lia.
Qed.

Lemma reads_back_top (v : json) :
  json_ok v -> JSON_parse (JSON_stringify v) = Parsed v.
Proof.
  intros Hok. unfold JSON_parse, JSON_stringify.
  pose proof (reads_back_all v Hok [] [] [] (2 * length (serialize [] v) + 2)
                eq_refl I eq_refl) as H.
  cbn [app] in H. rewrite app_nil_r in H.
  rewrite H; [reflexivity|].
  pose proof (need_serialize v []). lia.
Qed.

(** X13.  [JSON.parse(JSON.stringify(v, null, 2))] is [v] again, for every
    value [v] whose numbers are safe integers and whose objects list their
    properties in ECMAScript's own-property order: the text that line 93
    writes carries the value that line 80 would read from it. *)
Theorem stringify_then_parse (v : json) :
  json_ok v -> JSON_parse (JSON_stringify v) = Parsed v.
Proof. exact (reads_back_top v). Qed.

(** ** What [JSON.parse] returns *)

Lemma lookup_none_absent (k : jsstring) (m : list (jsstring * json)) :
  lookup k m = None -> ~ In k (map fst m).
Proof.
  induction m as [|[k' v'] m IH]; intros H; [intros []|].
  cbn [lookup] in H. destruct (eqb k k') eqn:E; [discriminate|].
  cbn [map fst]. intros [->|Hin]; [|now apply IH].
  assert (E' : eqb k k = true) by now apply eqb_eq. congruence.
Qed.

Lemma insert_index_In (x : jsstring) (i : N) (k : jsstring) (v : json)
      (m : list (jsstring * json)) :
  In x (map fst (insert_index i k v m)) -> x = k \/ In x (map fst m).
Proof.
  induction m as [|[k' v'] m IH]; cbn [insert_index map fst In].
  - intros [<-|[]]. now left.
  - destruct (array_index k') as [j|]; [destruct (i <? j)%N|];
      cbn [map fst In]; intros H.
    + destruct H as [<-|H]; [now left|now right].
    + destruct H as [<-|H]; [right; now left|].
      destruct (IH H) as [->|Hin]; [now left|right; now right].
    + destruct H as [<-|H]; [now left|now right].
Qed.

Lemma insert_index_Forall (P : jsstring -> Prop) (i : N) (k : jsstring) (v : json)
      (m : list (jsstring * json)) :
  P k -> Forall P (map fst m) -> Forall P (map fst (insert_index i k v m)).
Proof.
  intros Hk. induction m as [|[k' v'] m IH]; cbn [insert_index map fst]; intros H.
  - constructor; [exact Hk|constructor].
  - destruct (array_index k') as [j|]; [destruct (i <? j)%N|]; cbn [map fst].
    + constructor; assumption.
    + inversion H; subst. constructor; [assumption|now apply IH].
    + constructor; assumption.
Qed.

Lemma keys_ok_insert (i : N) (k : jsstring) (v : json) (m : list (jsstring * json)) :
  array_index k = Some i -> ~ In k (map fst m) -> keys_ok (map fst m) ->
  keys_ok (map fst (insert_index i k v m)).
Proof.
  intros Hi. induction m as [|[k' v'] m IH]; intros Hnot Hok.
  - cbn. rewrite Hi. repeat split; [intros []|constructor].
  - cbn [map fst keys_ok] in Hok. destruct Hok as (Hk' & Hhead & Hrest).
    cbn [map fst In] in Hnot.
    cbn [insert_index]. destruct (array_index k') as [j|] eqn:Ej.
    + destruct (i <? j)%N eqn:Elt.
      * apply N.ltb_lt in Elt. cbn [map fst keys_ok]. rewrite Hi, Ej.
        split; [exact Hnot|]. split.
        -- constructor; [cbn beta; rewrite Ej; lia|].
           eapply Forall_impl; [|exact Hhead]. intros a Ha. cbn beta in Ha |- *.
           destruct (array_index a); [lia|exact I].
        -- repeat split; assumption.
      * apply N.ltb_ge in Elt. cbn [map fst keys_ok]. rewrite Ej. split; [|split].
        -- intros Hin. apply insert_index_In in Hin. destruct Hin as [->|Hin]; tauto.
        -- apply insert_index_Forall; [now rewrite Hi|exact Hhead].
        -- apply IH; tauto.
    + cbn [map fst keys_ok]. rewrite Hi, Ej. split; [exact Hnot|]. split.
      * constructor; [cbn beta; now rewrite Ej|].
        eapply Forall_impl; [|exact Hhead]. intros a Ha. cbn beta in Ha |- *.
        now rewrite Ha.
      * repeat split; assumption.
Qed.

Lemma keys_ok_snoc (ks : list jsstring) (k : jsstring) :
  keys_ok ks -> ~ In k ks -> array_index k = None -> keys_ok (ks ++ [k]).
Proof.
  intros Hok Hnot Hk. induction ks as [|a ks IH].
  - cbn. rewrite Hk. repeat split; [intros []|constructor].
  - cbn [keys_ok] in Hok. destruct Hok as (Ha & Hhead & Hrest).
    cbn [In] in Hnot. cbn [app keys_ok]. split; [|split].
    + rewrite in_app_iff. cbn [In]. intros [H|[H|[]]]; [tauto|].
      apply Hnot. now left.
    + destruct (array_index a); apply Forall_app; (split; [exact Hhead|]);
        constructor; try constructor; [now rewrite Hk|exact Hk].
    + apply IH; tauto.
Qed.

Lemma keys_ok_obj_set (k : jsstring) (v : json) (m : list (jsstring * json)) :
  keys_ok (map fst m) -> keys_ok (map fst (obj_set k v m)).
Proof.
  intros Hok. unfold obj_set. destruct (lookup k m) eqn:El.
  - now rewrite overwrite_keys.
  - apply lookup_none_absent in El. destruct (array_index k) as [i|] eqn:Ei.
    + now apply keys_ok_insert.
    + rewrite map_app. now apply keys_ok_snoc.
Qed.

Lemma values_overwrite (P : json -> Prop) (k : jsstring) (v : json)
      (m : list (jsstring * json)) :
  P v -> Forall (fun kv => P (snd kv)) m ->
  Forall (fun kv => P (snd kv)) (overwrite k v m).
Proof.
  intros Hv. induction m as [|[k' v'] m IH]; intros H; [constructor|].
  inversion H; subst. cbn [overwrite].
  destruct (eqb k k'); constructor; auto.
Qed.

Lemma values_insert_index (P : json -> Prop) (i : N) (k : jsstring) (v : json)
      (m : list (jsstring * json)) :
  P v -> Forall (fun kv => P (snd kv)) m ->
  Forall (fun kv => P (snd kv)) (insert_index i k v m).
Proof.
  intros Hv. induction m as [|[k' v'] m IH]; intros H; cbn [insert_index].
  - constructor; [exact Hv|constructor].
  - destruct (array_index k') as [j|]; [destruct (i <? j)%N|].
    + constructor; assumption.
    + inversion H; subst. constructor; [assumption|now apply IH].
    + constructor; assumption.
Qed.

Lemma values_obj_set (P : json -> Prop) (k : jsstring) (v : json)
      (m : list (jsstring * json)) :
  P v -> Forall (fun kv => P (snd kv)) m ->
  Forall (fun kv => P (snd kv)) (obj_set k v m).
Proof.
  intros Hv Hm. unfold obj_set. destruct (lookup k m).
  - now apply values_overwrite.
  - destruct (array_index k).
    + now apply values_insert_index.
    + apply Forall_app. split; [exact Hm|]. constructor; [exact Hv|constructor].
Qed.

Lemma parse_number_ok (neg : bool) (s : jsstring) (v : json) (rest : jsstring) :
  parse_number neg s = Ok (Some v) rest -> json_ok v.
Proof.
  unfold parse_number. destruct (span_digits s) as [[|d ds] t]; [discriminate|].
  destruct (N.eqb d 48 && match ds with [] => false | _ => true end); [discriminate|].
  destruct (parse_fraction t) as [[fs t1]|]; [|discriminate].
  destruct (parse_exponent t1) as [[e t2]|]; [|discriminate].
  unfold number_value.
  destruct (scaled _ _) as [n|]; [|discriminate].
  destruct (N.ltb_spec n safe_bound) as [Hn|Hn]; [|discriminate].
  destruct (negb (neg && (n =? 0)%N)); [|discriminate].
  cbn [andb]. intros H. injection H as <- _.
  cbn [json_ok]. unfold safe_bound in Hn. destruct neg; lia.
Qed.

Lemma parse_literal_ok (word : jsstring) (v0 : json) (s : jsstring) (v : json)
      (rest : jsstring) :
  json_ok v0 -> parse_literal word v0 s = Ok (Some v) rest -> json_ok v.
Proof.
  unfold parse_literal. intros H0. destruct (strip_prefix word s); [|discriminate].
  intros H. now injection H as <- _.
Qed.

Lemma parse_ok (f : nat) :
  (forall s v rest, parse_value f s = Ok (Some v) rest -> json_ok v)
  /\ (forall s l rest, parse_elements f s = Ok (Some l) rest -> Forall json_ok l)
  /\ (forall acc s m rest,
        (forall a, acc = Some a ->
           keys_ok (map fst a) /\ Forall (fun kv => json_ok (snd kv)) a) ->
        parse_members f acc s = Ok (Some m) rest ->
        keys_ok (map fst m) /\ Forall (fun kv => json_ok (snd kv)) m).
Proof.
  induction f as [|f (IHv & IHe & IHm)]; [repeat split; discriminate|].
  split; [|split].
  - intros s v rest. cbn [parse_value].
    destruct (skip_ws s) as [|c r]; [discriminate|].
    destruct (N.eqb c 34).
    { destruct (parse_chars r); try discriminate.
      intros H. injection H as <- _. exact I. }
    destruct (N.eqb c 123).
    { destruct (skip_ws r) as [|c1 r1]; [discriminate|].
      destruct (N.eqb c1 125).
      - intros H. injection H as <- _. cbn. auto.
      - destruct (parse_members f (Some []) (c1 :: r1)) as [[m|] t| |] eqn:E;
          try discriminate.
        cbn [option_map]. intros H. injection H as <- _. apply json_ok_obj.
        apply (IHm (Some []) (c1 :: r1) m t); [|exact E].
        intros a Ha. injection Ha as <-. split; [exact I|constructor]. }
    destruct (N.eqb c 91).
    { destruct (skip_ws r) as [|c1 r1]; [discriminate|].
      destruct (N.eqb c1 93).
      - intros H. injection H as <- _. exact I.
      - destruct (parse_elements f (c1 :: r1)) as [[l|] t| |] eqn:E; try discriminate.
        cbn [option_map]. intros H. injection H as <- _. apply json_ok_arr.
        exact (IHe _ _ _ E). }
    destruct (N.eqb c 116); [apply parse_literal_ok; exact I|].
    destruct (N.eqb c 102); [apply parse_literal_ok; exact I|].
    destruct (N.eqb c 110); [apply parse_literal_ok; exact I|].
    destruct (N.eqb c 45); apply parse_number_ok.
  - intros s l rest. cbn [parse_elements].
    destruct (parse_value f s) as [[v|] t| |] eqn:Ev; try discriminate;
      (destruct (skip_ws t) as [|c r]; [discriminate|]);
      destruct (N.eqb c 44).
    + destruct (parse_elements f r) as [[l'|] t'| |] eqn:Ee; try discriminate.
      cbn [cons_value]. intros H. injection H as <- _.
      constructor; [exact (IHv _ _ _ Ev)|exact (IHe _ _ _ Ee)].
    + destruct (N.eqb c 93); [|discriminate].
      cbn [cons_value]. intros H. injection H as <- _.
      constructor; [exact (IHv _ _ _ Ev)|constructor].
    + destruct (parse_elements f r) as [[l'|] t'| |]; discriminate.
    + destruct (N.eqb c 93); discriminate.
  - intros acc s m rest Hacc. cbn [parse_members].
    destruct (skip_ws s) as [|q r]; [discriminate|].
    destruct (N.eqb q 34); [|discriminate].
    destruct (parse_chars r) as [k t| |]; try discriminate.
    destruct (skip_ws t) as [|c r1]; [discriminate|].
    destruct (N.eqb c 58); [|discriminate].
    destruct (parse_value f r1) as [v t1| |] eqn:Ev; try discriminate.
    destruct (skip_ws t1) as [|c2 r2]; [discriminate|].
    assert (Hacc' : forall a, set_value k v acc = Some a ->
                      keys_ok (map fst a) /\ Forall (fun kv => json_ok (snd kv)) a).
    { intros a Ha. destruct v as [x|]; [|discriminate Ha].
      destruct acc as [a0|]; [|discriminate Ha].
      cbn [set_value] in Ha. injection Ha as <-.
      destruct (Hacc a0 eq_refl) as [Hk Hv]. split.
      - now apply keys_ok_obj_set.
      - apply values_obj_set; [exact (IHv _ _ _ Ev)|exact Hv]. }
    destruct (N.eqb c2 44); [exact (IHm _ _ _ _ Hacc')|].
    destruct (N.eqb c2 125); [|discriminate].
    intros H. injection H as H _. exact (Hacc' m H).
Qed.

(** Whatever [JSON.parse] returns is a value [JSON.stringify] writes back
    faithfully. *)
Lemma JSON_parse_ok (text : jsstring) (v : json) :
  JSON_parse text = Parsed v -> json_ok v.
Proof.
  unfold JSON_parse.
  destruct (parse_value (2 * length text + 2) text) as [[v'|] t| |] eqn:E;
    try discriminate; (destruct (skip_ws t); [|discriminate]); [|discriminate].
  intros H. injection H as <-.
  exact (proj1 (parse_ok _) _ _ _ E).
Qed.

Lemma keys_okb_sound (ks : list jsstring) : keys_okb ks = true -> keys_ok ks.
Proof.
  induction ks as [|k r IH]; [exact (fun _ => I)|].
  cbn [keys_okb keys_ok]. intros H.
  apply andb_prop in H. destruct H as [H Hr].
  apply andb_prop in H. destruct H as [Hin Hhead].
  split; [|split; [|exact (IH Hr)]].
  - intros Hk. apply negb_true_iff in Hin.
    assert (E : existsb (eqb k) r = true).
    { apply existsb_exists. exists k. split; [exact Hk|now apply eqb_eq]. }
    congruence.
  - destruct (array_index k) as [i|]; apply Forall_forall; intros k' Hk';
      rewrite forallb_forall in Hhead; specialize (Hhead k' Hk');
      destruct (array_index k') as [j|]; try exact I; try reflexivity;
      try discriminate Hhead.
    now apply N.leb_le.
Qed.

Lemma json_okb_sound (v : json) : json_okb v = true -> json_ok v.
Proof.
  induction v as [|b|z|s|l IH|m IH] using json_nested_ind; intros H;
    try exact I.
  - cbn [json_okb] in H. cbn [json_ok]. now apply Z.ltb_lt.
  - apply json_ok_arr. cbn [json_okb] in H.
    induction l as [|x l IHl]; [constructor|].
    apply andb_prop in H. destruct H as [Hx Hl].
    inversion IH as [|? ? Px Pl]; subst.
    constructor; [exact (Px Hx)|exact (IHl Pl Hl)].
  - apply json_ok_obj. cbn [json_okb] in H.
    apply andb_prop in H. destruct H as [Hk H].
    split; [exact (keys_okb_sound _ Hk)|].
    induction m as [|kv m IHm]; [constructor|].
    apply andb_prop in H. destruct H as [Hx Hm].
    inversion IH as [|? ? Px Pm]; subst.
    constructor; [exact (Px Hx)|].
    apply (IHm Pm); [|exact Hm].
    cbn [map fst keys_okb] in Hk.
    apply andb_prop in Hk. exact (proj2 Hk).
Qed.

Lemma posts_json_ok (posts : list post) : json_ok (posts_json posts).
Proof.
  unfold posts_json. apply json_ok_arr. apply Forall_forall.
  intros v Hin. apply in_map_iff in Hin. destruct Hin as (p & <- & _).
  unfold post_json. apply json_ok_obj. split.
  - apply keys_okb_sound. reflexivity.
  - repeat constructor.
Qed.

Lemma set_posts_ok (d : json) (posts : list post) :
  json_ok d -> json_ok (set_posts d posts).
Proof.
  destruct d as [| | | | |m]; try (intros H; exact H).
  intros H. apply json_ok_obj in H. destruct H as [Hk Hv].
  unfold set_posts. apply json_ok_obj. split.
  - now apply keys_ok_obj_set.
  - apply values_obj_set; [apply posts_json_ok|exact Hv].
Qed.

(** ** The directive a record is given *)

Section WrittenDirective.

Variable env : Env.

(** The data [processIssue] returns is the directive it parsed, with the
    posts set when a feed was resolved. *)
Lemma processIssue_data (i : issue) (w w' : World) (res : result) :
  processIssue env i w = Val (Some res) w' ->
  exists text span d,
    body i = Some text /\ jsonMatch text = Some span
    /\ JSON_parse span = Parsed d
    /\ (data res = d \/ exists posts, data res = set_posts d posts).
Proof.
  destruct i as [n [text|]]; cbn [number body].
  2:{ rewrite (proj1 (processIssue_no_body env n w)). discriminate. }
  destruct (jsonMatch text) as [span|] eqn:Hm.
  2:{ destruct text as [|c r].
      - change (@Some jsstring []) with (@Some (list N) []).
        rewrite (proj2 (processIssue_no_body env n w)). discriminate.
      - rewrite (processIssue_no_match env n (c :: r) w); [|discriminate|exact Hm].
        discriminate. }
  destruct (JSON_parse span) as [v| |] eqn:Hp.
  - destruct (truthy (feed_of v)) eqn:Ht.
    + destruct (feed_of v) as [url|] eqn:Hf; [|discriminate Ht].
      destruct (to_string url) as [s|] eqn:Es.
      2:{ rewrite (processIssue_no_string env n text span v url w Hm Hp Hf Ht Es).
          discriminate. }
      assert (Hs : to_string url <> None) by (rewrite Es; discriminate).
      destruct (RETRY_TIMES env) as [|k] eqn:Hk.
      * rewrite (processIssue_no_attempt env n text span v url w Hm Hp Hf Ht Hs Hk).
        discriminate.
      * destruct (parseFeed_trace env url
                    (w ++ [Log info (Processing n); Log info (FoundJson n span);
                           Log info (GotJson n v); Log info (GettingFeed url)]))
          as (posts & evs & Hpf & Hev).
        assert (Hr : 1 <= RETRY_TIMES env) by lia.
        rewrite (processIssue_feed env n text span v url posts w _ Hm Hp Hf Ht Hs Hr Hpf).
        intros H. injection H as <- _.
        exists text, span, v. repeat split; try assumption.
        right. now exists posts.
    + rewrite (processIssue_no_feed env n text span v w Hm Hp Ht).
      intros H. injection H as <- _.
      exists text, span, v. repeat split; try assumption. now left.
  - rewrite (processIssue_syntax_error env n text span w Hm Hp). discriminate.
  - rewrite (processIssue_unmodelled env n text span w Hm Hp). discriminate.
Qed.

(** X14.  For a record whose captured span is not valid JSON with a
    number other than a safe integer, [processIssue] returns, and the
    data of a result survives the text written for it: [JSON.parse]
    reads [JSON.stringify(jsonData, null, 2)] (line 93) as the very
    [jsonData] of the result, whether or not posts were set on it. *)
Theorem written_directive_reads_back (i : issue) (w : World) :
  covered i ->
  exists r w',
    processIssue env i w = Val r w'
    /\ forall res,
         r = Some res ->
         JSON_parse (JSON_stringify (data res)) = Parsed (data res).
Proof.
  intros Hc. pose proof (processIssue_trace env i w) as Ht.
  destruct (processIssue env i w) as [r w'|e w'|] eqn:E.
  - exists r, w'. split; [reflexivity|]. intros res ->.
    destruct (processIssue_data i w w' res E)
      as (text & span & d & _ & _ & Hp & Hd).
    apply JSON_parse_ok in Hp.
    apply reads_back_top. destruct Hd as [->|[posts ->]]; [exact Hp|].
    now apply set_posts_ok.
  - contradiction.
  - destruct Ht as (text & span & Hb & Hm & Hp).
    exfalso. exact (Hc text span Hb Hm Hp).
Qed.

End WrittenDirective.

Lemma stringify_then_parse_witness :
  json_ok (JObj [(js "2", JNull); (js "10", JBool true);
                 (js "feed", JStr (jsq "http://example.org/'a'~"));
                 (js "posts", JArr [JObj [(js "title", JStr (js "t"))]; JNum (-12); JArr []])])
  /\ JSON_parse
       (JSON_stringify
          (JObj [(js "2", JNull); (js "10", JBool true);
                 (js "feed", JStr (jsq "http://example.org/'a'~"));
                 (js "posts", JArr [JObj [(js "title", JStr (js "t"))]; JNum (-12); JArr []])]))
     = Parsed
         (JObj [(js "2", JNull); (js "10", JBool true);
                (js "feed", JStr (jsq "http://example.org/'a'~"));
                (js "posts", JArr [JObj [(js "title", JStr (js "t"))]; JNum (-12); JArr []])]).
Proof.
  assert (H : json_ok
                (JObj [(js "2", JNull); (js "10", JBool true);
                       (js "feed", JStr (jsq "http://example.org/'a'~"));
                       (js "posts",
                        JArr [JObj [(js "title", JStr (js "t"))]; JNum (-12); JArr []])]))
    by (apply json_okb_sound; vm_compute; reflexivity).
  split; [exact H|exact (stringify_then_parse _ H)].
Defined.

Lemma written_directive_reads_back_witness :
  covered feed_issue
  /\ exists r w',
       processIssue rss_env feed_issue [] = Val r w'
       /\ forall res,
            r = Some res ->
            JSON_parse (JSON_stringify (data res)) = Parsed (data res).
Proof.
  assert (Hc : covered feed_issue).
  { intros text span Hb Hm. injection Hb as <-.
    vm_compute in Hm. injection Hm as <-. vm_compute. discriminate. }
  split; [exact Hc|exact (written_directive_reads_back rss_env feed_issue [] Hc)].
Defined.
